(** * torchdynamo / torchinductor: IR node model, fusion scheduler and
    bytecode emitter, embedded in Rocq.

    The three Python modules [torchinductor/ir.py],
    [torchinductor/scheduler.py] and [torchdynamo/codegen.py] are embedded
    shallowly: Python objects that are mutated in place become explicit
    state, objects shared by reference (scheduler nodes, blocked-node
    boxes) live in a store indexed by identity, and a failing [assert]
    (or any other exception) is [None]. *)

From stdpp Require Import base gmap sets list strings option pretty.
From Stdlib Require Import ZArith Floats Ascii.

#[local] Open Scope Z_scope.

(** Symbolic sizes, strides and indices ([sympy.Expr]) are read at a
    valuation of their free symbols, so an expression is its integer. *)
Definition Expr := Z.

(* ===================================================================== *)
(** * torchinductor/ir.py *)
(* ===================================================================== *)

Module IR.

Inductive LayoutKind := FixedLayout | FlexibleLayout.

(** [class Layout]: device, dtype, size, stride, offset.  The kind records
    which subclass built the object. *)
Record Layout := mkLayout {
  layout_kind : LayoutKind;
  layout_device : string;
  layout_dtype : string;
  layout_size : list Expr;
  layout_stride : list Expr;
  layout_offset : Expr
}.

(** [Layout.make_indexer]: the closure asserts one index per stride and
    returns [sum(a * b for a, b in zip(index, stride)) + offset]. *)
Definition make_indexer (self : Layout) (index : list Expr) : option Expr :=
  if decide (length index = length (layout_stride self)) then
    Some (foldr Z.add 0 (zip_with Z.mul index (layout_stride self))
          + layout_offset self)
  else None.

(** [FlexibleLayout.default_strides]. *)
Definition default_strides (sizes : list Expr) : list Expr :=
  match sizes with
  | [] => []
  | _ :: rest =>
      let reversed_strides :=
        foldl (fun acc size => acc ++ [size * List.last acc 1]) [1] (reverse rest) in
      reverse reversed_strides
  end.

(** [FlexibleLayout.__init__(device, dtype, size)]. *)
Definition new_FlexibleLayout (device dtype : string) (size : list Expr) : Layout :=
  mkLayout FlexibleLayout device dtype size (default_strides size) 0.

(** [Loops.inner_fn] is a Python callable: the body of an unrealized buffer
    takes the index, the body of a reduction takes the index and the
    reduction index. *)
Inductive Callable :=
  | Fn1 (f : list Expr -> Expr)
  | Fn2 (f : list Expr -> list Expr -> Expr).

(** The two concrete subclasses of [TypedLoops]; the field [data] of a
    [ComputedBuffer] is annotated with this type. *)
Inductive TypedLoops :=
  | UnrealizedBuffer (ranges : list Expr) (inner_fn : Callable)
      (device dtype : string)
  | Reduction (ranges : list Expr) (inner_fn : Callable)
      (device dtype : string) (reduction_size : list Expr)
      (reduction_type : string).

Definition get_size (l : TypedLoops) : list Expr :=
  match l with
  | UnrealizedBuffer r _ _ _ => r
  | Reduction r _ _ _ _ _ => r
  end.

Definition get_device (l : TypedLoops) : string :=
  match l with
  | UnrealizedBuffer _ _ d _ => d
  | Reduction _ _ d _ _ _ => d
  end.

Definition get_dtype (l : TypedLoops) : string :=
  match l with
  | UnrealizedBuffer _ _ _ t => t
  | Reduction _ _ _ t _ _ => t
  end.

Definition get_reduction_size (l : TypedLoops) : list Expr :=
  match l with
  | UnrealizedBuffer _ _ _ _ => []
  | Reduction _ _ _ _ rs _ => rs
  end.

(** [None] for an unrealized buffer, the reduction kind for a reduction. *)
Definition get_reduction_type (l : TypedLoops) : option string :=
  match l with
  | UnrealizedBuffer _ _ _ _ => None
  | Reduction _ _ _ _ _ rt => Some rt
  end.

(** [class ComputedBuffer(Buffer)]: name, layout, data. *)
Record ComputedBuffer := mkComputedBuffer {
  name : string;
  layout : Layout;
  data : TypedLoops
}.

(** The node kinds of the module.  [MutableBox] is one constructor per
    subclass. *)
Inductive IRNode :=
  | NLayout (l : Layout)
  | NLoops (ranges : list Expr) (inner_fn : Callable)
  | NTypedLoops (ranges : list Expr) (inner_fn : Callable) (device dtype : string)
  | NLoop (l : TypedLoops)
  | NExpandView (data : IRNode) (size : list Expr)
  | NSqueezeView (data : IRNode)
  | NConstant (value : Expr) (dtype device : string)
  | NInputBuffer (name : string) (layout : Layout)
  | NComputedBuffer (b : ComputedBuffer)
  | NTensorBox (data : IRNode)
  | NStorageBox (data : IRNode)
  | NView (storage : IRNode).

(** [class StorageBox(MutableBox)]: the rebindable field [data]. *)
Record StorageBox := mkStorageBox { box_data : IRNode }.

(** [SqueezeView.squeezer]: the sizes that are not 1, and the closure
    [reindex] that puts an index of the squeezed shape back at the kept
    axes, the dropped axes at 0.  The closure asserts the index length. *)
Definition not_one_axes (size : list Expr) : list nat :=
  (filter (fun p : nat * Expr => p.2 ≠ 1) (imap (fun i s => (i, s)) size)).*1.

Definition reindex (not_one : list nat) (length_ : nat) (index : list Expr)
  : option (list Expr) :=
  if decide (length index = length not_one) then
    Some (foldl (fun new_index p => <[p.1 := p.2]> new_index)
            (replicate length_ 0) (zip not_one index))
  else None.

Definition squeezer (size : list Expr)
  : list Expr * (list Expr -> option (list Expr)) :=
  (filter (fun s => s ≠ 1) size, reindex (not_one_axes size) (length size)).

(** ** The graph registry ([torchinductor.virtualized.graph]) *)

Record GraphLowering := mkGraph {
  buffers : list ComputedBuffer;
  graph_inputs : gmap string Layout;
  graph_outputs : list string;
  removed_buffers : gset string
}.

(** Modelled from the spec: [graph.register_buffer], whose module is not part
    of the sources: "register_buffer(node) -> unique name".  The registry
    appends the buffer and names it after its position.  [realize] passes a
    buffer whose name is still [None] and writes the returned name into that
    same object afterwards, so the registry's entry carries the name as soon
    as [realize] returns: the entry is built here from the name handed out. *)
Definition register_buffer (g : GraphLowering) (node : string -> ComputedBuffer)
  : string * GraphLowering :=
  let fresh := "buf" +:+ pretty (length (buffers g)) in
  (fresh,
   mkGraph (buffers g ++ [node fresh]) (graph_inputs g) (graph_outputs g)
     (removed_buffers g)).

(** [StorageBox.realize].  The result is the returned name, the box and the
    registry after the call; [None] is the failed [assert isinstance]. *)
Definition realize (g : GraphLowering) (self : StorageBox)
  : option (string * StorageBox * GraphLowering) :=
  match box_data self with
  | NComputedBuffer b => Some (name b, self, g)
  | NLoop l =>
      let fresh_layout :=
        new_FlexibleLayout (get_device l) (get_dtype l) (get_size l) in
      let '(nm, g') := register_buffer g (fun nm => mkComputedBuffer nm fresh_layout l) in
      let b := mkComputedBuffer nm fresh_layout l in
      Some (name b, mkStorageBox (NComputedBuffer b), g')
  | _ => None
  end.

End IR.

(* ===================================================================== *)
(** * torchinductor/scheduler.py *)
(* ===================================================================== *)

Module Sched.
Export IR.

(** Modelled from the spec: the dependency type of
    [torchinductor.dependencies], not part of the sources: a dependency
    "identifies a named buffer and (for most dependencies) an access
    pattern; a distinguished whole-buffer variant denotes depends on
    everything written to this name". *)
Inductive Dep :=
  | MemoryDep (name : string) (index : Expr)
  | StarDep (name : string).

Definition dep_name (d : Dep) : string :=
  match d with
  | MemoryDep n _ => n
  | StarDep n => n
  end.

#[global] Instance Dep_eq_dec : EqDecision Dep.
Proof. solve_decision. Defined.

#[global] Instance Dep_countable : Countable Dep.
Proof.
  refine (inj_countable'
    (fun d => match d with
              | MemoryDep n i => inl (n, i)
              | StarDep n => inr n
              end)
    (fun x => match x with
              | inl (n, i) => MemoryDep n i
              | inr n => StarDep n
              end) _).
  by intros [].
Defined.

(** The record [extract_read_writes] returns. *)
Record ReadWrites := mkReadWrites {
  reads : gset Dep;
  writes : gset Dep
}.

(** A fusion-group key: [(group_fn(size), group_fn(reduction_size))]. *)
Abbreviation Group := (list Expr * list Expr)%type.

(** A consumer in [node.users]: an [OutputNode] (its single field
    [unmet_dependencies]) or a reference to a [SchedulerNode] object. *)
Inductive User :=
  | UOutputNode (unmet : gset Dep)
  | UNode (id : nat).

(** [OutputNode(dep)]. *)
Definition new_OutputNode (dep : Dep) : User := UOutputNode {[ dep ]}.

(** [class SchedulerNode].  [users] is [None] until [compute_users] runs.
    The back reference [self.scheduler] is the state the methods take. *)
Record SchedulerNode := mkSchedulerNode {
  node : ComputedBuffer;
  read_writes : ReadWrites;
  unmet_dependencies : gset Dep;
  _size : list Expr;
  _reindex : list Expr -> option (list Expr);
  _reduction_size : list Expr;
  _reduction_reindex : list Expr -> option (list Expr);
  group : Group;
  users : option (list User)
}.

Definition set_unmet_dependencies (u : gset Dep) (n : SchedulerNode) : SchedulerNode :=
  mkSchedulerNode (node n) (read_writes n) u (_size n) (_reindex n)
    (_reduction_size n) (_reduction_reindex n) (group n) (users n).

Definition set_users (u : option (list User)) (n : SchedulerNode) : SchedulerNode :=
  mkSchedulerNode (node n) (read_writes n) (unmet_dependencies n) (_size n)
    (_reindex n) (_reduction_size n) (_reduction_reindex n) (group n) u.

Definition get_name (n : SchedulerNode) : string := name (node n).


(** [bool(self.node.data.get_reduction_type())]: [None] and the empty
    string are false. *)
Definition is_reduction (n : SchedulerNode) : bool :=
  match get_reduction_type (data (node n)) with
  | None => false
  | Some rt => negb (String.eqb rt "")
  end.

(** A call received by the handler [ops] ([torchinductor.virtualized]): the
    arguments of [ops.store(name, index, value)] and of
    [ops.reduction(name, dtype, reduction_type, index, value)]. *)
Inductive OpCall :=
  | OpStore (name : string) (index value : Expr)
  | OpReduction (name dtype reduction_type : string) (index value : Expr).

Definition op_name (c : OpCall) : string :=
  match c with
  | OpStore n _ _ => n
  | OpReduction n _ _ _ _ => n
  end.

(** [UnrealizedBuffer.store_output]; a [Reduction] has no such method. *)
Definition store_output (self : TypedLoops) (output_name : string)
  (indexer : list Expr -> option Expr) (vars : list Expr) : option OpCall :=
  match self with
  | UnrealizedBuffer _ inner_fn _ _ =>
      index ← indexer vars;
      match inner_fn with
      | Fn1 f => Some (OpStore output_name index (f vars))
      | Fn2 _ => None
      end
  | Reduction _ _ _ _ _ _ => None
  end.

(** [Reduction.store_reduction]; an [UnrealizedBuffer] has no such method. *)
Definition store_reduction (self : TypedLoops) (output_name : string)
  (indexer : list Expr -> option Expr) (vars reduction_vars : list Expr)
  : option OpCall :=
  match self with
  | Reduction _ inner_fn _ dtype _ reduction_type =>
      index ← indexer vars;
      match inner_fn with
      | Fn2 f =>
          Some (OpReduction output_name dtype reduction_type index
                  (f vars reduction_vars))
      | Fn1 _ => None
      end
  | UnrealizedBuffer _ _ _ _ => None
  end.

(** The store a node emits when run on [vars], [reduction_vars]: the body
    of [SchedulerNode.run] between the counter and the pending set. *)
Definition emit (n : SchedulerNode) (vars reduction_vars : list Expr)
  : option OpCall :=
  let name := get_name n in
  let indexer := make_indexer (layout (node n)) in
  if is_reduction n then
    vars ← _reindex n vars;
    reduction_vars ← _reduction_reindex n reduction_vars;
    store_reduction (data (node n)) name indexer vars reduction_vars
  else
    vars ← _reindex n (vars ++ reduction_vars);
    store_output (data (node n)) name indexer vars.

(** [class BlockedNodes].  A [SchedulerNodeBox] is shared between the
    lists of both dictionaries, so the boxes are kept by identity: [boxes]
    holds the [value] of every box ever made ([None] once popped), and the
    dictionaries hold positions in it. *)
Record BlockedNodes := mkBlockedNodes {
  boxes : list (option nat);
  name_to_nodes : gmap string (list nat);
  dep_to_nodes : gmap Dep (list nat)
}.

(** The scheduler.  Every [SchedulerNode] object is kept by identity in
    [objects] (its identity is its position, the order of construction);
    the dictionaries and lists hold identities.  The two group counters are
    dictionaries whose first key is read, so they keep insertion order.
    [graph] is the registry the module imports and [emitted] the calls its
    nodes made to [ops]. *)
Record Scheduler := mkScheduler {
  objects : list SchedulerNode;
  blocked_nodes : BlockedNodes;
  runable_reduction_groups : list (Group * nat);
  runable_pointwise_groups : list (Group * nat);
  runable_nodes : gmap Group (list nat);
  run_count : nat;
  nodes : list nat;
  kernels : list nat;
  available_buffer_names : gset string;
  pending_buffer_names : gset string;
  fusable_deps : gset Dep;
  graph : GraphLowering;
  emitted : list OpCall
}.

Definition set_objects (x : list SchedulerNode) (s : Scheduler) : Scheduler :=
  mkScheduler x (blocked_nodes s) (runable_reduction_groups s)
    (runable_pointwise_groups s) (runable_nodes s) (run_count s) (nodes s)
    (kernels s) (available_buffer_names s) (pending_buffer_names s)
    (fusable_deps s) (graph s) (emitted s).

Definition set_blocked_nodes (x : BlockedNodes) (s : Scheduler) : Scheduler :=
  mkScheduler (objects s) x (runable_reduction_groups s)
    (runable_pointwise_groups s) (runable_nodes s) (run_count s) (nodes s)
    (kernels s) (available_buffer_names s) (pending_buffer_names s)
    (fusable_deps s) (graph s) (emitted s).

Definition set_runable_reduction_groups (x : list (Group * nat)) (s : Scheduler) : Scheduler :=
  mkScheduler (objects s) (blocked_nodes s) x (runable_pointwise_groups s)
    (runable_nodes s) (run_count s) (nodes s) (kernels s)
    (available_buffer_names s) (pending_buffer_names s) (fusable_deps s) (graph
    s) (emitted s).

Definition set_runable_pointwise_groups (x : list (Group * nat)) (s : Scheduler) : Scheduler :=
  mkScheduler (objects s) (blocked_nodes s) (runable_reduction_groups s) x
    (runable_nodes s) (run_count s) (nodes s) (kernels s)
    (available_buffer_names s) (pending_buffer_names s) (fusable_deps s) (graph
    s) (emitted s).

Definition set_runable_nodes (x : gmap Group (list nat)) (s : Scheduler) : Scheduler :=
  mkScheduler (objects s) (blocked_nodes s) (runable_reduction_groups s)
    (runable_pointwise_groups s) x (run_count s) (nodes s) (kernels s)
    (available_buffer_names s) (pending_buffer_names s) (fusable_deps s) (graph
    s) (emitted s).

Definition set_run_count (x : nat) (s : Scheduler) : Scheduler :=
  mkScheduler (objects s) (blocked_nodes s) (runable_reduction_groups s)
    (runable_pointwise_groups s) (runable_nodes s) x (nodes s) (kernels s)
    (available_buffer_names s) (pending_buffer_names s) (fusable_deps s) (graph
    s) (emitted s).

Definition set_nodes (x : list nat) (s : Scheduler) : Scheduler :=
  mkScheduler (objects s) (blocked_nodes s) (runable_reduction_groups s)
    (runable_pointwise_groups s) (runable_nodes s) (run_count s) x (kernels s)
    (available_buffer_names s) (pending_buffer_names s) (fusable_deps s) (graph
    s) (emitted s).

Definition set_kernels (x : list nat) (s : Scheduler) : Scheduler :=
  mkScheduler (objects s) (blocked_nodes s) (runable_reduction_groups s)
    (runable_pointwise_groups s) (runable_nodes s) (run_count s) (nodes s) x
    (available_buffer_names s) (pending_buffer_names s) (fusable_deps s) (graph
    s) (emitted s).

Definition set_available_buffer_names (x : gset string) (s : Scheduler) : Scheduler :=
  mkScheduler (objects s) (blocked_nodes s) (runable_reduction_groups s)
    (runable_pointwise_groups s) (runable_nodes s) (run_count s) (nodes s)
    (kernels s) x (pending_buffer_names s) (fusable_deps s) (graph s) (emitted
    s).

Definition set_pending_buffer_names (x : gset string) (s : Scheduler) : Scheduler :=
  mkScheduler (objects s) (blocked_nodes s) (runable_reduction_groups s)
    (runable_pointwise_groups s) (runable_nodes s) (run_count s) (nodes s)
    (kernels s) (available_buffer_names s) x (fusable_deps s) (graph s) (emitted
    s).

Definition set_fusable_deps (x : gset Dep) (s : Scheduler) : Scheduler :=
  mkScheduler (objects s) (blocked_nodes s) (runable_reduction_groups s)
    (runable_pointwise_groups s) (runable_nodes s) (run_count s) (nodes s)
    (kernels s) (available_buffer_names s) (pending_buffer_names s) x (graph s)
    (emitted s).

Definition set_graph (x : GraphLowering) (s : Scheduler) : Scheduler :=
  mkScheduler (objects s) (blocked_nodes s) (runable_reduction_groups s)
    (runable_pointwise_groups s) (runable_nodes s) (run_count s) (nodes s)
    (kernels s) (available_buffer_names s) (pending_buffer_names s)
    (fusable_deps s) x (emitted s).

Definition set_emitted (x : list OpCall) (s : Scheduler) : Scheduler :=
  mkScheduler (objects s) (blocked_nodes s) (runable_reduction_groups s)
    (runable_pointwise_groups s) (runable_nodes s) (run_count s) (nodes s)
    (kernels s) (available_buffer_names s) (pending_buffer_names s)
    (fusable_deps s) (graph s) x.

(** [for x in l: body] with an exception leaving the loop. *)
Fixpoint for_each {S A : Type} (body : A -> S -> option S) (l : list A) (s : S)
  : option S :=
  match l with
  | [] => Some s
  | x :: rest => s' ← body x s; for_each body rest s'
  end.

(** ** SchedulerNode *)

(** [prune_deps]. *)
Definition prune_deps (available : gset string) (n : SchedulerNode) : SchedulerNode :=
  set_unmet_dependencies
    (filter (fun dep => dep_name dep ∉ available) (unmet_dependencies n)) n.

(** [prune_deps] on the object [i] of the scheduler. *)
Definition prune_deps_at (i : nat) (s : Scheduler) : option Scheduler :=
  n ← objects s !! i;
  Some (set_objects (<[i := prune_deps (available_buffer_names s) n]> (objects s)) s).

(** [mark_fusable]. *)
Definition mark_fusable (i : nat) (s : Scheduler) : option Scheduler :=
  n ← objects s !! i;
  Some (set_fusable_deps (fusable_deps s ∪ writes (read_writes n)) s).

(** [run]. *)
Definition run (i : nat) (vars reduction_vars : list Expr) (s : Scheduler)
  : option Scheduler :=
  n ← objects s !! i;
  let s1 := set_run_count (S (run_count s)) s in
  call ← emit n vars reduction_vars;
  let s2 := set_emitted (emitted s1 ++ [call]) s1 in
  Some (set_pending_buffer_names (pending_buffer_names s2 ∪ {[ get_name n ]}) s2).

(** The [unmet_dependencies] and [is_reduction()] of a consumer. *)
Definition user_unmet_dependencies (s : Scheduler) (u : User) : option (gset Dep) :=
  match u with
  | UOutputNode unmet => Some unmet
  | UNode id => unmet_dependencies <$> objects s !! id
  end.

Definition user_is_reduction (s : Scheduler) (u : User) : option bool :=
  match u with
  | UOutputNode _ => Some false
  | UNode id => is_reduction <$> objects s !! id
  end.

(** [can_remove_buffer]; [len(None)] raises. *)
Definition can_remove_buffer (s : Scheduler) (n : SchedulerNode) : option bool :=
  if is_reduction n then
    us ← users n;
    if decide (length us = 1%nat) then
      user ← us !! 0%nat;
      unmet ← user_unmet_dependencies s user;
      if decide (size unmet = 1%nat) then
        dep ← head (elements unmet);
        user_red ← user_is_reduction s user;
        Some (negb user_red && bool_decide (dep ∈ writes (read_writes n)))
      else Some false
    else Some false
  else Some false.

(** ** BlockedNodes *)

(** [BlockedNodes.add]: one fresh box, filed under every unmet dependency
    of the node, by name and by value. *)
Definition blocked_add_dep (box : nat) (dep : Dep) (bn : BlockedNodes) : BlockedNodes :=
  mkBlockedNodes (boxes bn)
    (<[dep_name dep := default [] (name_to_nodes bn !! dep_name dep) ++ [box]]>
       (name_to_nodes bn))
    (<[dep := default [] (dep_to_nodes bn !! dep) ++ [box]]> (dep_to_nodes bn)).

Definition blocked_add (i : nat) (n : SchedulerNode) (bn : BlockedNodes) : BlockedNodes :=
  let box := length (boxes bn) in
  foldl (fun bn dep => blocked_add_dep box dep bn)
    (mkBlockedNodes (boxes bn ++ [Some i]) (name_to_nodes bn) (dep_to_nodes bn))
    (elements (unmet_dependencies n)).

(** [SchedulerNodeBox.pop] on the box at [box]. *)
Definition box_pop (box : nat) (bn : BlockedNodes) : BlockedNodes :=
  mkBlockedNodes (<[box := None]> (boxes bn)) (name_to_nodes bn) (dep_to_nodes bn).

(** [x.pop() for x in ... if x] on one box. *)
Definition pop_if_live (box : nat) (st : list nat * BlockedNodes)
  : list nat * BlockedNodes :=
  match boxes st.2 !! box with
  | Some (Some i) => (st.1 ++ [i], box_pop box st.2)
  | _ => st
  end.

(** [BlockedNodes.pop_name]. *)
Definition pop_name (name : string) (bn : BlockedNodes) : list nat * BlockedNodes :=
  let waiting := default [] (name_to_nodes bn !! name) in
  foldl (fun st box => pop_if_live box st)
    ([], mkBlockedNodes (boxes bn) (delete name (name_to_nodes bn)) (dep_to_nodes bn))
    waiting.

(** [bool(box)]. *)
Definition box_live (bn : BlockedNodes) (box : nat) : bool :=
  match boxes bn !! box with
  | Some (Some _) => true
  | _ => false
  end.

(** The inner loop of [pop_fusable] on one box; [box.peek()] of a popped
    box is [None], whose attribute access raises.  [objs] are the
    scheduler's node objects. *)
Definition pop_fusable_box (objs : list SchedulerNode) (deps : gset Dep)
  (grp : Group) (box : nat) (st : list nat * BlockedNodes)
  : option (list nat * BlockedNodes) :=
  match boxes st.2 !! box with
  | Some (Some i) =>
      n ← objs !! i;
      if bool_decide (size (unmet_dependencies n ∖ deps) = 0%nat)
         && bool_decide (group n = grp)
      then Some (st.1 ++ [i], box_pop box st.2)
      else Some st
  | _ => None
  end.

Definition pop_fusable_dep (objs : list SchedulerNode) (deps : gset Dep)
  (grp : Group) (dep : Dep) (st : list nat * BlockedNodes)
  : option (list nat * BlockedNodes) :=
  let live := List.filter (box_live st.2) (default [] (dep_to_nodes st.2 !! dep)) in
  let bn1 :=
    mkBlockedNodes (boxes st.2) (name_to_nodes st.2)
      (<[dep := live]> (dep_to_nodes st.2)) in
  for_each (pop_fusable_box objs deps grp) live (st.1, bn1).

(** [BlockedNodes.pop_fusable]. *)
Definition pop_fusable (objs : list SchedulerNode) (deps : gset Dep) (grp : Group)
  (bn : BlockedNodes) : option (list nat * BlockedNodes) :=
  for_each (pop_fusable_dep objs deps grp) (elements deps) ([], bn).

(** ** Scheduler *)

(** A [defaultdict(int)] read for its keys in insertion order. *)
Fixpoint counter_incr (g : Group) (d : list (Group * nat)) : list (Group * nat) :=
  match d with
  | [] => [(g, 1%nat)]
  | (k, c) :: rest =>
      if decide (k = g) then (k, S c) :: rest else (k, c) :: counter_incr g rest
  end.

Definition counter_pop (g : Group) (d : list (Group * nat)) : list (Group * nat) :=
  filter (fun p => p.1 ≠ g) d.

(** [enqueue] of one node. *)
Definition enqueue_node (i : nat) (s : Scheduler) : option Scheduler :=
  n ← objects s !! i;
  if bool_decide (unmet_dependencies n ≠ ∅) then
    Some (set_blocked_nodes (blocked_add i n (blocked_nodes s)) s)
  else
    let s1 :=
      set_runable_nodes
        (<[group n := default [] (runable_nodes s !! group n) ++ [i]]>
           (runable_nodes s)) s in
    if is_reduction n then
      Some (set_runable_reduction_groups
              (counter_incr (group n) (runable_reduction_groups s1)) s1)
    else
      Some (set_runable_pointwise_groups
              (counter_incr (group n) (runable_pointwise_groups s1)) s1).

(** [enqueue] of a list of nodes. *)
Definition enqueue (l : list nat) (s : Scheduler) : option Scheduler :=
  for_each enqueue_node l s.

(** [name_to_users] of [compute_users]: a [defaultdict(list)] whose entry
    is overwritten by [None] once the producer of the name is met. *)
Definition users_of (name_to_users : gmap string (option (list User)))
  (name : string) : option (list User) :=
  default (Some []) (name_to_users !! name).

(** [name_to_users[name].append(u)]; [None.append] raises. *)
Definition users_append (name : string) (u : User)
  (name_to_users : gmap string (option (list User)))
  : option (gmap string (option (list User))) :=
  l ← users_of name_to_users name;
  Some (<[name := Some (l ++ [u])]> name_to_users).

(** The body of the loop over [reversed(self.nodes)]. *)
Definition compute_users_node (i : nat)
  (st : list SchedulerNode * gmap string (option (list User)))
  : option (list SchedulerNode * gmap string (option (list User))) :=
  n ← st.1 !! i;
  let objs := <[i := set_users (users_of st.2 (get_name n)) n]> st.1 in
  let ntu := <[get_name n := None]> st.2 in
  ntu' ← for_each (fun read => users_append (dep_name read) (UNode i))
           (elements (reads (read_writes n))) ntu;
  Some (objs, ntu').

(** [if node.users]: [None] and the empty list are false. *)
Definition has_users (n : SchedulerNode) : bool :=
  match users n with
  | Some (_ :: _) => true
  | _ => false
  end.

(** The last loop of [compute_users]. *)
Definition sweep_node (i : nat) (s : Scheduler) : option Scheduler :=
  n ← objects s !! i;
  if has_users n then Some (set_nodes (nodes s ++ [i]) s)
  else
    Some (set_graph
            (mkGraph (buffers (graph s)) (graph_inputs (graph s))
               (graph_outputs (graph s))
               (removed_buffers (graph s) ∪ {[ get_name n ]})) s).

(** [compute_users]. *)
Definition compute_users (s : Scheduler) : option Scheduler :=
  ntu0 ← for_each (fun name => users_append name (new_OutputNode (StarDep name)))
           (graph_outputs (graph s)) ∅;
  st ← for_each compute_users_node (reverse (nodes s)) (objects s, ntu0);
  let s1 := set_objects st.1 s in
  for_each sweep_node (nodes s) (set_nodes [] s1).

(** [maybe_remove_buffer]. *)
Definition maybe_remove_buffer (i : nat) (s : Scheduler) : option Scheduler :=
  n ← objects s !! i;
  b ← can_remove_buffer s n;
  if (b : bool) then
    Some (set_graph
            (mkGraph (buffers (graph s)) (graph_inputs (graph s))
               (graph_outputs (graph s))
               (removed_buffers (graph s) ∪ {[ get_name n ]})) s)
  else Some s.

(** The loop body of [barrier] for one pending name. *)
Definition barrier_name (name : string) (st : list nat * Scheduler)
  : option (list nat * Scheduler) :=
  let '(popped, bn) := pop_name name (blocked_nodes st.2) in
  s2 ← for_each prune_deps_at popped (set_blocked_nodes bn st.2);
  Some (st.1 ++ popped, s2).

(** [barrier]. *)
Definition barrier (s : Scheduler) : option Scheduler :=
  let s1 :=
    set_available_buffer_names
      (available_buffer_names s ∪ pending_buffer_names s) s in
  st ← for_each barrier_name (elements (pending_buffer_names s1)) ([], s1);
  let nodes_to_add := st.1 in
  let s3 := set_pending_buffer_names ∅ st.2 in
  enqueue nodes_to_add s3.

(** [kernel]: what it does to the scheduler before the context manager is
    entered. *)
Definition kernel (k : nat) (s : Scheduler) : Scheduler :=
  let s1 := set_fusable_deps ∅ s in
  set_kernels (kernels s1 ++ [k]) s1.

(** [pop_group], driven by a [for node in scheduler.pop_group(group)] loop
    whose body is [body]: the state after the generator is exhausted.  The
    two [while] loops take fuel. *)
Definition pop_runable (grp : Group) (s : Scheduler) : Scheduler :=
  let s1 :=
    set_runable_reduction_groups (counter_pop grp (runable_reduction_groups s)) s in
  let s2 :=
    set_runable_pointwise_groups (counter_pop grp (runable_pointwise_groups s1)) s1 in
  set_runable_nodes (delete grp (runable_nodes s2)) s2.

Fixpoint pop_group_runable (fuel : nat) (body : nat -> Scheduler -> option Scheduler)
  (grp : Group) (s : Scheduler) : option Scheduler :=
  match fuel with
  | O => None
  | S fuel' =>
      match runable_nodes s !! grp with
      | None => Some s
      | Some popped =>
          s' ← for_each body popped (pop_runable grp s);
          pop_group_runable fuel' body grp s'
      end
  end.

(** [self.blocked_nodes.pop_fusable(self.fusable_deps, group)]. *)
Definition pop_fusable_now (grp : Group) (s : Scheduler)
  : option (list nat * Scheduler) :=
  st ← pop_fusable (objects s) (fusable_deps s) grp (blocked_nodes s);
  Some (st.1, set_blocked_nodes st.2 s).

Fixpoint pop_group_fusable (fuel : nat) (body : nat -> Scheduler -> option Scheduler)
  (grp : Group) (s : Scheduler) : option Scheduler :=
  match fuel with
  | O => None
  | S fuel' =>
      st ← pop_fusable_now grp s;
      let fusable := st.1 in
      s2 ← for_each body fusable st.2;
      match fusable with
      | [] => Some s2
      | _ :: _ => pop_group_fusable fuel' body grp s2
      end
  end.

Definition pop_group (fuel : nat) (body : nat -> Scheduler -> option Scheduler)
  (grp : Group) (s : Scheduler) : option Scheduler :=
  s1 ← pop_group_runable fuel body grp s;
  if bool_decide (fusable_deps s1 ≠ ∅) then pop_group_fusable fuel body grp s1
  else Some s1.

(** [iter_runable_groups], driven by a
    [for group in scheduler.iter_runable_groups()] loop whose body is
    [body]: the state after the generator's two final assertions. *)
Fixpoint iter_runable_groups (fuel : nat)
  (body : Group -> Scheduler -> option Scheduler) (s : Scheduler)
  : option Scheduler :=
  match fuel with
  | O => None
  | S fuel' =>
      match runable_reduction_groups s, runable_pointwise_groups s with
      | [], [] =>
          if bool_decide (runable_nodes s = ∅)
             && bool_decide (length (nodes s) = run_count s)
          then Some s else None
      | (grp, _) :: _, _ => s' ← body grp s; iter_runable_groups fuel' body s'
      | [], (grp, _) :: _ => s' ← body grp s; iter_runable_groups fuel' body s'
      end
  end.

Section Construction.

(** What the constructors call and the sources do not contain: the
    caller's [group_fn], and the analysis behind
    [ComputedBuffer.get_read_writes] ([extract_read_writes]). *)
Variable group_fn : list Expr -> list Expr.
Variable get_read_writes : ComputedBuffer -> ReadWrites.

(** [SchedulerNode.__init__]; [available] is
    [scheduler.available_buffer_names]. *)
Definition new_SchedulerNode (available : gset string) (nd : ComputedBuffer)
  : SchedulerNode :=
  let rw := get_read_writes nd in
  let '(size, reindex) := squeezer (get_size (data nd)) in
  let '(rsize, rreindex) := squeezer (get_reduction_size (data nd)) in
  prune_deps available
    (mkSchedulerNode nd rw (reads rw) size reindex rsize rreindex
       (group_fn size, group_fn rsize) None).

(** [Scheduler.__init__(group_fn, nodes)] with the registry [g]. *)
Definition new_Scheduler (g : GraphLowering) (nds : list ComputedBuffer)
  : option Scheduler :=
  let available := dom (graph_inputs g) in
  let s0 :=
    mkScheduler (new_SchedulerNode available <$> nds)
      (mkBlockedNodes [] ∅ ∅) [] [] ∅ 0%nat
      (seq 0 (length nds)) [] available ∅ ∅ g [] in
  s1 ← compute_users s0;
  enqueue (nodes s1) s1.

End Construction.

(** ** The loop that drives the scheduler *)

(** Modelled from the spec: the backend loop that consumes the scheduler,
    not part of the sources.  The spec prescribes: group iteration yields
    one outstanding group key at a time; group draining yields the nodes
    of that key, each of which is run; "a node may explicitly publish its
    writes into a shared fusable set"; "opening a kernel clears the
    current fusable-dependency set"; the barrier promotes "every name run
    since the last barrier".  What the spec leaves to the backend is a
    parameter: the index variables of a group, on which its nodes are run,
    which nodes publish their writes, and whether a kernel is opened for a
    group. *)
Record Driver := mkDriver {
  vars_of : Group -> list Expr * list Expr;
  publishes : SchedulerNode -> bool;
  opens_kernel : Group -> option nat
}.

(** The body of [for node in scheduler.pop_group(group)]. *)
Definition run_node (drv : Driver) (grp : Group) (i : nat) (s : Scheduler)
  : option Scheduler :=
  n ← objects s !! i;
  s1 ← run i (vars_of drv grp).1 (vars_of drv grp).2 s;
  if publishes drv n then mark_fusable i s1 else Some s1.

(** The body of [for group in scheduler.iter_runable_groups()]. *)
Definition codegen_group (drv : Driver) (fuel : nat) (grp : Group) (s : Scheduler)
  : option Scheduler :=
  let s1 :=
    match opens_kernel drv grp with
    | Some k => kernel k s
    | None => s
    end in
  s2 ← pop_group fuel (run_node drv grp) grp s1;
  barrier s2.

Definition schedule (drv : Driver) (fuel : nat) (s : Scheduler) : option Scheduler :=
  iter_runable_groups fuel (codegen_group drv fuel) s.

(** ** The scheduler's operations, one at a time *)

(** What a client can make the scheduler do between two of its own steps:
    the methods, and the two steps at which the generator [pop_group]
    takes nodes out ([self.runable_nodes.pop(group)] with the counters, and
    [self.blocked_nodes.pop_fusable(self.fusable_deps, group)]). *)
Inductive Op :=
  | OpRun (i : nat) (vars reduction_vars : list Expr)
  | OpMarkFusable (i : nat)
  | OpMaybeRemoveBuffer (i : nat)
  | OpKernel (k : nat)
  | OpPopRunable (grp : Group)
  | OpPopFusable (grp : Group)
  | OpBarrier.

Definition exec (op : Op) (s : Scheduler) : option Scheduler :=
  match op with
  | OpRun i vars reduction_vars => run i vars reduction_vars s
  | OpMarkFusable i => mark_fusable i s
  | OpMaybeRemoveBuffer i => maybe_remove_buffer i s
  | OpKernel k => Some (kernel k s)
  | OpPopRunable grp =>
      match runable_nodes s !! grp with
      | None => Some s
      | Some _ => Some (pop_runable grp s)
      end
  | OpPopFusable grp => snd <$> pop_fusable_now grp s
  | OpBarrier => barrier s
  end.

Definition exec_all (ops : list Op) (s : Scheduler) : option Scheduler :=
  for_each exec ops s.

End Sched.

(* ===================================================================== *)
(** * torchdynamo/codegen.py *)
(* ===================================================================== *)

Module Codegen.

(** Python values that reach the constant table.  [VObj] is an object that
    [==] compares by identity (a function such as the rotation helper, a
    module); its first field is its class. *)
Inductive PyVal :=
  | VNone
  | VBool (b : bool)
  | VInt (z : Z)
  | VFloat (f : float)
  | VStr (s : string)
  | VObj (cls : string) (id : nat).

(** [type(v) is type(value)]. *)
Definition type_is (v value : PyVal) : bool :=
  match v, value with
  | VNone, VNone | VBool _, VBool _ | VInt _, VInt _
  | VFloat _, VFloat _ | VStr _, VStr _ => true
  | VObj c1 _, VObj c2 _ => String.eqb c1 c2
  | _, _ => false
  end.

(** [v == value] between two values of one type; on floats it is the
    IEEE 754 comparison, as in Python. *)
Definition py_eq (v value : PyVal) : bool :=
  match v, value with
  | VNone, VNone => true
  | VBool a, VBool b => Bool.eqb a b
  | VInt a, VInt b => Z.eqb a b
  | VFloat a, VFloat b => PrimFloat.eqb a b
  | VStr a, VStr b => String.eqb a b
  | VObj _ a, VObj _ b => Nat.eqb a b
  | _, _ => false
  end.

(** The [arg] field of an instruction: absent, a number (an index into a
    table or an immediate), or, as [create_load_attr] passes it, a tuple of
    names. *)
Inductive InstArg :=
  | ANone
  | AInt (n : Z)
  | ANames (names : list string).

(** The [argval] field: a variable or attribute name, or a constant. *)
Inductive ArgVal :=
  | ArgName (s : string)
  | ArgConst (v : PyVal).

Record Instruction := mkInstruction {
  opname : string;
  arg : InstArg;
  argval : option ArgVal
}.

(** Modelled from the spec: [create_instruction] of
    [torchdynamo.bytecode_transformation], which is not part of the sources:
    "Each instruction is the triple (opcode name, resolved numeric argument,
    optional debug literal)." *)
Definition create_instruction (name : string) (arg : InstArg)
  (argval : option ArgVal) : Instruction :=
  mkInstruction name arg argval.

(** [self.code_options]: the tables of the code object (Python tuples). *)
Record CodeOptions := mkCodeOptions {
  co_varnames : list string;
  co_consts : list PyVal;
  co_names : list string
}.

(** A [Source] is opaque to the emitter; it is known by its identity. *)
Definition Source := nat.

Inductive VariableKind :=
  | TensorVariable
  | NNModuleVariable (module_key : string)
  | OtherVariable.

(** What the emitter reads of a [VariableTracker]: its identity ([is], and
    the hash of the dictionaries keyed by it), guards, source, its Python
    constant when [is_python_constant()] holds, and its class. *)
Record VariableTracker := mkVariableTracker {
  vt_id : nat;
  vt_guards : gset nat;
  vt_source : option Source;
  vt_constant : option PyVal;
  vt_kind : VariableKind
}.

(** The argument of [__call__]. *)
Inductive Loadable :=
  | LSource (s : Source)
  | LValue (v : VariableTracker)
  | LOther.

(** The emitter, with the fields of the translator [tx] it reads and writes
    ([tx.guards], [tx.cell_and_freevars()], the shared [code_options]). *)
Record PyCodegen := mkPyCodegen {
  top_of_stack : option nat;
  uses : gmap nat nat;
  graph_outputs : list (nat * nat);
  _output : list Instruction;
  tempvars : gmap nat (option string);
  root : PyVal;
  graph_output_var : string;
  code_options : CodeOptions;
  cell_and_freevars : list string;
  tx_guards : gset nat
}.

Definition set_top_of_stack (t : option nat) (cg : PyCodegen) : PyCodegen :=
  mkPyCodegen t (uses cg) (graph_outputs cg) (_output cg) (tempvars cg)
    (root cg) (graph_output_var cg) (code_options cg) (cell_and_freevars cg)
    (tx_guards cg).

Definition set_uses (u : gmap nat nat) (cg : PyCodegen) : PyCodegen :=
  mkPyCodegen (top_of_stack cg) u (graph_outputs cg) (_output cg) (tempvars cg)
    (root cg) (graph_output_var cg) (code_options cg) (cell_and_freevars cg)
    (tx_guards cg).

Definition set_graph_outputs (go : list (nat * nat)) (cg : PyCodegen) : PyCodegen :=
  mkPyCodegen (top_of_stack cg) (uses cg) go (_output cg) (tempvars cg)
    (root cg) (graph_output_var cg) (code_options cg) (cell_and_freevars cg)
    (tx_guards cg).

Definition set_output (o : list Instruction) (cg : PyCodegen) : PyCodegen :=
  mkPyCodegen (top_of_stack cg) (uses cg) (graph_outputs cg) o (tempvars cg)
    (root cg) (graph_output_var cg) (code_options cg) (cell_and_freevars cg)
    (tx_guards cg).

Definition set_tempvars (t : gmap nat (option string)) (cg : PyCodegen) : PyCodegen :=
  mkPyCodegen (top_of_stack cg) (uses cg) (graph_outputs cg) (_output cg) t
    (root cg) (graph_output_var cg) (code_options cg) (cell_and_freevars cg)
    (tx_guards cg).

Definition set_code_options (c : CodeOptions) (cg : PyCodegen) : PyCodegen :=
  mkPyCodegen (top_of_stack cg) (uses cg) (graph_outputs cg) (_output cg)
    (tempvars cg) (root cg) (graph_output_var cg) c (cell_and_freevars cg)
    (tx_guards cg).

Definition set_tx_guards (gs : gset nat) (cg : PyCodegen) : PyCodegen :=
  mkPyCodegen (top_of_stack cg) (uses cg) (graph_outputs cg) (_output cg)
    (tempvars cg) (root cg) (graph_output_var cg) (code_options cg)
    (cell_and_freevars cg) gs.

(** [output.append(inst)] and [output.extend(insts)] on [self._output]. *)
Definition output_append (inst : Instruction) (cg : PyCodegen) : PyCodegen :=
  set_output (_output cg ++ [inst]) cg.

Definition output_extend (insts : list Instruction) (cg : PyCodegen) : PyCodegen :=
  set_output (_output cg ++ insts) cg.

(** [tuple.index(x)]: the first position of [x]. *)
Fixpoint tuple_index (x : string) (t : list string) : option nat :=
  match t with
  | [] => None
  | y :: rest => if String.eqb y x then Some O else S <$> tuple_index x rest
  end.

(** [x in t] on a tuple of names. *)
Definition tuple_in (x : string) (t : list string) : bool :=
  bool_decide (x ∈ t).

(** [s.split(".")]. *)
Fixpoint split_dot (s : string) : list string :=
  match s with
  | EmptyString => [EmptyString]
  | String c rest =>
      if Ascii.eqb c "."%char then EmptyString :: split_dot rest
      else match split_dot rest with
           | [] => [String c EmptyString]
           | hd :: tl => String c hd :: tl
           end
  end.

(** The scan of [_create_load_const]: the first index whose entry has the
    type of [value] and is [==] to it. *)
Fixpoint scan_consts (i : nat) (co_consts : list PyVal) (value : PyVal)
  : option nat :=
  match co_consts with
  | [] => None
  | v :: rest =>
      if type_is v value && py_eq v value then Some i
      else scan_consts (S i) rest value
  end.

Definition clear_tos (cg : PyCodegen) : PyCodegen := set_top_of_stack None cg.



Definition get_instructions (cg : PyCodegen) : list Instruction := _output cg.

Definition create_load (name : string) (cg : PyCodegen) : option Instruction :=
  if tuple_in name (cell_and_freevars cg) then
    i ← tuple_index name (cell_and_freevars cg);
    Some (create_instruction "LOAD_DEREF" (AInt (Z.of_nat i)) (Some (ArgName name)))
  else
    i ← tuple_index name (co_varnames (code_options cg));
    Some (create_instruction "LOAD_FAST" (AInt (Z.of_nat i)) (Some (ArgName name))).


Definition create_store (name : string) (cg : PyCodegen) : option Instruction :=
  if tuple_in name (cell_and_freevars cg) then
    i ← tuple_index name (cell_and_freevars cg);
    Some (create_instruction "STORE_DEREF" (AInt (Z.of_nat i)) (Some (ArgName name)))
  else
    i ← tuple_index name (co_varnames (code_options cg));
    Some (create_instruction "STORE_FAST" (AInt (Z.of_nat i)) (Some (ArgName name))).

(** [_create_load_const]: the instruction and the emitter after the call. *)
Definition _create_load_const (value : PyVal) (cg : PyCodegen)
  : Instruction * PyCodegen :=
  let consts := co_consts (code_options cg) in
  match scan_consts 0 consts value with
  | Some index =>
      (create_instruction "LOAD_CONST" (AInt (Z.of_nat index)) (Some (ArgConst value)),
       cg)
  | None =>
      let index := length consts in
      (create_instruction "LOAD_CONST" (AInt (Z.of_nat index)) (Some (ArgConst value)),
       set_code_options
         (mkCodeOptions (co_varnames (code_options cg)) (consts ++ [value])
            (co_names (code_options cg))) cg)
  end.

Definition create_load_output := _create_load_const.

(** [create_load_attr]: the instruction's [arg] is the name table itself. *)
Definition create_load_attr (name : string) (cg : PyCodegen)
  : Instruction * PyCodegen :=
  let cg' :=
    if tuple_in name (co_names (code_options cg)) then cg
    else set_code_options
           (mkCodeOptions (co_varnames (code_options cg))
              (co_consts (code_options cg))
              (co_names (code_options cg) ++ [name])) cg in
  (create_instruction "LOAD_ATTR" (ANames (co_names (code_options cg')))
     (Some (ArgName name)), cg').

(** The list comprehension of [create_load_attrs], left to right. *)
Fixpoint create_load_attr_each (parts : list string) (cg : PyCodegen)
  : list Instruction * PyCodegen :=
  match parts with
  | [] => ([], cg)
  | part :: rest =>
      let '(i, cg1) := create_load_attr part cg in
      let '(is_, cg2) := create_load_attr_each rest cg1 in
      (i :: is_, cg2)
  end.

Definition create_load_attrs (names : string) (cg : PyCodegen)
  : list Instruction * PyCodegen :=
  create_load_attr_each (split_dot names) cg.

Section Emitter.

(** What the emitter calls and the sources do not contain:
    [torchdynamo.utils.is_safe_constant] and [rot_n_helper],
    [sys.version_info] (major, minor), [tx.new_var], and the [reconstruct]
    methods of sources and of variable trackers, which receive the emitter
    and may use it. *)
Variable is_safe_constant : PyVal -> bool.
Variable rot_n_helper : Z -> PyVal.
Variable version_info : Z * Z.
Variable new_var : PyCodegen -> string * PyCodegen.
Variable source_reconstruct :
  Source -> PyCodegen -> option (list Instruction * PyCodegen).
Variable value_reconstruct :
  VariableTracker -> PyCodegen -> option (list Instruction * PyCodegen).

(** [sys.version_info >= (3, 8)]. *)
Definition version_at_least_3_8 : bool :=
  (3 <? version_info.1) || ((version_info.1 =? 3) && (8 <=? version_info.2)).

Definition create_load_const (value : PyVal) (cg : PyCodegen)
  : option (Instruction * PyCodegen) :=
  if is_safe_constant value then Some (_create_load_const value cg) else None.

Definition rot_n (n : Z) (cg : PyCodegen) : list Instruction * PyCodegen :=
  if (n =? 0) || (n =? 1) then ([], cg)
  else if n =? 2 then ([create_instruction "ROT_TWO" ANone None], cg)
  else if n =? 3 then ([create_instruction "ROT_THREE" ANone None], cg)
  else if (n =? 4) && version_at_least_3_8 then
    ([create_instruction "ROT_FOUR" ANone None], cg)
  else
    let '(load_helper, cg') := _create_load_const (rot_n_helper n) cg in
    ([create_instruction "BUILD_TUPLE" (AInt n) None;
      load_helper;
      create_instruction "ROT_TWO" ANone None;
      create_instruction "CALL_FUNCTION_EX" (AInt 0) None;
      create_instruction "UNPACK_SEQUENCE" (AInt n) None], cg').

(** [add_cache]. *)
Definition add_cache (value : VariableTracker) (cg : PyCodegen) : option PyCodegen :=
  let '(var, cg1) := new_var cg in
  let cg2 := set_tempvars (<[vt_id value := Some var]> (tempvars cg1)) cg1 in
  store ← create_store var cg2;
  Some (output_extend [create_instruction "DUP_TOP" ANone None; store] cg2).

(** The slot of a tensor in [graph_outputs]. *)
Definition graph_output_index (go : list (nat * nat)) (id : nat) : option nat :=
  snd <$> List.find (fun p => Nat.eqb p.1 id) go.

(** The chain of [__call__] after the guards are merged: one branch per
    kind of value.  [for part in parts] of the module branch is
    [load_attr_parts]. *)
Fixpoint load_attr_parts (parts : list string) (cg : PyCodegen) : PyCodegen :=
  match parts with
  | [] => cg
  | part :: rest =>
      let '(inst, cg1) := create_load_attr part cg in
      load_attr_parts rest (output_append inst cg1)
  end.

Definition reconstruct_value (value : VariableTracker) (allow_cache : bool)
  (cg : PyCodegen) : option PyCodegen :=
  match vt_source value with
  | Some src =>
      '(insts, cg1) ← source_reconstruct src cg;
      Some (output_extend insts cg1)
  | None =>
      match (c ← vt_constant value; if is_safe_constant c then Some c else None) with
      | Some c =>
          '(load, cg1) ← create_load_const c cg;
          Some (output_append load cg1)
      | None =>
          match vt_kind value with
          | TensorVariable =>
              let go :=
                match graph_output_index (graph_outputs cg) (vt_id value) with
                | Some _ => graph_outputs cg
                | None =>
                    graph_outputs cg ++ [(vt_id value, length (graph_outputs cg))]
                end in
              let cg1 := set_graph_outputs go cg in
              load ← create_load (graph_output_var cg1) cg1;
              let cg2 := output_append load cg1 in
              slot ← graph_output_index go (vt_id value);
              let '(load_slot, cg3) := _create_load_const (VInt (Z.of_nat slot)) cg2 in
              let cg4 := output_append load_slot cg3 in
              Some (output_append (create_instruction "BINARY_SUBSCR" ANone None) cg4)
          | NNModuleVariable module_key =>
              let parts := split_dot module_key in
              first ← head parts;
              if tuple_in first (co_varnames (code_options cg)) then
                load ← create_load first cg;
                Some (load_attr_parts (tail parts) (output_append load cg))
              else
                let '(load, cg1) := create_load_output (root cg) cg in
                Some (load_attr_parts parts (output_append load cg1))
          | OtherVariable =>
              let cg1 :=
                set_uses (<[vt_id value := S (default O (uses cg !! vt_id value))]> (uses cg))
                  cg in
              '(insts, cg2) ← value_reconstruct value cg1;
              let cg3 := output_extend insts cg2 in
              if allow_cache && bool_decide (is_Some (tempvars cg3 !! vt_id value))
              then add_cache value cg3
              else Some cg3
          end
      end
  end.

(** [PyCodegen.__call__(value, allow_cache)]. *)
Definition call (value : Loadable) (allow_cache : bool) (cg : PyCodegen)
  : option PyCodegen :=
  match value with
  | LSource s =>
      '(insts, cg1) ← source_reconstruct s cg;
      Some (clear_tos (output_extend insts cg1))
  | LOther => None
  | LValue value =>
      if bool_decide (top_of_stack cg = Some (vt_id value)) then
        Some (output_append (create_instruction "DUP_TOP" ANone None) cg)
      else
        match (if allow_cache then tempvars cg !! vt_id value else None) with
        | Some (Some var) =>
            load ← create_load var cg;
            Some (output_append load cg)
        | _ =>
            let cg1 := set_tx_guards (tx_guards cg ∪ vt_guards value) cg in
            cg2 ← reconstruct_value value allow_cache cg1;
            Some (set_top_of_stack (Some (vt_id value)) cg2)
        end
  end.

(** [foreach]. *)
Fixpoint foreach (items : list Loadable) (cg : PyCodegen) : option PyCodegen :=
  match items with
  | [] => Some cg
  | i :: rest => cg1 ← call i true cg; foreach rest cg1
  end.

(** Modelled from the spec: [tx.update_co_names], not part of the sources:
    "optionally register the name in the global-name table first". *)
Definition update_co_names (name : string) (cg : PyCodegen) : PyCodegen :=
  if tuple_in name (co_names (code_options cg)) then cg
  else set_code_options
         (mkCodeOptions (co_varnames (code_options cg))
            (co_consts (code_options cg))
            (co_names (code_options cg) ++ [name])) cg.

(** [create_load_global]: the sibling of [create_load_attr] on the same
    name table. *)
Definition create_load_global (name : string) (add : bool) (cg : PyCodegen)
  : option (Instruction * PyCodegen) :=
  let cg1 := if add then update_co_names name cg else cg in
  i ← tuple_index name (co_names (code_options cg1));
  Some (create_instruction "LOAD_GLOBAL" (AInt (Z.of_nat i)) (Some (ArgName name)),
        cg1).


(** ** Facts about the tables *)

Lemma type_is_refl v : type_is v v = true.
Proof. destruct v; simpl; try done. apply String.eqb_refl. Qed.

Lemma scan_consts_Some i consts value k :
  scan_consts i consts value = Some k ->
  exists j v, k = (i + j)%nat /\ consts !! j = Some v
    /\ type_is v value = true /\ py_eq v value = true
    /\ forall j' v', (j' < j)%nat -> consts !! j' = Some v' ->
         type_is v' value && py_eq v' value = false.
Proof.
  revert i. induction consts as [|v consts IH]; intros i; simpl; [done|].
  destruct (type_is v value && py_eq v value) eqn:E.
  - intros [= <-]. exists O, v. apply andb_true_iff in E as [? ?].
    split_and!; try done; try lia.
  - intros H. destruct (IH _ H) as (j & w & -> & Hj & Ht & He & Hmin).
    exists (S j), w. split_and!; try done; try lia.
    intros [|j'] v' Hlt; simpl; [by intros [= <-]|].
    intros Hv'. apply (Hmin j'); [lia|done].
Qed.

Lemma scan_consts_None i consts value :
  scan_consts i consts value = None <->
  forall v, v ∈ consts -> type_is v value && py_eq v value = false.
Proof.
  revert i. induction consts as [|v consts IH]; intros i; simpl.
  - split; [|done]. intros _ v Hv. by apply elem_of_nil in Hv.
  - destruct (type_is v value && py_eq v value) eqn:E.
    + split; [done|]. intros H. rewrite (H v) in E; [done|by left].
    + rewrite IH. split.
      * intros H w Hw. apply elem_of_cons in Hw as [->|Hw]; auto.
      * intros H w Hw. apply H. by right.
Qed.

Lemma scan_consts_app_self i consts value :
  scan_consts i consts value = None ->
  py_eq value value = true ->
  scan_consts i (consts ++ [value]) value = Some (i + length consts)%nat.
Proof.
  revert i. induction consts as [|v consts IH]; intros i; simpl.
  - intros _ He. rewrite type_is_refl, He. simpl. f_equal. lia.
  - destruct (type_is v value && py_eq v value); [done|].
    intros H He. rewrite IH by done. f_equal. lia.
Qed.

Lemma scan_consts_app_nan i consts value :
  scan_consts i consts value = None ->
  py_eq value value = false ->
  scan_consts i (consts ++ [value]) value = None.
Proof.
  intros H He. apply scan_consts_None. intros v Hv.
  apply elem_of_app in Hv as [Hv|Hv].
  - by apply (proj1 (scan_consts_None i consts value) H).
  - apply list_elem_of_singleton in Hv as ->. rewrite He. apply andb_false_r.
Qed.

(** C6.  [rot_n]: nothing for 0 and 1, [ROT_TWO] for 2, [ROT_THREE] for 3,
    [ROT_FOUR] for 4 on a host of version 3.8 or later, and in every other
    case (so for n > 4, and for n = 4 on an older host) the five
    instructions BUILD_TUPLE n, LOAD_CONST of the helper [rot_n_helper n]
    (through the constant table), ROT_TWO, CALL_FUNCTION_EX 0,
    UNPACK_SEQUENCE n. *)
Theorem rot_n_emits (n : Z) (cg : PyCodegen) :
  (n = 0 \/ n = 1 -> rot_n n cg = ([], cg))
  /\ (n = 2 -> rot_n n cg = ([create_instruction "ROT_TWO" ANone None], cg))
  /\ (n = 3 -> rot_n n cg = ([create_instruction "ROT_THREE" ANone None], cg))
  /\ (n = 4 -> version_at_least_3_8 = true ->
      rot_n n cg = ([create_instruction "ROT_FOUR" ANone None], cg))
  /\ (4 < n \/ (n = 4 /\ version_at_least_3_8 = false) ->
      exists index,
        rot_n n cg
        = ([create_instruction "BUILD_TUPLE" (AInt n) None;
            create_instruction "LOAD_CONST" (AInt index)
              (Some (ArgConst (rot_n_helper n)));
            create_instruction "ROT_TWO" ANone None;
            create_instruction "CALL_FUNCTION_EX" (AInt 0) None;
            create_instruction "UNPACK_SEQUENCE" (AInt n) None],
           (_create_load_const (rot_n_helper n) cg).2)
        /\ (_create_load_const (rot_n_helper n) cg).1
           = create_instruction "LOAD_CONST" (AInt index)
               (Some (ArgConst (rot_n_helper n)))).
Proof.
  unfold rot_n. repeat split.
  - by intros [-> | ->].
  - by intros ->.
  - by intros ->.
  - by intros -> ->.
  - intros Hn.
    assert ((n =? 0) || (n =? 1) = false) as ->
      by (apply orb_false_iff; split; apply Z.eqb_neq; lia).
    assert ((n =? 2) = false) as -> by (apply Z.eqb_neq; lia).
    assert ((n =? 3) = false) as -> by (apply Z.eqb_neq; lia).
    assert ((n =? 4) && version_at_least_3_8 = false) as ->.
    { destruct Hn as [Hn | [-> ->]]; [|done].
      apply andb_false_iff. left. apply Z.eqb_neq. lia. }
    unfold _create_load_const.
    destruct (scan_consts 0 (co_consts (code_options cg)) (rot_n_helper n));
      simpl; eexists; split; reflexivity.
Qed.

(** C7, as the code has it.  A value the checked path accepts and that is
    [==] to itself (every value of the model but a NaN float): two loads in
    a row succeed, emit the same LOAD_CONST instruction with one index, and
    the second leaves the emitter as the first left it.  The index is found
    by the scan: when an entry of the value's type and [==] to it exists the
    table is unchanged and the index is that of the first such entry;
    otherwise the value is appended and the index is the old length.  In
    both cases the old table is a prefix of the new one, so no entry changes
    its index, and the table grows by at most one entry. *)
Theorem load_const_twice (value : PyVal) (cg : PyCodegen) :
  is_safe_constant value = true ->
  py_eq value value = true ->
  let consts := co_consts (code_options cg) in
  exists (index : nat) (cg1 : PyCodegen),
    let load :=
      create_instruction "LOAD_CONST" (AInt (Z.of_nat index))
        (Some (ArgConst value)) in
    let consts1 := co_consts (code_options cg1) in
    create_load_const value cg = Some (load, cg1)
    /\ create_load_const value cg1 = Some (load, cg1)
    /\ (exists v, consts1 !! index = Some v
          /\ type_is v value = true /\ py_eq v value = true)
    /\ (forall j v', (j < index)%nat -> consts1 !! j = Some v' ->
          type_is v' value && py_eq v' value = false)
    /\ ((scan_consts 0 consts value = Some index /\ consts1 = consts)
        \/ (scan_consts 0 consts value = None
            /\ index = length consts /\ consts1 = consts ++ [value]))
    /\ consts `prefix_of` consts1
    /\ (length consts1 <= S (length consts))%nat.
Proof.
  intros Hsafe Heq consts. unfold create_load_const. rewrite Hsafe.
  unfold _create_load_const. fold consts.
  destruct (scan_consts 0 consts value) as [k|] eqn:Hscan.
  - exists k, cg. cbv zeta. fold consts. rewrite Hscan.
    destruct (scan_consts_Some _ _ _ _ Hscan) as (j & v & -> & Hj & Ht & He & Hmin).
    simpl in *. repeat split; try done.
    + by exists v.
    + by left.
    + lia.
  - exists (length consts),
      (set_code_options
         (mkCodeOptions (co_varnames (code_options cg)) (consts ++ [value])
            (co_names (code_options cg))) cg).
    cbv zeta. simpl.
    rewrite (scan_consts_app_self 0 consts value Hscan Heq). simpl.
    repeat split; try done.
    + exists value. rewrite lookup_app_r, Nat.sub_diag by lia.
      by rewrite type_is_refl.
    + intros j v' Hj Hv'. rewrite lookup_app_l in Hv' by done.
      apply (proj1 (scan_consts_None 0 consts value) Hscan).
      by eapply list_elem_of_lookup_2.
    + right. done.
    + by apply prefix_app_r.
    + rewrite length_app. simpl. lia.
Qed.

(** C8, what the code does.  [create_load_attr] appends a missing name to
    the name table and leaves a present one alone, and the LOAD_ATTR it
    emits carries the whole name table as its [arg], not the name's index;
    [create_load_global], on the same table, carries the index. *)
Theorem create_load_attr_arg (attr : string) (cg : PyCodegen) :
  let '(inst, cg1) := create_load_attr attr cg in
  let names := co_names (code_options cg) in
  let names1 := co_names (code_options cg1) in
  names1 = (if tuple_in attr names then names else names ++ [attr])
  /\ attr ∈ names1
  /\ inst = mkInstruction "LOAD_ATTR" (ANames names1) (Some (ArgName attr))
  /\ (forall index : Z, arg inst <> AInt index)
  /\ exists i : nat,
       create_load_global attr true cg
       = Some (mkInstruction "LOAD_GLOBAL" (AInt (Z.of_nat i)) (Some (ArgName attr)),
               cg1)
       /\ tuple_index attr names1 = Some i.
Proof.
  unfold create_load_attr, create_load_global, update_co_names, tuple_in.
  cbv zeta.
  assert (Hidx : forall l, attr ∈ l -> is_Some (tuple_index attr l)).
  { induction l as [|y l IH]; intros Hin; [by apply elem_of_nil in Hin|].
    simpl. destruct (String.eqb y attr) eqn:E; [by eexists|].
    apply elem_of_cons in Hin as [->|Hin]; [by rewrite String.eqb_refl in E|].
    destruct (IH Hin) as [i ->]. by eexists. }
  case_bool_decide as Hin; simpl.
  - destruct (Hidx _ Hin) as [i Hi]. rewrite Hi. simpl.
    repeat split; try done. by exists i.
  - assert (attr ∈ co_names (code_options cg) ++ [attr]) as Hin'
      by (apply elem_of_app; right; by left).
    destruct (Hidx _ Hin') as [i Hi]. rewrite Hi. simpl.
    repeat split; try done. by exists i.
Qed.

(** C9, the branches that do record the value.  When [value] is not the
    cached top of stack and no temporary variable serves it, a call that
    returns leaves [value] as the cached top of stack; so does the branch
    that duplicates the top of stack. *)
Lemma call_records_top_of_stack (value : VariableTracker) (allow_cache : bool)
  (cg cg' : PyCodegen) :
  call (LValue value) allow_cache cg = Some cg' ->
  (forall var, allow_cache = true -> tempvars cg !! vt_id value <> Some (Some var))
  \/ top_of_stack cg = Some (vt_id value) ->
  top_of_stack cg' = Some (vt_id value).
Proof.
  unfold call. case_bool_decide as Htos.
  - intros [= <-] _. done.
  - intros Hcall [Hno | Hyes]; [|done].
    destruct allow_cache.
    + destruct (tempvars cg !! vt_id value) as [[var|]|] eqn:Ht.
      * by destruct (Hno var eq_refl).
      * destruct (reconstruct_value _ _ _); simplify_eq/=; done.
      * destruct (reconstruct_value _ _ _); simplify_eq/=; done.
    + destruct (reconstruct_value _ _ _); simplify_eq/=; done.
Qed.

(** C9, the branch that misses it.  When a temporary variable [var] holds
    [value] and caching is allowed, the call emits the load of [var] and
    returns with the cached top of stack as it was before the call, which
    is not [value]. *)
Lemma call_tempvar_keeps_top_of_stack (value : VariableTracker)
  (cg : PyCodegen) (var : string) (load : Instruction) :
  top_of_stack cg <> Some (vt_id value) ->
  tempvars cg !! vt_id value = Some (Some var) ->
  create_load var cg = Some load ->
  call (LValue value) true cg = Some (output_append load cg)
  /\ top_of_stack (output_append load cg) = top_of_stack cg
  /\ top_of_stack (output_append load cg) <> Some (vt_id value).
Proof.
  intros Htos Ht Hload. unfold call.
  rewrite bool_decide_eq_false_2 by done. rewrite Ht, Hload. done.
Qed.

End Emitter.

(** ** Concrete runs *)

(** Modelled from the spec: [torchdynamo.utils.is_safe_constant], not part
    of the sources: "a known-safe constant kind", "a recognized safe literal
    kind".  The literal kinds of the value model are [None], booleans,
    integers, floats and strings. *)
Definition safe_literal (v : PyVal) : bool :=
  match v with
  | VObj _ _ => false
  | _ => true
  end.

Definition empty_codegen : PyCodegen :=
  mkPyCodegen None ∅ [] [] ∅ (VObj "Module" 0) "graph_out"
    (mkCodeOptions [] [] []) [] ∅.

Lemma load_const_twice_witness :
  exists (index : nat) (cg1 : PyCodegen),
    create_load_const safe_literal (VInt 7) empty_codegen
    = Some (create_instruction "LOAD_CONST" (AInt (Z.of_nat index))
              (Some (ArgConst (VInt 7))), cg1)
    /\ create_load_const safe_literal (VInt 7) cg1
       = Some (create_instruction "LOAD_CONST" (AInt (Z.of_nat index))
                 (Some (ArgConst (VInt 7))), cg1).
Proof.
  destruct (load_const_twice safe_literal (VInt 7) empty_codegen eq_refl eq_refl)
    as (index & cg1 & H1 & H2 & _).
  exists index, cg1. split; [exact H1 | exact H2].
Defined.

(** C7 as stated fails at a NaN float: the checked path accepts it, the two
    loads carry the indices 0 and 1, and the table grows by two entries. *)
Lemma load_const_nan_twice :
  let nan := VFloat PrimFloat.nan in
  safe_literal nan = true
  /\ exists cg1 cg2,
       create_load_const safe_literal nan empty_codegen
       = Some (create_instruction "LOAD_CONST" (AInt 0) (Some (ArgConst nan)), cg1)
       /\ create_load_const safe_literal nan cg1
          = Some (create_instruction "LOAD_CONST" (AInt 1) (Some (ArgConst nan)), cg2)
       /\ length (co_consts (code_options empty_codegen)) = 0%nat
       /\ length (co_consts (code_options cg2)) = 2%nat.
Proof. cbv zeta. split; [done|]. eexists _, _. repeat split. Qed.

(** C8 at the name "x" and an empty name table: the [arg] of the emitted
    LOAD_ATTR is the table [("x",)], where the index of "x" is 0. *)
Example create_load_attr_x :
  (create_load_attr "x" empty_codegen).1
  = mkInstruction "LOAD_ATTR" (ANames ["x"]) (Some (ArgName "x"))
  /\ tuple_index "x" (co_names (code_options (create_load_attr "x" empty_codegen).2))
     = Some 0%nat
  /\ (create_load_attrs "a.b" empty_codegen).1
     = [mkInstruction "LOAD_ATTR" (ANames ["a"]) (Some (ArgName "a"));
        mkInstruction "LOAD_ATTR" (ANames ["a"; "b"]) (Some (ArgName "b"))].
Proof. repeat split. Qed.

(** C9 at a value held by the temporary "tmp", with an empty cached top of
    stack: the call emits LOAD_FAST 0 and the cached top of stack is still
    empty afterwards. *)
Example call_tempvar_stale :
  let value := mkVariableTracker 1 ∅ None None OtherVariable in
  let cg :=
    mkPyCodegen None ∅ [] [] {[ 1%nat := Some "tmp" ]} (VObj "Module" 0)
      "graph_out" (mkCodeOptions ["tmp"] [] []) [] ∅ in
  exists cg',
    call safe_literal (fun c => ("v", c)) (fun _ _ => None) (fun _ _ => None)
      (LValue value) true cg = Some cg'
    /\ _output cg' = [mkInstruction "LOAD_FAST" (AInt 0) (Some (ArgName "tmp"))]
    /\ top_of_stack cg' = None.
Proof. cbv zeta. eexists. repeat split. Qed.

Lemma call_tempvar_keeps_top_of_stack_witness :
  let value := mkVariableTracker 1 ∅ None None OtherVariable in
  let cg :=
    mkPyCodegen (Some 2%nat) ∅ [] [] {[ 1%nat := Some "tmp" ]} (VObj "Module" 0)
      "graph_out" (mkCodeOptions ["tmp"] [] []) [] ∅ in
  let load := mkInstruction "LOAD_FAST" (AInt 0) (Some (ArgName "tmp")) in
  call safe_literal (fun c => ("v", c)) (fun _ _ => None) (fun _ _ => None)
    (LValue value) true cg = Some (output_append load cg)
  /\ top_of_stack (output_append load cg) = Some 2%nat
  /\ top_of_stack (output_append load cg) <> Some 1%nat.
Proof.
  cbv zeta.
  refine (call_tempvar_keeps_top_of_stack safe_literal (fun c => ("v", c))
            (fun _ _ => None) (fun _ _ => None)
            (mkVariableTracker 1 ∅ None None OtherVariable) _ "tmp" _ _ _ _);
    [discriminate | reflexivity | reflexivity].
Defined.

End Codegen.

(* ===================================================================== *)
(** * Properties of the IR node model *)
(* ===================================================================== *)

Section RealizeFacts.
Import IR.

(** [k] calls of [realize] in a row on one storage box: the names returned,
    in call order, with the box and the registry after the last call. *)
Fixpoint realize_times (k : nat) (g : GraphLowering) (self : StorageBox)
  : option (list string * StorageBox * GraphLowering) :=
  match k with
  | O => Some ([], self, g)
  | S k' =>
      match realize g self with
      | None => None
      | Some (nm, self', g') =>
          match realize_times k' g' self' with
          | None => None
          | Some (nms, self'', g'') => Some (nm :: nms, self'', g'')
          end
      end
  end.

Lemma realize_computed g b :
  realize g (mkStorageBox (NComputedBuffer b))
  = Some (name b, mkStorageBox (NComputedBuffer b), g).
Proof. reflexivity. Qed.

Lemma realize_times_computed k g b :
  realize_times k g (mkStorageBox (NComputedBuffer b))
  = Some (replicate k (name b), mkStorageBox (NComputedBuffer b), g).
Proof.
  induction k as [|k IH]; simpl; [done|].
  by rewrite IH.
Qed.

(** C1.  A storage box that wraps an unrealized loop or reduction [l]:
    the first [realize] builds a computed buffer over [l] with a flexible
    layout (row-major strides of [l]'s size), appends exactly that one
    buffer to the registry, and returns the name the registry handed out;
    any number [k] of further calls return that same name, leave the box
    as it is and register nothing more.  A box that wraps anything but a
    loop/reduction or a computed buffer makes [realize] fail. *)
Theorem realize_idempotent (g : GraphLowering) :
  (forall l : TypedLoops,
     exists nm self' g',
       let b := mkComputedBuffer nm
                  (mkLayout FlexibleLayout (get_device l) (get_dtype l)
                     (get_size l) (default_strides (get_size l)) 0) l in
       realize g (mkStorageBox (NLoop l)) = Some (nm, self', g')
       /\ nm = fst (register_buffer g (fun nm => b))
       /\ box_data self' = NComputedBuffer b
       /\ buffers g' = buffers g ++ [b]
       /\ length (buffers g') = S (length (buffers g))
       /\ graph_inputs g' = graph_inputs g
       /\ graph_outputs g' = graph_outputs g
       /\ removed_buffers g' = removed_buffers g
       /\ forall k, realize_times k g' self' = Some (replicate k nm, self', g'))
  /\ (forall d : IRNode,
        (forall l, d <> NLoop l) -> (forall b, d <> NComputedBuffer b) ->
        realize g (mkStorageBox d) = None).
Proof.
  split.
  - intros l. eexists _, _, _. cbv zeta.
    split; [reflexivity|].
    repeat split; simpl.
    + by rewrite length_app, Nat.add_comm.
    + intros k. apply (realize_times_computed k _ (mkComputedBuffer _ _ l)).
  - intros d Hl Hb. destruct d; try reflexivity.
    + by destruct (Hl l).
    + by destruct (Hb b).
Qed.

(** The failure clause of [realize_idempotent] at an input buffer, and its
    first clause at a pointwise loop. *)
Lemma realize_idempotent_witness :
  let g := mkGraph [] ∅ [] ∅ in
  realize g (mkStorageBox (NInputBuffer "x" (new_FlexibleLayout "cpu" "f32" [2; 3])))
  = None.
Proof.
  intros g.
  refine (proj2 (realize_idempotent g) _ _ _); intros; discriminate.
Defined.

Example realize_twice :
  let g := mkGraph [] ∅ [] ∅ in
  let l := Reduction [2; 3] (Fn2 (fun _ _ => 0)) "cpu" "f32" [4] "sum" in
  exists self' g',
    realize_times 2 g (mkStorageBox (NLoop l)) = Some (["buf0"; "buf0"], self', g')
    /\ length (buffers g') = 1%nat
    /\ (layout_stride ∘ layout) <$> buffers g' !! 0%nat = Some [3; 1].
Proof. eexists _, _. vm_compute. done. Qed.

End RealizeFacts.

(* ===================================================================== *)
(** * Properties of the scheduler model *)
(* ===================================================================== *)

#[local] Close Scope Z_scope.
#[local] Set Warnings "-clear-no-such-hyp".

(** ** Scheduler operations: frames, the removal test and barrier staging *)

Section SchedulerFacts.
Import Sched.

(** ** Loops *)

Lemma for_each_app {S A : Type} (body : A -> S -> option S) (l1 l2 : list A) (s : S) :
  for_each body (l1 ++ l2) s = for_each body l1 s ≫= for_each body l2.
Proof.
  revert s. induction l1 as [|x l1 IH]; intros s; simpl; [done|].
  destruct (body x s); simpl; [apply IH | done].
Qed.

(** A property kept by every iteration is kept by the loop. *)
Lemma for_each_preserves {S A : Type} (P : S -> Prop)
  (body : A -> S -> option S) (l : list A) (s s' : S) :
  (forall x t t', x ∈ l -> P t -> body x t = Some t' -> P t') ->
  P s -> for_each body l s = Some s' -> P s'.
Proof.
  revert s. induction l as [|x l IH]; intros s Hbody HP; simpl.
  - by intros [= <-].
  - destruct (body x s) as [t|] eqn:Hx; simpl; [|done].
    apply IH.
    + intros y t1 t2 Hy. apply Hbody. by right.
    + eapply Hbody; [by left | exact HP | exact Hx].
Qed.

(** ** Consumers and the removal test (C2) *)

(** C2.  For a node [n] whose consumer list [us] is computed and whose
    consumers are objects of the scheduler, [can_remove_buffer] returns,
    and it returns true exactly when [n] is a reduction, [us] is one
    consumer [c], the unmet dependencies of [c] are one dependency [dep],
    [dep] is one of the writes of [n], and [c] is not a reduction; with
    one consumer that has two unmet dependencies or more it returns
    false. *)
Theorem can_remove_buffer_iff (s : Scheduler) (n : SchedulerNode) (us : list User) :
  users n = Some us ->
  Forall (fun u => is_Some (user_unmet_dependencies s u)) us ->
  (exists b, can_remove_buffer s n = Some b)
  /\ (can_remove_buffer s n = Some true <->
      is_reduction n = true
      /\ exists c dep,
           us = [c]
           /\ user_unmet_dependencies s c = Some {[ dep ]}
           /\ dep ∈ writes (read_writes n)
           /\ user_is_reduction s c = Some false)
  /\ (forall c unmet,
        us = [c] -> user_unmet_dependencies s c = Some unmet ->
        (2 <= size unmet)%nat -> can_remove_buffer s n = Some false).
Proof.
  intros Hus Hobj. unfold can_remove_buffer. rewrite Hus. simpl.
  assert (Hred : forall c u, user_unmet_dependencies s c = Some u ->
            exists r, user_is_reduction s c = Some r).
  { intros [x|id] u; simpl; [by eexists|].
    destruct (objects s !! id); simpl; [by eexists | done]. }
  destruct (is_reduction n) eqn:Hr.
  2:{ split; [by eexists|]. split; [|done]. split; [done|]. by intros [? _]. }
  destruct us as [|c [|c' us']]; simpl.
  - split; [by eexists|]. split; [|done].
    split; [done|]. by intros (_ & ? & ? & ? & _).
  - apply Forall_cons in Hobj as [[unmet Hunmet] _]. rewrite Hunmet. simpl.
    destruct (Hred _ _ Hunmet) as [r Hc].
    destruct (decide (size unmet = 1%nat)) as [Hsz|Hsz].
    + apply size_1_elem_of in Hsz as [dep Hdep]. apply leibniz_equiv in Hdep.
      subst unmet. rewrite elements_singleton. simpl. rewrite Hc. simpl.
      split; [by eexists|]. split.
      * split.
        -- intros [= H]. apply andb_true_iff in H as [Hnr Hw].
           split; [done|]. exists c, dep. split_and!; try done.
           ++ by apply bool_decide_eq_true in Hw.
           ++ by destruct r.
        -- intros (_ & c0 & dep0 & [= <-] & Hu & Hw & Hr0).
           assert (Some ({[ dep ]} : gset Dep) = Some {[ dep0 ]}) as Heq
             by congruence.
           apply (inj Some) in Heq.
           assert (dep0 = dep) as ->.
           { assert (dep0 ∈ ({[ dep ]} : gset Dep)) by (rewrite Heq; set_solver).
             set_solver. }
           rewrite Hc in Hr0. injection Hr0 as ->. simpl.
           by rewrite bool_decide_eq_true_2.
      * intros c0 unmet0 [= <-] Hu.
        assert (unmet0 = {[ dep ]}) as -> by congruence.
        rewrite size_singleton. lia.
    + split; [by eexists|]. split.
      * split; [done|]. intros (_ & c0 & dep0 & [= <-] & Hu & _).
        assert (unmet = {[ dep0 ]}) as -> by congruence.
        by rewrite size_singleton in Hsz.
      * done.
  - split; [by eexists|]. split; [|done].
    split; [done|]. by intros (_ & ? & ? & ? & _).
Qed.

(** ** What each operation leaves alone *)

(** Everything but the blocked-node index and the runnable pools. *)
Definition same_core (s s' : Scheduler) : Prop :=
  objects s' = objects s
  /\ run_count s' = run_count s
  /\ nodes s' = nodes s
  /\ kernels s' = kernels s
  /\ available_buffer_names s' = available_buffer_names s
  /\ pending_buffer_names s' = pending_buffer_names s
  /\ fusable_deps s' = fusable_deps s
  /\ graph s' = graph s
  /\ emitted s' = emitted s.

Lemma same_core_refl s : same_core s s.
Proof. by repeat split. Qed.

Lemma same_core_trans s1 s2 s3 :
  same_core s1 s2 -> same_core s2 s3 -> same_core s1 s3.
Proof.
  unfold same_core. intros (?&?&?&?&?&?&?&?&?) (?&?&?&?&?&?&?&?&?).
  split_and!; congruence.
Qed.

Lemma enqueue_node_core i s s' : enqueue_node i s = Some s' -> same_core s s'.
Proof.
  unfold enqueue_node. destruct (objects s !! i) as [n|]; simpl; [|done].
  case_bool_decide.
  - intros [= <-]. by repeat split.
  - destruct (is_reduction n); intros [= <-]; by repeat split.
Qed.

Lemma enqueue_core l s s' : enqueue l s = Some s' -> same_core s s'.
Proof.
  unfold enqueue. revert s. induction l as [|i l IH]; intros s; simpl.
  - intros [= <-]. apply same_core_refl.
  - destruct (enqueue_node i s) as [t|] eqn:Hi; simpl; [|done].
    intros Hl. eapply same_core_trans; [by eapply enqueue_node_core | by apply IH].
Qed.

(** The barrier's loop changes the objects it prunes and the index. *)
Definition same_but_objects (s s' : Scheduler) : Prop :=
  length (objects s') = length (objects s)
  /\ runable_reduction_groups s' = runable_reduction_groups s
  /\ runable_pointwise_groups s' = runable_pointwise_groups s
  /\ runable_nodes s' = runable_nodes s
  /\ run_count s' = run_count s
  /\ nodes s' = nodes s
  /\ kernels s' = kernels s
  /\ available_buffer_names s' = available_buffer_names s
  /\ pending_buffer_names s' = pending_buffer_names s
  /\ fusable_deps s' = fusable_deps s
  /\ graph s' = graph s
  /\ emitted s' = emitted s.

Lemma same_but_objects_refl s : same_but_objects s s.
Proof. by repeat split. Qed.

Lemma same_but_objects_trans s1 s2 s3 :
  same_but_objects s1 s2 -> same_but_objects s2 s3 -> same_but_objects s1 s3.
Proof.
  unfold same_but_objects.
  intros (?&?&?&?&?&?&?&?&?&?&?&?) (?&?&?&?&?&?&?&?&?&?&?&?).
  split_and!; congruence.
Qed.

Lemma prune_deps_at_frame i s s' :
  prune_deps_at i s = Some s' ->
  same_but_objects s s' /\ blocked_nodes s' = blocked_nodes s.
Proof.
  unfold prune_deps_at. destruct (objects s !! i); simpl; [|done].
  intros [= <-]. split; [|done]. repeat split. simpl. apply length_insert.
Qed.

Lemma prune_all_frame l s s' :
  for_each prune_deps_at l s = Some s' ->
  same_but_objects s s' /\ blocked_nodes s' = blocked_nodes s.
Proof.
  revert s. induction l as [|i l IH]; intros s; simpl.
  - intros [= <-]. split; [apply same_but_objects_refl | done].
  - destruct (prune_deps_at i s) as [t|] eqn:Hi; simpl; [|done].
    intros Hl. apply prune_deps_at_frame in Hi as [H1 H2].
    apply IH in Hl as [H3 H4]. split; [|congruence].
    by eapply same_but_objects_trans.
Qed.

Lemma barrier_name_frame nm st st' :
  barrier_name nm st = Some st' -> same_but_objects st.2 st'.2.
Proof.
  unfold barrier_name. destruct (pop_name nm (blocked_nodes st.2)) as [popped bn].
  destruct (for_each prune_deps_at popped _) as [s2|] eqn:Hp; simpl; [|done].
  intros [= <-]. simpl. apply prune_all_frame in Hp as [Hp _].
  eapply same_but_objects_trans; [|exact Hp]. by repeat split.
Qed.

Lemma barrier_loop_frame l st st' :
  for_each barrier_name l st = Some st' -> same_but_objects st.2 st'.2.
Proof.
  revert st. induction l as [|nm l IH]; intros st; simpl.
  - intros [= <-]. apply same_but_objects_refl.
  - destruct (barrier_name nm st) as [t|] eqn:Hn; simpl; [|done].
    intros Hl. eapply same_but_objects_trans; [by eapply barrier_name_frame | by apply IH].
Qed.

(** ** Barrier staging (C5) *)

(** C5.  [run] adds the node's name to the pending set and leaves the
    available set as it is; an operation other than [barrier] leaves the
    available set and every node object (so every unmet-dependency set) as
    they are, and so does any sequence of such operations; [barrier] makes
    the available set the union of the available and the pending names
    and empties the pending set. *)
Theorem barrier_staging :
  (forall i vars reduction_vars s s',
     run i vars reduction_vars s = Some s' ->
     exists n, objects s !! i = Some n
       /\ pending_buffer_names s' = pending_buffer_names s ∪ {[ get_name n ]}
       /\ available_buffer_names s' = available_buffer_names s
       /\ run_count s' = S (run_count s))
  /\ (forall op s s',
        exec op s = Some s' -> op <> OpBarrier ->
        available_buffer_names s' = available_buffer_names s
        /\ objects s' = objects s
        /\ pending_buffer_names s ⊆ pending_buffer_names s')
  /\ (forall ops s s',
        exec_all ops s = Some s' -> Forall (fun op => op <> OpBarrier) ops ->
        available_buffer_names s' = available_buffer_names s
        /\ unmet_dependencies <$> objects s' = unmet_dependencies <$> objects s
        /\ pending_buffer_names s ⊆ pending_buffer_names s')
  /\ (forall s s',
        barrier s = Some s' ->
        available_buffer_names s'
        = available_buffer_names s ∪ pending_buffer_names s
        /\ pending_buffer_names s' = ∅).
Proof.
  assert (Hrun : forall i vars reduction_vars s s',
     run i vars reduction_vars s = Some s' ->
     exists n, objects s !! i = Some n
       /\ pending_buffer_names s' = pending_buffer_names s ∪ {[ get_name n ]}
       /\ available_buffer_names s' = available_buffer_names s
       /\ run_count s' = S (run_count s)
       /\ objects s' = objects s).
  { intros i vars rvars s s'. unfold run.
    destruct (objects s !! i) as [n|]; simpl; [|done].
    destruct (emit n vars rvars); simpl; [|done].
    intros [= <-]. by exists n. }
  assert (Hstep : forall op s s',
        exec op s = Some s' -> op <> OpBarrier ->
        available_buffer_names s' = available_buffer_names s
        /\ objects s' = objects s
        /\ pending_buffer_names s ⊆ pending_buffer_names s').
  { intros op s s' Hex Hop. destruct op; simpl in Hex; try done.
    - apply Hrun in Hex as (n & _ & Hp & Ha & _ & Ho). rewrite Hp. set_solver.
    - unfold mark_fusable in Hex. destruct (objects s !! i); simplify_eq/=. done.
    - unfold maybe_remove_buffer in Hex.
      destruct (objects s !! i); simplify_eq/=.
      destruct (can_remove_buffer s s0) as [[]|]; simplify_eq/=; done.
    - by simplify_eq/=.
    - destruct (runable_nodes s !! grp); by simplify_eq/=.
    - unfold pop_fusable_now in Hex.
      destruct (pop_fusable _ _ _ _); by simplify_eq/=. }
  split_and!.
  - intros i vars rvars s s' H. apply Hrun in H as (n & ? & ? & ? & ? & ?).
    by exists n.
  - exact Hstep.
  - intros ops. unfold exec_all. induction ops as [|op ops IH]; intros s s'; simpl.
    + by intros [= <-] _.
    + destruct (exec op s) as [t|] eqn:Hop; simpl; [|done].
      intros Hrest Hall. apply Forall_cons in Hall as [Hne Hall].
      destruct (Hstep _ _ _ Hop Hne) as (Ha & Ho & Hp).
      destruct (IH _ _ Hrest Hall) as (Ha' & Ho' & Hp').
      split_and!; [congruence | by rewrite Ho', Ho | set_solver].
  - intros s s'. unfold barrier.
    destruct (for_each barrier_name _ _) as [st|] eqn:Hloop; simpl; [|done].
    intros Henq. apply enqueue_core in Henq as (_&_&_&_&Ha&Hp&_).
    apply barrier_loop_frame in Hloop as (_&_&_&_&_&_&_&Ha'&_).
    simpl in *. split; congruence.
Qed.

End SchedulerFacts.

(** ** Scheduler.compute_users *)

Section ComputeUsers.
Import Sched.

Lemma users_of_insert (m : gmap string (option (list User))) k v k' :
  users_of (<[k := v]> m) k' = if decide (k = k') then v else users_of m k'.
Proof.
  unfold users_of. destruct (decide (k = k')) as [->|Hne].
  - by rewrite lookup_insert_eq.
  - by rewrite lookup_insert_ne.
Qed.

Lemma users_append_Some nm u m m' :
  users_append nm u m = Some m' ->
  exists l, users_of m nm = Some l /\ m' = <[nm := Some (l ++ [u])]> m.
Proof.
  unfold users_append. destruct (users_of m nm) as [l|]; simpl; [|done].
  intros [= <-]. by exists l.
Qed.

Lemma users_append_eq nm u (m : gmap string (option (list User))) l :
  users_of m nm = Some l ->
  users_append nm u m = Some (<[nm := Some (l ++ [u])]> m).
Proof. unfold users_append. by intros ->. Qed.

Lemma users_append_None nm u (m : gmap string (option (list User))) :
  users_of m nm = None -> users_append nm u m = None.
Proof. unfold users_append. by intros ->. Qed.

(** [node i reads nm]: some read of the object [i] names [nm]. *)
Definition reads_name (objs : list SchedulerNode) (j : nat) (nm : string) : Prop :=
  exists nj d, objs !! j = Some nj /\ d ∈ reads (read_writes nj) /\ dep_name d = nm.

(** The consumer list of the name [nm] once the nodes from [k] on are
    processed: its output sentinels are whole-buffer dependencies on [nm]
    and are there exactly when [nm] is a graph output, and its nodes are
    the readers of [nm] among the processed nodes. *)
Definition users_list_ok (objs : list SchedulerNode) (outs : list string)
  (k : nat) (nm : string) (l : list User) : Prop :=
  (forall x, UOutputNode x ∈ l -> x = {[ StarDep nm ]} /\ nm ∈ outs)
  /\ (nm ∈ outs -> new_OutputNode (StarDep nm) ∈ l)
  /\ (forall j, UNode j ∈ l <-> (k <= j)%nat /\ reads_name objs j nm).

Lemma seed_outputs_spec (outs1 outs2 : list string)
  (m : gmap string (option (list User))) :
  (forall nm, exists l, users_of m nm = Some l
     /\ (forall u, u ∈ l -> u = new_OutputNode (StarDep nm) /\ nm ∈ outs1)
     /\ (nm ∈ outs1 -> new_OutputNode (StarDep nm) ∈ l)) ->
  exists m',
    for_each (fun name => users_append name (new_OutputNode (StarDep name))) outs2 m
    = Some m'
    /\ forall nm, exists l, users_of m' nm = Some l
         /\ (forall u, u ∈ l -> u = new_OutputNode (StarDep nm) /\ nm ∈ outs1 ++ outs2)
         /\ (nm ∈ outs1 ++ outs2 -> new_OutputNode (StarDep nm) ∈ l).
Proof.
  revert outs1 m. induction outs2 as [|o outs2 IH]; intros outs1 m Hm; simpl.
  - exists m. split; [done|]. intros nm. rewrite app_nil_r. apply Hm.
  - destruct (Hm o) as (lo & Hlo & Hlo1 & Hlo2).
    rewrite (users_append_eq _ _ _ _ Hlo). simpl.
    destruct (IH (outs1 ++ [o]) (<[o := Some (lo ++ [new_OutputNode (StarDep o)])]> m))
      as (m' & Hm' & Hspec).
    + intros nm. rewrite users_of_insert. destruct (decide (o = nm)) as [<-|Hne].
      * eexists. split; [done|]. split.
        -- intros u Hu. apply elem_of_app in Hu as [Hu|Hu].
           ++ destruct (Hlo1 u Hu). split; [done|]. apply elem_of_app. by left.
           ++ apply list_elem_of_singleton in Hu as ->. split; [done|].
              apply elem_of_app. right. by left.
        -- intros _. apply elem_of_app. right. by left.
      * destruct (Hm nm) as (l & Hl & Hl1 & Hl2). exists l. split; [done|]. split.
        -- intros u Hu. destruct (Hl1 u Hu). split; [done|]. apply elem_of_app. by left.
        -- intros Hin. apply elem_of_app in Hin as [Hin|Hin]; [by apply Hl2|].
           apply list_elem_of_singleton in Hin. congruence.
    + exists m'. split; [done|]. intros nm. destruct (Hspec nm) as (l & Hl & Hl1 & Hl2).
      exists l. rewrite <- app_assoc in Hl1, Hl2. done.
Qed.

Lemma append_reads_spec i rl (m m' : gmap string (option (list User))) :
  for_each (fun read => users_append (dep_name read) (UNode i)) rl m = Some m' ->
  (forall d, d ∈ rl -> users_of m (dep_name d) <> None)
  /\ forall nm,
       match users_of m nm with
       | None => users_of m' nm = None
       | Some l =>
           exists l', users_of m' nm = Some l'
             /\ forall u, u ∈ l' <->
                  u ∈ l \/ (u = UNode i /\ exists d, d ∈ rl /\ dep_name d = nm)
       end.
Proof.
  revert m. induction rl as [|r rl IH]; intros m; simpl.
  - intros [= <-]. split; [intros d Hd; by apply elem_of_nil in Hd|].
    intros nm. destruct (users_of m nm) as [l|]; [|done].
    exists l. split; [done|]. intros u. split; [by left|].
    intros [?|(_ & d & Hd & _)]; [done|]. by apply elem_of_nil in Hd.
  - destruct (users_append (dep_name r) (UNode i) m) as [m1|] eqn:Hr; simpl; [|done].
    intros Hrest. apply users_append_Some in Hr as (lr & Hlr & ->).
    destruct (IH _ Hrest) as [Hok Hspec]. split.
    + intros d Hd. apply elem_of_cons in Hd as [->|Hd]; [congruence|].
      specialize (Hok d Hd). rewrite users_of_insert in Hok.
      destruct (decide (dep_name r = dep_name d)) as [Heq|Hne]; [congruence|done].
    + intros nm. specialize (Hspec nm). rewrite users_of_insert in Hspec.
      destruct (decide (dep_name r = nm)) as [<-|Hne].
      * rewrite Hlr. destruct Hspec as (l' & Hl' & Hmem). exists l'. split; [done|].
        intros u. rewrite Hmem. rewrite elem_of_app, list_elem_of_singleton. split.
        -- intros [[Hu| ->]|(-> & d & Hd & Hdn)].
           ++ by left.
           ++ right. split; [done|]. exists r. split; [by left|done].
           ++ right. split; [done|]. exists d. split; [by right|done].
        -- intros [Hu|(-> & d & Hd & Hdn)]; [by left; left|].
           apply elem_of_cons in Hd as [->|Hd]; [by left; right|].
           right. split; [done|]. by exists d.
      * destruct (users_of m nm) as [l|]; [|done].
        destruct Hspec as (l' & Hl' & Hmem). exists l'. split; [done|].
        intros u. rewrite Hmem. split.
        -- intros [Hu|(-> & d & Hd & Hdn)]; [by left|].
           right. split; [done|]. exists d. split; [by right|done].
        -- intros [Hu|(-> & d & Hd & Hdn)]; [by left|].
           apply elem_of_cons in Hd as [->|Hd]; [congruence|].
           right. split; [done|]. by exists d.
Qed.

Lemma append_reads_total i rl (m : gmap string (option (list User))) :
  (forall d, d ∈ rl -> users_of m (dep_name d) <> None) ->
  is_Some (for_each (fun read => users_append (dep_name read) (UNode i)) rl m).
Proof.
  revert m. induction rl as [|r rl IH]; intros m Hok; simpl; [by eexists|].
  destruct (users_of m (dep_name r)) as [l|] eqn:Hl.
  - rewrite (users_append_eq _ _ _ _ Hl). simpl. apply IH. intros d Hd. rewrite users_of_insert.
    destruct (decide (dep_name r = dep_name d)); [done|].
    apply Hok. by right.
  - destruct (Hok r); [by left | done].
Qed.

(** The consumer list [u] given to the object [i]: it is [None] exactly
    when a later node has the name of [i], and otherwise it is the list of
    the name as it stands when every later node is processed. *)
Definition users_spec (objs : list SchedulerNode) (outs : list string)
  (i : nat) (n : SchedulerNode) (u : option (list User)) : Prop :=
  (u = None <->
   exists i' n', (i < i')%nat /\ objs !! i' = Some n' /\ get_name n' = get_name n)
  /\ forall l, u = Some l -> users_list_ok objs outs (S i) (get_name n) l.

(** The state of the reversed loop of [compute_users] when the nodes from
    [k] on are processed. *)
Definition cu_inv (objs : list SchedulerNode) (outs : list string) (k : nat)
  (st : list SchedulerNode * gmap string (option (list User))) : Prop :=
  length st.1 = length objs
  /\ (forall i n, objs !! i = Some n ->
     exists u, st.1 !! i = Some (set_users u n)
       /\ ((i < k)%nat -> u = users n)
       /\ ((k <= i)%nat -> users_spec objs outs i n u))
  /\ (forall nm, users_of st.2 nm = None <->
        exists i n, (k <= i)%nat /\ objs !! i = Some n /\ get_name n = nm)
  /\ (forall nm l, users_of st.2 nm = Some l -> users_list_ok objs outs k nm l).

Lemma set_users_set_users u u' n : set_users u (set_users u' n) = set_users u n.
Proof. by destruct n. Qed.

Lemma compute_users_node_inv objs outs k st st' :
  cu_inv objs outs (S k) st ->
  compute_users_node k st = Some st' ->
  cu_inv objs outs k st'
  /\ exists n, objs !! k = Some n
       /\ forall d, d ∈ reads (read_writes n) ->
            forall i' n', (k <= i')%nat -> objs !! i' = Some n' ->
              get_name n' <> dep_name d.
Proof.
  intros (Hlen & Ha & Hb & Hc). unfold compute_users_node.
  destruct (st.1 !! k) as [nk|] eqn:Hk; simpl; [|done].
  destruct (for_each _ _ _) as [ntu'|] eqn:Hloop; simpl; [|done].
  intros [= <-].
  assert (exists n, objs !! k = Some n) as [n Hn].
  { apply lookup_lt_is_Some. rewrite <- Hlen. by eapply lookup_lt_Some. }
  destruct (Ha k n Hn) as (u0 & Hu0 & Hu0lt & _).
  rewrite Hk in Hu0. injection Hu0 as ->.
  change (get_name (set_users u0 n)) with (get_name n) in *.
  change (read_writes (set_users u0 n)) with (read_writes n) in *.
  rewrite set_users_set_users.
  destruct (append_reads_spec _ _ _ _ Hloop) as [Hok Hspec].
  split; [split_and!|].
  - simpl. by rewrite length_insert.
  - intros i ni Hi. destruct (decide (i = k)) as [->|Hne].
    + assert (ni = n) as -> by congruence.
      exists (users_of st.2 (get_name n)). simpl.
      rewrite list_lookup_insert_eq by (by eapply lookup_lt_Some).
      split; [done|]. split; [lia|]. intros _. split.
      * rewrite Hb. split.
        -- intros (i' & n' & ? & ? & ?). exists i', n'. split_and!; [lia|done|done].
        -- intros (i' & n' & ? & ? & ?). exists i', n'. split_and!; [lia|done|done].
      * intros l Hl. by apply Hc.
    + destruct (Ha i ni Hi) as (u & Hu & Hlt & Hge). exists u. simpl.
      rewrite list_lookup_insert_ne by done. split; [done|].
      split; [intros; apply Hlt; lia | intros; apply Hge; lia].
  - intros nm. simpl. specialize (Hspec nm). rewrite users_of_insert in Hspec.
    destruct (decide (get_name n = nm)) as [<-|Hne].
    + rewrite Hspec. split; [|done]. intros _. exists k, n. split_and!; [lia|done|done].
    + destruct (users_of st.2 nm) as [l|] eqn:Hl.
      * destruct Hspec as (l' & -> & _). split; [done|].
        intros (i' & n' & Hge & Hi' & Hnm).
        destruct (decide (i' = k)) as [->|Hik]; [congruence|].
        assert (users_of st.2 nm = None); [|congruence].
        apply Hb. exists i', n'. split_and!; [lia|done|done].
      * rewrite Hspec. split; [|done]. intros _.
        apply Hb in Hl as (i' & n' & ? & ? & ?). exists i', n'.
        split_and!; [lia|done|done].
  - intros nm l'. simpl. intros Hl'. specialize (Hspec nm).
    rewrite users_of_insert in Hspec.
    destruct (decide (get_name n = nm)) as [<-|Hne]; [congruence|].
    destruct (users_of st.2 nm) as [l|] eqn:Hl; [|congruence].
    destruct Hspec as (l'' & Hl'' & Hmem).
    assert (l'' = l') as -> by congruence.
    destruct (Hc nm l Hl) as (Hc1 & Hc2 & Hc3). split_and!.
    + intros x Hx. apply Hmem in Hx as [Hx|[? _]]; [by apply Hc1 | done].
    + intros Hin. apply Hmem. left. by apply Hc2.
    + intros j. rewrite Hmem, Hc3. split.
      * intros [[Hj Hr]|([= ->] & d & Hd & Hdn)]; [split; [lia|done]|].
        split; [lia|]. exists n, d. split_and!; [done| |done].
        by apply elem_of_elements.
      * intros [Hj Hr]. destruct (decide (j = k)) as [->|Hjk].
        -- right. split; [done|]. destruct Hr as (nj & d & Hnj & Hd & Hdn).
           assert (nj = n) as -> by congruence.
           exists d. split; [by apply elem_of_elements | done].
        -- left. split; [lia|done].
  - exists n. split; [done|]. intros d Hd i' n' Hge Hi' Heq.
    specialize (Hok d (proj2 (elem_of_elements _ _) Hd)).
    rewrite users_of_insert in Hok.
    destruct (decide (get_name n = dep_name d)) as [|Hne]; [done|].
    destruct (decide (i' = k)) as [->|Hik]; [congruence|].
    apply Hok, Hb. exists i', n'. split_and!; [lia|done|done].
Qed.

Lemma compute_users_node_total objs outs k st n :
  cu_inv objs outs (S k) st ->
  objs !! k = Some n ->
  (forall d, d ∈ reads (read_writes n) ->
     forall i' n', (k <= i')%nat -> objs !! i' = Some n' ->
       get_name n' <> dep_name d) ->
  is_Some (compute_users_node k st).
Proof.
  intros (Hlen & Ha & Hb & Hc) Hn Hord. unfold compute_users_node.
  destruct (Ha k n Hn) as (u0 & Hu0 & _). rewrite Hu0. simpl.
  change (get_name (set_users u0 n)) with (get_name n).
  change (read_writes (set_users u0 n)) with (read_writes n).
  destruct (append_reads_total k (elements (reads (read_writes n)))
              (<[get_name n := None]> st.2)) as [m' Hm'].
  - intros d Hd. apply elem_of_elements in Hd. rewrite users_of_insert.
    destruct (decide (get_name n = dep_name d)) as [Heq|Hne].
    + by destruct (Hord d Hd k n).
    + intros Hnone. apply Hb in Hnone as (i' & n' & Hge & Hi' & Hnm).
      apply (Hord d Hd i' n'); [lia|done|done].
  - rewrite Hm'. simpl. by eexists.
Qed.

Lemma reverse_seq_S k : reverse (seq 0 (S k)) = k :: reverse (seq 0 k).
Proof. by rewrite seq_S, reverse_snoc. Qed.

(** Every read names a graph input or an earlier buffer: no read of a node
    names that node or a later one. *)
Definition reads_earlier (objs : list SchedulerNode) : Prop :=
  forall i n d, objs !! i = Some n -> d ∈ reads (read_writes n) ->
    forall i' n', (i <= i')%nat -> objs !! i' = Some n' ->
      get_name n' <> dep_name d.

Lemma compute_users_loop_inv objs outs k st st' :
  cu_inv objs outs k st ->
  for_each compute_users_node (reverse (seq 0 k)) st = Some st' ->
  cu_inv objs outs 0 st'
  /\ forall i n d, (i < k)%nat -> objs !! i = Some n -> d ∈ reads (read_writes n) ->
       forall i' n', (i <= i')%nat -> objs !! i' = Some n' ->
         get_name n' <> dep_name d.
Proof.
  revert st. induction k as [|k IH]; intros st Hinv.
  - simpl. intros [= <-]. split; [done|]. intros; lia.
  - rewrite reverse_seq_S. simpl.
    destruct (compute_users_node k st) as [st1|] eqn:Hk; simpl; [|done].
    intros Hrest. destruct (compute_users_node_inv _ _ _ _ _ Hinv Hk)
      as (Hinv1 & n & Hn & Hord).
    destruct (IH _ Hinv1 Hrest) as [Hfin Hords]. split; [done|].
    intros i ni d Hi Hni Hd. destruct (decide (i = k)) as [->|Hne].
    + assert (ni = n) as -> by congruence. by apply Hord.
    + apply (Hords i ni d); [lia|done|done].
Qed.

Lemma compute_users_loop_total objs outs k st :
  (k <= length objs)%nat ->
  reads_earlier objs ->
  cu_inv objs outs k st ->
  is_Some (for_each compute_users_node (reverse (seq 0 k)) st).
Proof.
  intros Hk Hord. revert st. induction k as [|k IH]; intros st Hinv.
  - simpl. by eexists.
  - rewrite reverse_seq_S. simpl.
    assert (is_Some (objs !! k)) as [n Hn] by (apply lookup_lt_is_Some; lia).
    destruct (compute_users_node_total _ _ _ _ _ Hinv Hn) as [st1 Hst1].
    { intros d Hd. by apply (Hord k n d). }
    rewrite Hst1. simpl. apply IH; [lia|].
    by destruct (compute_users_node_inv _ _ _ _ _ Hinv Hst1).
Qed.

(** [if node.users] on the object [i]. *)
Definition has_users_at (objs : list SchedulerNode) (i : nat) : bool :=
  default false (has_users <$> objs !! i).

(** What [compute_users] leaves alone. *)
Definition cu_frame (s s' : Scheduler) : Prop :=
  blocked_nodes s' = blocked_nodes s
  /\ runable_reduction_groups s' = runable_reduction_groups s
  /\ runable_pointwise_groups s' = runable_pointwise_groups s
  /\ runable_nodes s' = runable_nodes s
  /\ run_count s' = run_count s
  /\ kernels s' = kernels s
  /\ available_buffer_names s' = available_buffer_names s
  /\ pending_buffer_names s' = pending_buffer_names s
  /\ fusable_deps s' = fusable_deps s
  /\ emitted s' = emitted s
  /\ graph_inputs (graph s') = graph_inputs (graph s)
  /\ graph_outputs (graph s') = graph_outputs (graph s)
  /\ buffers (graph s') = buffers (graph s).

Lemma sweep_node_eq i s n :
  objects s !! i = Some n ->
  sweep_node i s
  = Some (if has_users n then set_nodes (nodes s ++ [i]) s
          else set_graph
                 (mkGraph (buffers (graph s)) (graph_inputs (graph s))
                    (graph_outputs (graph s))
                    (removed_buffers (graph s) ∪ {[ get_name n ]})) s).
Proof. unfold sweep_node. intros ->. simpl. by destruct (has_users n). Qed.

Lemma sweep_spec l s :
  Forall (fun i => (i < length (objects s))%nat) l ->
  exists s',
    for_each sweep_node l s = Some s'
    /\ objects s' = objects s
    /\ nodes s' = nodes s ++ filter (fun i => has_users_at (objects s) i = true) l
    /\ (forall nm, nm ∈ removed_buffers (graph s') <->
          nm ∈ removed_buffers (graph s)
          \/ exists i n, i ∈ l /\ objects s !! i = Some n
               /\ has_users n = false /\ get_name n = nm)
    /\ cu_frame s s'.
Proof.
  revert s. induction l as [|i l IH]; intros s Hl; simpl.
  - exists s. split_and!.
    + done.
    + done.
    + by rewrite app_nil_r.
    + intros nm. split; [by left|]. intros [?|(i & n & Hi & _)]; [done|].
      by apply elem_of_nil in Hi.
    + by repeat split.
  - apply Forall_cons in Hl as [Hi Hl].
    apply lookup_lt_is_Some in Hi as [n Hn].
    rewrite (sweep_node_eq _ _ _ Hn).
    destruct (has_users n) eqn:Hu; simpl.
    + destruct (IH (set_nodes (nodes s ++ [i]) s)) as (s' & Hs' & Ho & Hnodes & Hrem & Hfr);
        [done|].
      exists s'. split_and!.
      * done.
      * done.
      * rewrite Hnodes. simpl. rewrite filter_cons_True.
        -- by rewrite <- app_assoc.
        -- unfold has_users_at. by rewrite Hn.
      * intros nm. rewrite Hrem. simpl. split.
        -- intros [?|(j & nj & Hj & ?)]; [by left|]. right. exists j, nj.
           split; [by right | done].
        -- intros [?|(j & nj & Hj & Hnj & Hf & Hnm)]; [by left|].
           apply elem_of_cons in Hj as [->|Hj]; [congruence|].
           right. by exists j, nj.
      * done.
    + destruct (IH (set_graph
            (mkGraph (buffers (graph s)) (graph_inputs (graph s))
               (graph_outputs (graph s))
               (removed_buffers (graph s) ∪ {[ get_name n ]})) s))
        as (s' & Hs' & Ho & Hnodes & Hrem & Hfr); [done|].
      exists s'. split_and!.
      * done.
      * done.
      * rewrite Hnodes. simpl. rewrite filter_cons_False; [done|].
        unfold has_users_at. rewrite Hn. simpl. by rewrite Hu.
      * intros nm. rewrite Hrem. simpl. rewrite elem_of_union, elem_of_singleton.
        split.
        -- intros [[?| ->]|(j & nj & Hj & ?)].
           ++ by left.
           ++ right. exists i, n. split; [by left | done].
           ++ right. exists j, nj. split; [by right | done].
        -- intros [?|(j & nj & Hj & Hnj & Hf & Hnm)]; [by left; left|].
           apply elem_of_cons in Hj as [->|Hj].
           ++ left. right. congruence.
           ++ right. by exists j, nj.
      * done.
Qed.

Lemma cu_inv_init objs outs ntu0 :
  (forall nm, exists l, users_of ntu0 nm = Some l
     /\ (forall u, u ∈ l -> u = new_OutputNode (StarDep nm) /\ nm ∈ outs)
     /\ (nm ∈ outs -> new_OutputNode (StarDep nm) ∈ l)) ->
  cu_inv objs outs (length objs) (objs, ntu0).
Proof.
  intros Hseed. split_and!; simpl.
  - done.
  - intros i n Hi. exists (users n). split; [by destruct n|]. split; [done|].
    intros Hge. apply lookup_lt_Some in Hi. lia.
  - intros nm. destruct (Hseed nm) as (l & Hl & _). rewrite Hl. split; [done|].
    intros (i & n & Hge & Hi & _). apply lookup_lt_Some in Hi. lia.
  - intros nm l Hl. destruct (Hseed nm) as (l' & Hl' & H1 & H2).
    assert (l' = l) as -> by congruence. split_and!.
    + intros x Hx. destruct (H1 _ Hx) as [Hx' ?]. split; [|done].
      unfold new_OutputNode in Hx'. congruence.
    + done.
    + intros j. split.
      * intros Hj. by destruct (H1 _ Hj).
      * intros [Hge (nj & d & Hnj & _)]. apply lookup_lt_Some in Hnj. lia.
Qed.

Lemma seed_outputs_empty (outs : list string) :
  exists m',
    for_each (fun name => users_append name (new_OutputNode (StarDep name))) outs ∅
    = Some m'
    /\ forall nm, exists l, users_of m' nm = Some l
         /\ (forall u, u ∈ l -> u = new_OutputNode (StarDep nm) /\ nm ∈ outs)
         /\ (nm ∈ outs -> new_OutputNode (StarDep nm) ∈ l).
Proof.
  apply (seed_outputs_spec [] outs ∅). intros nm. exists [].
  split; [done|]. split.
  - intros u H. by apply elem_of_nil in H.
  - intros H. by apply elem_of_nil in H.
Qed.

(** What a completed [compute_users] leaves behind, for a scheduler whose
    active list is every object in order, as [__init__] builds it. *)
Lemma compute_users_spec s s' :
  nodes s = seq 0 (length (objects s)) ->
  compute_users s = Some s' ->
  (exists ntu, cu_inv (objects s) (graph_outputs (graph s)) 0 (objects s', ntu))
  /\ reads_earlier (objects s)
  /\ nodes s'
     = filter (fun i => has_users_at (objects s') i = true)
         (seq 0 (length (objects s)))
  /\ (forall nm, nm ∈ removed_buffers (graph s') <->
        nm ∈ removed_buffers (graph s)
        \/ exists i n, objects s' !! i = Some n
             /\ has_users n = false /\ get_name n = nm)
  /\ cu_frame s s'.
Proof.
  intros Hnodes. unfold compute_users.
  destruct (seed_outputs_empty (graph_outputs (graph s))) as (ntu0 & -> & Hseed).
  simpl. rewrite Hnodes.
  destruct (for_each compute_users_node _ _) as [st|] eqn:Hloop; simpl; [|done].
  intros Hsweep.
  destruct (compute_users_loop_inv _ _ _ _ _ (cu_inv_init _ _ _ Hseed) Hloop)
    as [Hinv Hord].
  destruct (sweep_spec (seq 0 (length (objects s)))
              (set_nodes [] (set_objects st.1 s)))
    as (s2 & Hs2 & Ho & Hn & Hrem & Hfr).
  { simpl. destruct Hinv as [-> _]. apply Forall_forall. intros i Hi.
    apply elem_of_seq in Hi. lia. }
  rewrite Hs2 in Hsweep. injection Hsweep as <-. simpl in *.
  split_and!.
  - exists st.2. rewrite Ho. by destruct st.
  - intros i n d Hi Hd. apply (Hord i n d); [|done|done].
    by eapply lookup_lt_Some.
  - by rewrite Hn, Ho.
  - intros nm. rewrite Hrem, Ho. split.
    + intros [?|(i & n & _ & ?)]; [by left|]. right. by exists i, n.
    + intros [?|(i & n & Hi & ?)]; [by left|]. right. exists i, n.
      split; [|done]. apply elem_of_seq. destruct Hinv as [Hlen _].
      apply lookup_lt_Some in Hi. simpl in Hlen. lia.
  - done.
Qed.

Lemma compute_users_total s :
  nodes s = seq 0 (length (objects s)) ->
  reads_earlier (objects s) ->
  is_Some (compute_users s).
Proof.
  intros Hnodes Hord. unfold compute_users.
  destruct (seed_outputs_empty (graph_outputs (graph s))) as (ntu0 & -> & Hseed).
  simpl. rewrite Hnodes.
  destruct (compute_users_loop_total (objects s) (graph_outputs (graph s))
              (length (objects s)) (objects s, ntu0)) as [st Hst];
    [done | done | by apply cu_inv_init |].
  rewrite Hst. simpl.
  destruct (compute_users_loop_inv _ _ _ _ _ (cu_inv_init _ _ _ Hseed) Hst)
    as [[Hlen _] _].
  destruct (sweep_spec (seq 0 (length (objects s)))
              (set_nodes [] (set_objects st.1 s))) as (s2 & Hs2 & _).
  { simpl. rewrite Hlen. apply Forall_forall. intros i Hi.
    apply elem_of_seq in Hi. lia. }
  rewrite Hs2. by eexists.
Qed.

Lemma NoDup_names_inj (objs : list SchedulerNode) i j ni nj :
  NoDup (get_name <$> objs) ->
  objs !! i = Some ni -> objs !! j = Some nj -> get_name ni = get_name nj -> i = j.
Proof.
  intros Hnd Hi Hj Heq.
  apply (NoDup_lookup _ i j (get_name ni) Hnd); rewrite list_lookup_fmap.
  - by rewrite Hi.
  - rewrite Hj. simpl. by rewrite Heq.
Qed.

Lemma has_users_set_users u n :
  has_users (set_users u n) = match u with Some (_ :: _) => true | _ => false end.
Proof. done. Qed.

(** C3.  [compute_users] on a scheduler whose active list is every node
    object in order (as [__init__] calls it).  It completes when no read
    names the reading node or a later one.  When it has completed: a node
    whose name no other node reads and that is not a graph output is not
    in the active list and its name is in the removed buffers; and, buffer
    names being distinct, a node whose name is a graph output has the
    whole-buffer output consumer among its users and is in the active
    list. *)
Theorem dead_buffer_elimination (s : Scheduler) :
  nodes s = seq 0 (length (objects s)) ->
  (reads_earlier (objects s) -> is_Some (compute_users s))
  /\ forall s', compute_users s = Some s' ->
     forall i n, objects s !! i = Some n ->
       ((forall j, j <> i -> ~ reads_name (objects s) j (get_name n)) ->
        get_name n ∉ graph_outputs (graph s) ->
        (i ∉ nodes s') /\ get_name n ∈ removed_buffers (graph s'))
       /\ (NoDup (get_name <$> objects s) ->
           get_name n ∈ graph_outputs (graph s) ->
           i ∈ nodes s'
           /\ exists us, objects s' !! i = Some (set_users (Some us) n)
                /\ new_OutputNode (StarDep (get_name n)) ∈ us).
Proof.
  intros Hnodes. split; [by apply compute_users_total|].
  intros s' Hcu i n Hn.
  destruct (compute_users_spec _ _ Hnodes Hcu)
    as ([ntu (Hlen & Ha & _ & _)] & _ & Hact & Hrem & _).
  simpl in *. destruct (Ha i n Hn) as (u & Hu & _ & Hspec).
  destruct (Hspec (Nat.le_0_l i)) as [Hnone Hsome]. split.
  - intros Hunread Hnout.
    assert (has_users (set_users u n) = false) as Hfalse.
    { rewrite has_users_set_users. destruct u as [[|c l]|]; try done.
      destruct (Hsome _ eq_refl) as (H1 & _ & H3). destruct c as [x|j].
      - destruct (H1 x); [by left | done].
      - destruct (proj1 (H3 j)) as [Hj Hr]; [by left|].
        destruct (Hunread j); [lia | done]. }
    split.
    + rewrite Hact. intros Hin. apply list_elem_of_filter in Hin as [Hin _].
      unfold has_users_at in Hin. rewrite Hu in Hin. simpl in Hin. congruence.
    + apply Hrem. right. by exists i, (set_users u n).
  - intros Hnd Hout. destruct u as [l|].
    2:{ destruct (proj1 Hnone eq_refl) as (i' & n' & Hlt & Hi' & Heq).
        pose proof (NoDup_names_inj _ _ _ _ _ Hnd Hi' Hn Heq). lia. }
    destruct (Hsome _ eq_refl) as (_ & H2 & _). specialize (H2 Hout).
    split.
    + rewrite Hact. apply list_elem_of_filter. split.
      * unfold has_users_at. rewrite Hu. simpl. rewrite has_users_set_users.
        destruct l; [by apply elem_of_nil in H2 | done].
      * apply elem_of_seq. apply lookup_lt_Some in Hn. lia.
    + by exists l.
Qed.

End ComputeUsers.

(** ** The blocked-node index *)

Section BlockedFacts.
Import Sched.

(** ** The blocked-node index *)

(** The nodes held by the boxes that are not popped. *)
Definition live_ids (bn : BlockedNodes) : list nat := omap id (boxes bn).

(** The box is filed under the name of the dependency. *)
Definition registered (bn : BlockedNodes) (box : nat) (d : Dep) : Prop :=
  box ∈ default [] (name_to_nodes bn !! dep_name d).

(** The index against the node objects [objs] and the available names
    [avail]: a node in a live box has unmet dependencies, none of them
    names an available buffer, and its box is filed under the name of each;
    no node is in two live boxes; the lists by dependency hold boxes that
    exist, each once. *)
Definition blocked_inv (objs : list SchedulerNode) (avail : gset string)
  (bn : BlockedNodes) : Prop :=
  (forall box i, boxes bn !! box = Some (Some i) ->
     exists n, objs !! i = Some n
       /\ unmet_dependencies n <> ∅
       /\ forall d, d ∈ unmet_dependencies n ->
            (dep_name d ∉ avail) /\ registered bn box d)
  /\ NoDup (live_ids bn)
  /\ (forall d l, dep_to_nodes bn !! d = Some l ->
        NoDup l /\ Forall (fun b => (b < length (boxes bn))%nat) l).

Lemma elem_of_live_ids bn i :
  i ∈ live_ids bn <-> exists box, boxes bn !! box = Some (Some i).
Proof.
  unfold live_ids. rewrite list_elem_of_omap. split.
  - intros (o & Ho & Hid). simpl in Hid. subst o.
    apply list_elem_of_lookup in Ho as [box Hbox]. by exists box.
  - intros [box Hbox]. exists (Some i). split; [|done].
    by eapply list_elem_of_lookup_2.
Qed.

Lemma omap_id_pop (bs : list (option nat)) box i :
  bs !! box = Some (Some i) ->
  omap id bs ≡ₚ i :: omap id (<[box := None]> bs).
Proof.
  revert box. induction bs as [|o bs IH]; intros [|box]; simpl; try done.
  - by intros [= ->].
  - intros Hb. destruct o as [j|]; simpl.
    + rewrite (IH _ Hb). apply Permutation_swap.
    + by apply IH.
Qed.

Lemma live_ids_box_pop bn box i :
  boxes bn !! box = Some (Some i) ->
  live_ids bn ≡ₚ i :: live_ids (box_pop box bn).
Proof. apply omap_id_pop. Qed.

(** *** [BlockedNodes.add] *)

Lemma blocked_add_deps_spec box l bn0 :
  NoDup l ->
  let bn' := foldl (fun bn dep => blocked_add_dep box dep bn) bn0 l in
  boxes bn' = boxes bn0
  /\ (forall k b, b ∈ default [] (name_to_nodes bn' !! k) <->
        b ∈ default [] (name_to_nodes bn0 !! k)
        \/ (b = box /\ exists d, d ∈ l /\ dep_name d = k))
  /\ (forall d, dep_to_nodes bn' !! d
        = if decide (d ∈ l) then Some (default [] (dep_to_nodes bn0 !! d) ++ [box])
          else dep_to_nodes bn0 !! d).
Proof.
  revert bn0. induction l as [|x l IH]; intros bn0 Hnd; simpl.
  - split_and!.
    + done.
    + intros k b. split; [by left|]. intros [?|(_ & d & Hd & _)]; [done|].
      by apply elem_of_nil in Hd.
    + intros d. destruct (decide (d ∈ [])) as [Hd|]; [|done].
      by apply elem_of_nil in Hd.
  - apply NoDup_cons in Hnd as [Hx Hnd].
    destruct (IH (blocked_add_dep box x bn0) Hnd) as (Hb & Hn & Hd). split_and!.
    + by rewrite Hb.
    + intros k b. rewrite Hn. simpl.
      destruct (decide (dep_name x = k)) as [<-|Hne].
      * rewrite lookup_insert_eq. simpl. rewrite elem_of_app, list_elem_of_singleton.
        split.
        -- intros [[?| ->]|(-> & d & Hdl & Hdn)].
           ++ by left.
           ++ right. split; [done|]. exists x. split; [by left|done].
           ++ right. split; [done|]. exists d. split; [by right|done].
        -- intros [?|(-> & d & Hdl & Hdn)]; [by left; left|].
           apply elem_of_cons in Hdl as [->|Hdl]; [by left; right|].
           right. split; [done|]. by exists d.
      * rewrite lookup_insert_ne by done. split.
        -- intros [?|(-> & d & Hdl & Hdn)]; [by left|].
           right. split; [done|]. exists d. split; [by right|done].
        -- intros [?|(-> & d & Hdl & Hdn)]; [by left|].
           apply elem_of_cons in Hdl as [->|Hdl]; [congruence|].
           right. split; [done|]. by exists d.
    + intros d. rewrite Hd. simpl.
      destruct (decide (x = d)) as [<-|Hne].
      * rewrite lookup_insert_eq.
        destruct (decide (x ∈ l)); [done|].
        rewrite decide_True by (by left). done.
      * rewrite lookup_insert_ne by done.
        destruct (decide (d ∈ l)) as [Hin|Hnin].
        -- rewrite decide_True by (by right). done.
        -- rewrite decide_False; [done|]. intros Hin.
           apply elem_of_cons in Hin as [->|Hin]; done.
Qed.

Lemma blocked_add_spec i n bn :
  let bn' := blocked_add i n bn in
  let box := length (boxes bn) in
  boxes bn' = boxes bn ++ [Some i]
  /\ (forall k b, b ∈ default [] (name_to_nodes bn' !! k) <->
        b ∈ default [] (name_to_nodes bn !! k)
        \/ (b = box /\ exists d, d ∈ unmet_dependencies n /\ dep_name d = k))
  /\ (forall d, dep_to_nodes bn' !! d
        = if decide (d ∈ unmet_dependencies n)
          then Some (default [] (dep_to_nodes bn !! d) ++ [box])
          else dep_to_nodes bn !! d).
Proof.
  unfold blocked_add.
  destruct (blocked_add_deps_spec (length (boxes bn))
              (elements (unmet_dependencies n))
              (mkBlockedNodes (boxes bn ++ [Some i]) (name_to_nodes bn) (dep_to_nodes bn))
              (NoDup_elements _)) as (Hb & Hn & Hd).
  cbv zeta. split_and!.
  - by rewrite Hb.
  - intros k b. rewrite Hn. simpl. by setoid_rewrite elem_of_elements.
  - intros d. rewrite Hd. simpl.
    destruct (decide (d ∈ elements (unmet_dependencies n))) as [H|H];
      destruct (decide (d ∈ unmet_dependencies n)) as [H'|H']; try done.
    + by apply elem_of_elements in H.
    + by apply elem_of_elements in H'.
Qed.

Lemma live_ids_blocked_add i n bn :
  live_ids (blocked_add i n bn) = live_ids bn ++ [i].
Proof.
  unfold live_ids. destruct (blocked_add_spec i n bn) as (-> & _).
  by rewrite omap_app.
Qed.

Lemma blocked_add_inv objs avail bn i n :
  blocked_inv objs avail bn ->
  objs !! i = Some n ->
  unmet_dependencies n <> ∅ ->
  (forall d, d ∈ unmet_dependencies n -> dep_name d ∉ avail) ->
  i ∉ live_ids bn ->
  blocked_inv objs avail (blocked_add i n bn).
Proof.
  intros (Hfresh & Hnd & Hlists) Hn Hne Hav Hi.
  destruct (blocked_add_spec i n bn) as (Hb & Hreg & Hdep). cbv zeta in *.
  split_and!.
  - intros box j. rewrite Hb. intros Hbox.
    destruct (decide (box < length (boxes bn))%nat) as [Hlt|Hge].
    + rewrite lookup_app_l in Hbox by done.
      destruct (Hfresh _ _ Hbox) as (nj & Hnj & Hnej & Hd).
      exists nj. split_and!; try done. intros d Hdj.
      destruct (Hd d Hdj) as [? Hr]. split; [done|].
      unfold registered. apply Hreg. by left.
    + rewrite lookup_app_r in Hbox by lia.
      destruct (box - length (boxes bn))%nat as [|k] eqn:Hk; simpl in Hbox; [|done].
      injection Hbox as <-. exists n. split_and!; try done.
      intros d Hd. split; [by apply Hav|]. unfold registered. apply Hreg.
      right. split; [lia|]. by exists d.
  - rewrite live_ids_blocked_add. apply NoDup_app. split_and!; [done| |apply NoDup_singleton].
    intros x Hx Hx'. apply list_elem_of_singleton in Hx'. by subst.
  - intros d l. rewrite Hdep, Hb, length_app. simpl.
    destruct (decide (d ∈ unmet_dependencies n)) as [Hd|Hd].
    + intros [= <-]. destruct (dep_to_nodes bn !! d) as [l0|] eqn:Hl0; simpl.
      * destruct (Hlists _ _ Hl0) as [Hnd0 Hb0]. split.
        -- apply NoDup_app. split_and!; [done| |apply NoDup_singleton].
           intros x Hx Hx'. apply list_elem_of_singleton in Hx'. subst x.
           rewrite Forall_forall in Hb0. specialize (Hb0 _ Hx). lia.
        -- apply Forall_app. split.
           ++ eapply Forall_impl; [exact Hb0|]. simpl. intros; lia.
           ++ apply Forall_singleton. lia.
      * split; [apply NoDup_singleton|]. apply Forall_singleton. lia.
    + intros Hl. destruct (Hlists _ _ Hl) as [Hnd0 Hb0]. split; [done|].
      eapply Forall_impl; [exact Hb0|]. simpl. intros; lia.
Qed.

End BlockedFacts.

(** ** BlockedNodes.pop_name and pruning *)

Section BarrierFacts.
Import Sched.

(** *** [BlockedNodes.pop_name] *)

Lemma pop_fold_spec (w : list nat) acc bn0 :
  exists p bn1,
    foldl (fun st box => pop_if_live box st) (acc, bn0) w = (acc ++ p, bn1)
    /\ live_ids bn0 ≡ₚ p ++ live_ids bn1
    /\ length (boxes bn1) = length (boxes bn0)
    /\ name_to_nodes bn1 = name_to_nodes bn0
    /\ dep_to_nodes bn1 = dep_to_nodes bn0
    /\ (forall b i, boxes bn1 !! b = Some (Some i) <->
          boxes bn0 !! b = Some (Some i) /\ b ∉ w).
Proof.
  revert acc bn0. induction w as [|x w IH]; intros acc bn0; simpl.
  - exists [], bn0. rewrite app_nil_r. split_and!; [done..|].
    intros b i. split; [|by intros [? _]]. intros H. split; [done|].
    apply not_elem_of_nil.
  - destruct (boxes bn0 !! x) as [[j|]|] eqn:Hx.
    + assert (pop_if_live x (acc, bn0) = (acc ++ [j], box_pop x bn0)) as ->
        by (unfold pop_if_live; simpl; by rewrite Hx).
      destruct (IH (acc ++ [j]) (box_pop x bn0))
        as (p & bn1 & Hp & Hperm & Hlen & Hn & Hd & Hb).
      exists (j :: p), bn1. split_and!.
      * rewrite Hp. by rewrite <- app_assoc.
      * rewrite (live_ids_box_pop _ _ _ Hx), Hperm. done.
      * rewrite Hlen. simpl. apply length_insert.
      * by rewrite Hn.
      * by rewrite Hd.
      * intros b i. rewrite Hb. simpl. rewrite not_elem_of_cons.
        destruct (decide (b = x)) as [->|Hne].
        -- rewrite list_lookup_insert_eq by (by eapply lookup_lt_Some).
           split; [by intros [? _] | by intros [_ [? _]]].
        -- rewrite list_lookup_insert_ne by done. naive_solver.
    + assert (pop_if_live x (acc, bn0) = (acc, bn0)) as ->
        by (unfold pop_if_live; simpl; by rewrite Hx).
      destruct (IH acc bn0) as (p & bn1 & Hp & Hperm & Hlen & Hn & Hd & Hb).
      exists p, bn1. split_and!; [done..|].
      intros b i. rewrite Hb, not_elem_of_cons. split; [|naive_solver].
      intros [Hbi Hw]. split_and!; [done| |done]. intros ->. congruence.
    + assert (pop_if_live x (acc, bn0) = (acc, bn0)) as ->
        by (unfold pop_if_live; simpl; by rewrite Hx).
      destruct (IH acc bn0) as (p & bn1 & Hp & Hperm & Hlen & Hn & Hd & Hb).
      exists p, bn1. split_and!; [done..|].
      intros b i. rewrite Hb, not_elem_of_cons. split; [|naive_solver].
      intros [Hbi Hw]. split_and!; [done| |done]. intros ->. congruence.
Qed.

Lemma pop_name_spec nm bn :
  exists popped bn',
    pop_name nm bn = (popped, bn')
    /\ live_ids bn ≡ₚ popped ++ live_ids bn'
    /\ length (boxes bn') = length (boxes bn)
    /\ name_to_nodes bn' = delete nm (name_to_nodes bn)
    /\ dep_to_nodes bn' = dep_to_nodes bn
    /\ (forall b i, boxes bn' !! b = Some (Some i) <->
          boxes bn !! b = Some (Some i)
          /\ b ∉ default [] (name_to_nodes bn !! nm)).
Proof.
  unfold pop_name.
  destruct (pop_fold_spec (default [] (name_to_nodes bn !! nm)) []
              (mkBlockedNodes (boxes bn) (delete nm (name_to_nodes bn)) (dep_to_nodes bn)))
    as (p & bn1 & Hp & Hperm & Hlen & Hn & Hd & Hb).
  exists p, bn1. simpl in *. split_and!; done.
Qed.

Lemma pop_name_inv objs avail bn nm :
  blocked_inv objs avail bn ->
  blocked_inv objs (avail ∪ {[ nm ]}) (pop_name nm bn).2.
Proof.
  intros (Hfresh & Hnd & Hlists).
  destruct (pop_name_spec nm bn) as (popped & bn' & -> & Hperm & Hlen & Hn & Hd & Hb).
  simpl. split_and!.
  - intros box i Hbox. apply Hb in Hbox as [Hbox Hw].
    destruct (Hfresh _ _ Hbox) as (n & Hi & Hne & Hdeps).
    exists n. split_and!; try done. intros d Hdn.
    destruct (Hdeps d Hdn) as [Hav Hreg].
    assert (dep_name d <> nm) as Hnm.
    { intros <-. by apply Hw. }
    split; [set_solver|]. unfold registered. rewrite Hn.
    by rewrite lookup_delete_ne.
  - rewrite Hperm in Hnd. by apply NoDup_app in Hnd as (_ & _ & ?).
  - intros d l. rewrite Hd, Hlen. apply Hlists.
Qed.

(** *** Node objects whose unmet dependencies have shrunk *)

(** [n'] is [n] with some unmet dependencies removed. *)
Definition refines (n n' : SchedulerNode) : Prop :=
  exists u, n' = set_unmet_dependencies u n /\ u ⊆ unmet_dependencies n.

Lemma refines_refl n : refines n n.
Proof. exists (unmet_dependencies n). split; [by destruct n | done]. Qed.

Lemma refines_trans n1 n2 n3 : refines n1 n2 -> refines n2 n3 -> refines n1 n3.
Proof.
  intros (u & -> & Hu) (u' & -> & Hu'). exists u'. split; [by destruct n1|].
  simpl in Hu'. set_solver.
Qed.

Lemma refines_prune avail n : refines n (prune_deps avail n).
Proof.
  eexists. split; [reflexivity|]. intros d Hd. by apply elem_of_filter in Hd as [_ ?].
Qed.

Lemma objs_refine_insert objs i n n' :
  objs !! i = Some n -> refines n n' ->
  Forall2 refines objs (<[i := n']> objs).
Proof.
  intros Hi Hr. apply Forall2_same_length_lookup. split; [by rewrite length_insert|].
  intros j x y Hx Hy. destruct (decide (i = j)) as [->|Hne].
  - rewrite list_lookup_insert_eq in Hy by (by eapply lookup_lt_Some). congruence.
  - rewrite list_lookup_insert_ne in Hy by done.
    assert (x = y) as -> by congruence. apply refines_refl.
Qed.

#[export] Instance refines_reflexive : Reflexive refines.
Proof. intros n. apply refines_refl. Qed.

#[export] Instance refines_transitive : Transitive refines.
Proof. intros n1 n2 n3. apply refines_trans. Qed.

Lemma blocked_inv_refine objs objs' avail bn :
  blocked_inv objs avail bn ->
  Forall2 refines objs objs' ->
  (forall i, i ∈ live_ids bn -> objs' !! i = objs !! i) ->
  blocked_inv objs' avail bn.
Proof.
  intros (Hfresh & Hnd & Hlists) Href Hsame. split_and!; [|done|done].
  intros box i Hbox. destruct (Hfresh _ _ Hbox) as (n & Hi & Hrest).
  exists n. split; [|done]. rewrite Hsame; [done|].
  apply elem_of_live_ids. by exists box.
Qed.

(** [prune_deps] on each of [l], against the available names of [s]. *)
Lemma prune_all_spec l s :
  Forall (fun i => (i < length (objects s))%nat) l ->
  exists s',
    for_each prune_deps_at l s = Some s'
    /\ Forall2 refines (objects s) (objects s')
    /\ (forall j, j ∉ l -> objects s' !! j = objects s !! j)
    /\ (forall j, j ∈ l ->
          exists n, objects s' !! j = Some n
            /\ forall d, d ∈ unmet_dependencies n ->
                 dep_name d ∉ available_buffer_names s)
    /\ same_but_objects s s'
    /\ blocked_nodes s' = blocked_nodes s.
Proof.
  revert s. induction l as [|i l IH]; intros s Hl; simpl.
  - exists s. split_and!; [done..| | |done].
    + intros j Hj. by apply elem_of_nil in Hj.
    + apply same_but_objects_refl.
  - apply Forall_cons in Hl as [Hi Hl].
    apply lookup_lt_is_Some in Hi as [n Hn].
    assert (prune_deps_at i s
            = Some (set_objects (<[i := prune_deps (available_buffer_names s) n]> (objects s)) s))
      as Heq by (unfold prune_deps_at; by rewrite Hn).
    rewrite Heq. simpl.
    set (s1 := set_objects _ s).
    destruct (IH s1) as (s' & Hs' & Href & Hout & Hin & Hfr & Hbn).
    { subst s1. simpl. rewrite length_insert. done. }
    exists s'. split_and!.
    + done.
    + etrans; [|exact Href]. subst s1. simpl.
      apply (objs_refine_insert _ _ n); [done | apply refines_prune].
    + intros j Hj. apply not_elem_of_cons in Hj as [Hji Hjl].
      rewrite (Hout j Hjl). subst s1. simpl. by rewrite list_lookup_insert_ne.
    + intros j Hj. destruct (decide (j ∈ l)) as [Hjl|Hjl]; [by apply Hin|].
      apply elem_of_cons in Hj as [->|Hj]; [|done].
      rewrite (Hout i Hjl). subst s1. simpl.
      rewrite list_lookup_insert_eq by (by eapply lookup_lt_Some).
      eexists. split; [done|]. intros d Hd. simpl in Hd.
      by apply elem_of_filter in Hd as [? _].
    + eapply same_but_objects_trans; [|exact Hfr]. subst s1.
      repeat split. simpl. apply length_insert.
    + by rewrite Hbn.
Qed.

End BarrierFacts.

(** ** Scheduler.enqueue and the runnable pools *)

Section EnqueueFacts.
Import Sched.

(** ** The runnable pools *)

(** The nodes filed in [runable_nodes], over all groups. *)
Definition flat (m : gmap Group (list nat)) : list nat :=
  map_to_list m ≫= snd.

Lemma flat_empty : flat ∅ = [].
Proof. unfold flat. by rewrite map_to_list_empty. Qed.

Lemma elem_of_flat m i :
  i ∈ flat m <-> exists g l, m !! g = Some l /\ i ∈ l.
Proof.
  unfold flat. rewrite list_elem_of_bind. split.
  - intros ([g l] & Hi & Hgl). apply elem_of_map_to_list in Hgl. by exists g, l.
  - intros (g & l & Hgl & Hi). exists (g, l). split; [done|].
    by apply elem_of_map_to_list.
Qed.

Lemma flat_insert_None m g l :
  m !! g = None -> flat (<[g := l]> m) ≡ₚ l ++ flat m.
Proof. intros H. unfold flat. by rewrite (map_to_list_insert _ _ _ H). Qed.

Lemma flat_delete m g l :
  m !! g = Some l -> flat m ≡ₚ l ++ flat (delete g m).
Proof. intros H. unfold flat. by rewrite <- (map_to_list_delete _ _ _ H). Qed.

Lemma flat_insert_snoc m g i :
  flat (<[g := default [] (m !! g) ++ [i]]> m) ≡ₚ i :: flat m.
Proof.
  destruct (m !! g) as [l|] eqn:Hg; simpl.
  - rewrite <- insert_delete_eq.
    rewrite flat_insert_None by apply lookup_delete_eq.
    rewrite (flat_delete _ _ _ Hg).
    rewrite <- (Permutation_cons_append l i). done.
  - by rewrite flat_insert_None.
Qed.

Lemma elem_of_counter_incr g g' d :
  g' ∈ (counter_incr g d).*1 <-> g' = g \/ g' ∈ d.*1.
Proof.
  induction d as [|[k c] d IH]; simpl.
  - rewrite list_elem_of_singleton. split; [by left|].
    intros [?|H]; [done|]. by apply elem_of_nil in H.
  - destruct (decide (k = g)) as [->|Hne]; simpl.
    + rewrite !elem_of_cons. naive_solver.
    + rewrite !elem_of_cons, IH. naive_solver.
Qed.

Lemma elem_of_counter_pop g g' d :
  g' ∈ (counter_pop g d).*1 <-> g' <> g /\ g' ∈ d.*1.
Proof.
  unfold counter_pop. rewrite !list_elem_of_fmap. split.
  - intros ([k c] & -> & Hin). apply list_elem_of_filter in Hin as [Hne Hin].
    split; [done|]. by exists (k, c).
  - intros [Hne ([k c] & -> & Hin)]. exists (k, c). split; [done|].
    by apply list_elem_of_filter.
Qed.

(** The two counters have a group as key exactly when [runable_nodes] has
    it, the list of a group is not empty, and its nodes are objects of that
    group. *)
Definition runable_inv (s : Scheduler) : Prop :=
  (forall g, is_Some (runable_nodes s !! g) <->
     g ∈ (runable_reduction_groups s).*1 \/ g ∈ (runable_pointwise_groups s).*1)
  /\ (forall g l, runable_nodes s !! g = Some l ->
        l <> [] /\ forall i, i ∈ l -> exists n, objects s !! i = Some n /\ group n = g).

Lemma enqueue_node_inv s i n :
  blocked_inv (objects s) (available_buffer_names s) (blocked_nodes s) ->
  runable_inv s ->
  objects s !! i = Some n ->
  (forall d, d ∈ unmet_dependencies n -> dep_name d ∉ available_buffer_names s) ->
  i ∉ live_ids (blocked_nodes s) ->
  exists s',
    enqueue_node i s = Some s'
    /\ same_core s s'
    /\ blocked_inv (objects s') (available_buffer_names s') (blocked_nodes s')
    /\ runable_inv s'
    /\ flat (runable_nodes s') ++ live_ids (blocked_nodes s')
       ≡ₚ i :: flat (runable_nodes s) ++ live_ids (blocked_nodes s)
    /\ (forall x, x ∈ live_ids (blocked_nodes s') ->
          x = i \/ x ∈ live_ids (blocked_nodes s)).
Proof.
  intros Hblk [Hdom Hlists] Hn Hpruned Hi. unfold enqueue_node. rewrite Hn. simpl.
  case_bool_decide as Hne.
  - eexists. split; [done|]. split_and!.
    + by repeat split.
    + simpl. by apply blocked_add_inv.
    + done.
    + simpl. rewrite live_ids_blocked_add.
      rewrite app_assoc. rewrite <- Permutation_cons_append. done.
    + simpl. intros x. rewrite live_ids_blocked_add, elem_of_app, list_elem_of_singleton.
      naive_solver.
  - assert (Hrun : forall s1,
      objects s1 = objects s ->
      runable_nodes s1
      = <[group n := default [] (runable_nodes s !! group n) ++ [i]]> (runable_nodes s) ->
      ((runable_reduction_groups s1 = counter_incr (group n) (runable_reduction_groups s)
        /\ runable_pointwise_groups s1 = runable_pointwise_groups s)
       \/ (runable_pointwise_groups s1 = counter_incr (group n) (runable_pointwise_groups s)
           /\ runable_reduction_groups s1 = runable_reduction_groups s)) ->
      runable_inv s1).
    { intros s1 Ho Hr Hc. split.
      - intros g. rewrite Hr.
        destruct (decide (group n = g)) as [<-|Hg].
        + rewrite lookup_insert_eq. split; [|by eexists]. intros _.
          destruct Hc as [[-> ->]|[-> ->]].
          * left. apply elem_of_counter_incr. by left.
          * right. apply elem_of_counter_incr. by left.
        + rewrite lookup_insert_ne by done. rewrite Hdom.
          destruct Hc as [[-> ->]|[-> ->]]; rewrite elem_of_counter_incr; naive_solver.
      - intros g l. rewrite Hr, Ho.
        destruct (decide (group n = g)) as [<-|Hg].
        + rewrite lookup_insert_eq. intros [= <-]. split.
          * intros H. by apply app_eq_nil in H as [_ ?].
          * intros x Hx. apply elem_of_app in Hx as [Hx|Hx].
            -- destruct (runable_nodes s !! group n) as [l0|] eqn:Hl0; simpl in Hx.
               ++ by apply (proj2 (Hlists _ _ Hl0)).
               ++ by apply elem_of_nil in Hx.
            -- apply list_elem_of_singleton in Hx as ->. by exists n.
        + rewrite lookup_insert_ne by done. apply Hlists. }
    destruct (is_reduction n); eexists; (split; [done|]); split_and!.
    + by repeat split.
    + done.
    + apply Hrun; simpl; [done | done | by left].
    + simpl. by rewrite flat_insert_snoc.
    + simpl. naive_solver.
    + by repeat split.
    + done.
    + apply Hrun; simpl; [done | done | by right].
    + simpl. by rewrite flat_insert_snoc.
    + simpl. naive_solver.
Qed.

Lemma enqueue_inv l s :
  blocked_inv (objects s) (available_buffer_names s) (blocked_nodes s) ->
  runable_inv s ->
  NoDup l ->
  (forall i, i ∈ l ->
     (i ∉ live_ids (blocked_nodes s))
     /\ exists n, objects s !! i = Some n
          /\ forall d, d ∈ unmet_dependencies n ->
               dep_name d ∉ available_buffer_names s) ->
  exists s',
    enqueue l s = Some s'
    /\ same_core s s'
    /\ blocked_inv (objects s') (available_buffer_names s') (blocked_nodes s')
    /\ runable_inv s'
    /\ flat (runable_nodes s') ++ live_ids (blocked_nodes s')
       ≡ₚ l ++ flat (runable_nodes s) ++ live_ids (blocked_nodes s).
Proof.
  unfold enqueue. revert s. induction l as [|i l IH]; intros s Hblk Hrun Hnd Hl; simpl.
  - exists s. split_and!; [done | apply same_core_refl | done..].
  - apply NoDup_cons in Hnd as [Hil Hnd].
    destruct (Hl i) as [Hi (n & Hn & Hpr)]; [by left|].
    destruct (enqueue_node_inv s i n Hblk Hrun Hn Hpr Hi)
      as (s1 & Hs1 & Hcore & Hblk1 & Hrun1 & Hperm1 & Hlive1).
    rewrite Hs1. simpl.
    destruct (IH s1 Hblk1 Hrun1 Hnd) as (s' & Hs' & Hcore' & Hblk' & Hrun' & Hperm').
    { intros j Hj. destruct (Hl j) as [Hjl (nj & Hnj & Hprj)]; [by right|].
      destruct Hcore as (Ho & _ & _ & _ & Ha & _). split.
      - intros Hin. apply Hlive1 in Hin as [->|Hin]; done.
      - exists nj. rewrite Ho, Ha. done. }
    exists s'. split_and!; [done | by eapply same_core_trans | done..|].
    rewrite Hperm', Hperm1. by rewrite <- Permutation_middle.
Qed.

End EnqueueFacts.

(** ** Scheduler.barrier *)

Section BarrierLoop.
Import Sched.

Lemma refines_lookup objs objs' i n :
  Forall2 refines objs objs' -> objs !! i = Some n ->
  exists n', objs' !! i = Some n' /\ refines n n'.
Proof.
  intros Href Hi. destruct (Forall2_lookup_l _ _ _ _ _ Href Hi) as (n' & ? & ?).
  by exists n'.
Qed.

Lemma refines_lookup_r objs objs' i n' :
  Forall2 refines objs objs' -> objs' !! i = Some n' ->
  exists n, objs !! i = Some n /\ refines n n'.
Proof.
  intros Href Hi. destruct (Forall2_lookup_r _ _ _ _ _ Href Hi) as (n & ? & ?).
  by exists n.
Qed.

Lemma refines_group n n' : refines n n' -> group n' = group n.
Proof. by intros (u & -> & _). Qed.

Lemma refines_name n n' : refines n n' -> get_name n' = get_name n.
Proof. by intros (u & -> & _). Qed.

Lemma runable_inv_refine s s' :
  runable_inv s ->
  Forall2 refines (objects s) (objects s') ->
  runable_nodes s' = runable_nodes s ->
  runable_reduction_groups s' = runable_reduction_groups s ->
  runable_pointwise_groups s' = runable_pointwise_groups s ->
  runable_inv s'.
Proof.
  intros [Hdom Hlists] Href Hr Hred Hpw. split.
  - intros g. rewrite Hr, Hred, Hpw. apply Hdom.
  - intros g l. rewrite Hr. intros Hl. destruct (Hlists _ _ Hl) as [Hne Hobj].
    split; [done|]. intros i Hi. destruct (Hobj i Hi) as (n & Hn & Hg).
    destruct (refines_lookup _ _ _ _ Href Hn) as (n' & Hn' & Hrn).
    exists n'. split; [done|]. by rewrite (refines_group _ _ Hrn).
Qed.

(** The loop of [barrier] over the pending names, when the names [Q] are
    done: [A] and [P] are the available and the pending names before the
    barrier, [objs0] and [live0] the node objects and the blocked nodes. *)
Definition barrier_loop_inv (objs0 : list SchedulerNode) (live0 : list nat)
  (A P Q : gset string) (st : list nat * Scheduler) : Prop :=
  blocked_inv (objects st.2) (A ∪ Q) (blocked_nodes st.2)
  /\ available_buffer_names st.2 = A ∪ P
  /\ NoDup st.1
  /\ (forall x, x ∈ st.1 -> x ∉ live_ids (blocked_nodes st.2))
  /\ (forall x, x ∈ st.1 ->
        exists n, objects st.2 !! x = Some n
          /\ forall d, d ∈ unmet_dependencies n -> dep_name d ∉ A ∪ P)
  /\ Forall2 refines objs0 (objects st.2)
  /\ st.1 ++ live_ids (blocked_nodes st.2) ≡ₚ live0.

Lemma barrier_name_inv objs0 live0 A P Q nm st :
  barrier_loop_inv objs0 live0 A P Q st ->
  exists st',
    barrier_name nm st = Some st'
    /\ barrier_loop_inv objs0 live0 A P (Q ∪ {[ nm ]}) st'.
Proof.
  intros (Hblk & Hav & Hnd & Hdisj & Hpr & Href & Hperm).
  unfold barrier_name.
  destruct (pop_name_spec nm (blocked_nodes st.2))
    as (popped & bn' & Hpop & Hlive & Hlen & Hn & Hd & Hb).
  pose proof (pop_name_inv _ _ _ nm Hblk) as Hblk'.
  rewrite Hpop in Hblk' |- *. simpl in Hblk'.
  assert (Hndlive : NoDup (popped ++ live_ids bn')).
  { rewrite <- Hlive. by destruct Hblk as (_ & ? & _). }
  apply NoDup_app in Hndlive as (Hndp & Hpl & Hndl).
  assert (Hpopped_live : forall x, x ∈ popped -> x ∈ live_ids (blocked_nodes st.2)).
  { intros x Hx. rewrite Hlive. apply elem_of_app. by left. }
  destruct (prune_all_spec popped (set_blocked_nodes bn' st.2))
    as (s2 & Hs2 & Href2 & Hout & Hin & Hfr & Hbn).
  { apply Forall_forall. intros x Hx. simpl.
    apply Hpopped_live, elem_of_live_ids in Hx as [box Hbox].
    destruct Hblk as (Hfresh & _). destruct (Hfresh _ _ Hbox) as (n & Hnx & _).
    by eapply lookup_lt_Some. }
  rewrite Hs2. simpl. eexists. split; [done|]. simpl in *.
  destruct Hfr as (_&_&_&_&_&_&_&Hav2&_).
  split_and!; simpl.
  - rewrite Hbn. simpl. rewrite (assoc_L (∪)).
    eapply blocked_inv_refine; [exact Hblk' | exact Href2 |].
    intros i Hi. apply Hout. intros Hip. by apply (Hpl i).
  - by rewrite Hav2.
  - apply NoDup_app. split_and!; [done| |done].
    intros x Hx Hxp. by apply (Hdisj x), Hpopped_live.
  - rewrite Hbn. simpl. intros x Hx Hxl. apply elem_of_app in Hx as [Hx|Hx].
    + apply (Hdisj x Hx). rewrite Hlive. apply elem_of_app. by right.
    + by apply (Hpl x).
  - intros x Hx. apply elem_of_app in Hx as [Hx|Hx].
    + rewrite Hout.
      * apply Hpr, Hx.
      * intros Hxp. by apply (Hdisj x), Hpopped_live.
    + destruct (Hin x Hx) as (n & Hnx & Hprx). exists n. split; [done|].
      intros d Hdn. rewrite <- Hav. by apply Hprx.
  - etrans; [exact Href | exact Href2].
  - rewrite Hbn. simpl. rewrite <- Hperm, Hlive. by rewrite <- app_assoc.
Qed.

Lemma barrier_loop_inv_steps objs0 live0 A P nl Q st :
  barrier_loop_inv objs0 live0 A P Q st ->
  exists st',
    for_each barrier_name nl st = Some st'
    /\ barrier_loop_inv objs0 live0 A P (Q ∪ list_to_set nl) st'.
Proof.
  revert Q st. induction nl as [|nm nl IH]; intros Q st Hinv; simpl.
  - exists st. split; [done|]. by rewrite (right_id_L ∅ (∪)).
  - destruct (barrier_name_inv _ _ _ _ _ nm _ Hinv) as (st1 & -> & Hinv1). simpl.
    destruct (IH _ _ Hinv1) as (st' & Hst' & Hinv'). exists st'. split; [done|].
    by rewrite (assoc_L (∪)).
Qed.

(** *** [barrier] *)

Lemma barrier_spec s :
  blocked_inv (objects s) (available_buffer_names s) (blocked_nodes s) ->
  runable_inv s ->
  exists s',
    barrier s = Some s'
    /\ blocked_inv (objects s') (available_buffer_names s') (blocked_nodes s')
    /\ runable_inv s'
    /\ Forall2 refines (objects s) (objects s')
    /\ available_buffer_names s'
       = available_buffer_names s ∪ pending_buffer_names s
    /\ pending_buffer_names s' = ∅
    /\ flat (runable_nodes s') ++ live_ids (blocked_nodes s')
       ≡ₚ flat (runable_nodes s) ++ live_ids (blocked_nodes s)
    /\ run_count s' = run_count s
    /\ nodes s' = nodes s
    /\ kernels s' = kernels s
    /\ fusable_deps s' = fusable_deps s
    /\ graph s' = graph s
    /\ emitted s' = emitted s.
Proof.
  intros Hblk Hrun. unfold barrier.
  set (A := available_buffer_names s). set (P := pending_buffer_names s).
  set (s1 := set_available_buffer_names (A ∪ P) s).
  destruct (barrier_loop_inv_steps (objects s) (live_ids (blocked_nodes s)) A P
              (elements P) ∅ ([], s1)) as (st & Hst & Hinv).
  { split_and!; simpl; try done.
    - by rewrite (right_id_L ∅ (∪)).
    - apply NoDup_nil_2.
    - intros x Hx. by apply elem_of_nil in Hx.
    - intros x Hx. by apply elem_of_nil in Hx. }
  change (pending_buffer_names s1) with P. rewrite Hst. simpl.
  rewrite (left_id_L ∅ (∪)), list_to_set_elements_L in Hinv.
  destruct Hinv as (Hblk' & Hav & Hnd & Hdisj & Hpr & Href & Hperm).
  pose proof (barrier_loop_frame _ _ _ Hst) as Hfr. simpl in Hfr.
  destruct Hfr as (Hlen&Hred&Hpw&Hrn&Hrc&Hno&Hk&_&Hpe&Hfu&Hg&Hem).
  destruct (enqueue_inv st.1 (set_pending_buffer_names ∅ st.2))
    as (s' & Hs' & Hcore & Hblk2 & Hrun2 & Hperm2).
  - simpl. by rewrite Hav.
  - eapply (runable_inv_refine s); simpl; done.
  - done.
  - simpl. intros i Hi. split; [by apply Hdisj|]. rewrite Hav. by apply Hpr.
  - exists s'. split; [done|].
    destruct Hcore as (Ho&Hrc'&Hno'&Hk'&Hav'&Hpe'&Hfu'&Hg'&Hem'). simpl in *.
    split_and!; try congruence.
    rewrite Hperm2. simpl. rewrite Hrn.
      rewrite (Permutation_app_comm st.1), <- app_assoc.
      rewrite (Permutation_app_comm _ st.1), Hperm. done.
Qed.

End BarrierLoop.

(** ** BlockedNodes.pop_fusable *)

Section PopFusable.
Import Sched.

(** *** [BlockedNodes.pop_fusable] *)

(** An index from which some live boxes were popped and whose lists by
    dependency were filtered is still a good index. *)
Lemma blocked_inv_shrink objs avail bn bn' p :
  blocked_inv objs avail bn ->
  name_to_nodes bn' = name_to_nodes bn ->
  (forall b i, boxes bn' !! b = Some (Some i) -> boxes bn !! b = Some (Some i)) ->
  live_ids bn ≡ₚ p ++ live_ids bn' ->
  (forall d l, dep_to_nodes bn' !! d = Some l ->
     NoDup l /\ Forall (fun b => (b < length (boxes bn'))%nat) l) ->
  blocked_inv objs avail bn'.
Proof.
  intros (Hfresh & Hnd & Hlists) Hn Hb Hperm Hd. split_and!.
  - intros box i Hbox. destruct (Hfresh _ _ (Hb _ _ Hbox)) as (n & Hi & Hne & Hdeps).
    exists n. split_and!; [done..|]. intros d Hdn.
    destruct (Hdeps d Hdn) as [? Hreg]. split; [done|].
    unfold registered in *. by rewrite Hn.
  - rewrite Hperm in Hnd. by apply NoDup_app in Hnd as (_ & _ & ?).
  - done.
Qed.

Lemma pop_fusable_box_eq objs deps grp x acc bn i n :
  boxes bn !! x = Some (Some i) ->
  objs !! i = Some n ->
  pop_fusable_box objs deps grp x (acc, bn)
  = Some (if bool_decide (size (unmet_dependencies n ∖ deps) = 0%nat)
             && bool_decide (group n = grp)
          then (acc ++ [i], box_pop x bn) else (acc, bn)).
Proof.
  intros Hx Hn. unfold pop_fusable_box. simpl. rewrite Hx, Hn. simpl.
  by destruct (_ && _).
Qed.

Lemma pop_fusable_boxes_spec objs deps grp w acc bn :
  NoDup w ->
  (forall b, b ∈ w -> exists i, boxes bn !! b = Some (Some i)) ->
  (forall b i, boxes bn !! b = Some (Some i) -> is_Some (objs !! i)) ->
  exists p bn',
    for_each (pop_fusable_box objs deps grp) w (acc, bn) = Some (acc ++ p, bn')
    /\ live_ids bn ≡ₚ p ++ live_ids bn'
    /\ length (boxes bn') = length (boxes bn)
    /\ name_to_nodes bn' = name_to_nodes bn
    /\ dep_to_nodes bn' = dep_to_nodes bn
    /\ (forall b i, boxes bn' !! b = Some (Some i) -> boxes bn !! b = Some (Some i))
    /\ (forall i, i ∈ p -> exists n, objs !! i = Some n /\ group n = grp).
Proof.
  revert acc bn. induction w as [|x w IH]; intros acc bn Hnd Hlive Hobj; simpl.
  - exists [], bn. rewrite app_nil_r. split_and!; [done..|].
    intros i Hi. by apply elem_of_nil in Hi.
  - apply NoDup_cons in Hnd as [Hxw Hnd].
    destruct (Hlive x) as [i Hx]; [by left|].
    destruct (Hobj _ _ Hx) as [n Hn].
    rewrite (pop_fusable_box_eq _ _ _ _ _ _ _ _ Hx Hn).
    destruct (bool_decide (size (unmet_dependencies n ∖ deps) = 0%nat)
              && bool_decide (group n = grp)) eqn:Hc; simpl.
    + destruct (IH (acc ++ [i]) (box_pop x bn) Hnd)
        as (p & bn' & Hp & Hperm & Hlen & Hnn & Hdd & Hb & Hg).
      { intros b Hb. destruct (Hlive b) as [j Hj]; [by right|]. exists j. simpl.
        rewrite list_lookup_insert_ne; [done|]. intros ->. done. }
      { intros b j. simpl. intros Hbj. destruct (decide (b = x)) as [->|Hne].
        - rewrite list_lookup_insert_eq in Hbj by (by eapply lookup_lt_Some). done.
        - rewrite list_lookup_insert_ne in Hbj by done. by eapply Hobj. }
      exists (i :: p), bn'. split_and!.
      * rewrite Hp. by rewrite <- app_assoc.
      * rewrite (live_ids_box_pop _ _ _ Hx), Hperm. done.
      * rewrite Hlen. simpl. apply length_insert.
      * by rewrite Hnn.
      * by rewrite Hdd.
      * intros b j Hbj. specialize (Hb _ _ Hbj). simpl in Hb.
        destruct (decide (b = x)) as [->|Hne].
        -- rewrite list_lookup_insert_eq in Hb by (by eapply lookup_lt_Some). done.
        -- by rewrite list_lookup_insert_ne in Hb.
      * intros j Hj. apply elem_of_cons in Hj as [->|Hj]; [|by apply Hg].
        exists n. split; [done|]. apply andb_true_iff in Hc as [_ Hc].
        by apply bool_decide_eq_true in Hc.
    + destruct (IH acc bn Hnd) as (p & bn' & Hp & Hrest).
      { intros b Hb. apply Hlive. by right. }
      { done. }
      exists p, bn'. by split.
Qed.

Lemma pop_fusable_dep_spec objs avail deps grp dep acc bn :
  blocked_inv objs avail bn ->
  exists p bn',
    pop_fusable_dep objs deps grp dep (acc, bn) = Some (acc ++ p, bn')
    /\ blocked_inv objs avail bn'
    /\ live_ids bn ≡ₚ p ++ live_ids bn'
    /\ (forall i, i ∈ p -> exists n, objs !! i = Some n /\ group n = grp).
Proof.
  intros Hblk. pose proof Hblk as (Hfresh & Hnd & Hlists).
  unfold pop_fusable_dep. simpl.
  set (l := default [] (dep_to_nodes bn !! dep)).
  set (live := List.filter (box_live bn) l).
  set (bn1 := mkBlockedNodes (boxes bn) (name_to_nodes bn) (<[dep := live]> (dep_to_nodes bn))).
  assert (Hl : NoDup l /\ Forall (fun b => (b < length (boxes bn))%nat) l).
  { subst l. destruct (dep_to_nodes bn !! dep) as [l0|] eqn:Hl0; simpl.
    - by apply Hlists in Hl0.
    - split; [apply NoDup_nil_2 | apply Forall_nil_2]. }
  destruct Hl as [Hndl Hbl].
  assert (Hlive_in : forall b, b ∈ live <-> b ∈ l /\ box_live bn b = true).
  { intros b. subst live. rewrite !list_elem_of_In. apply filter_In. }
  assert (Hndlive : NoDup live).
  { subst live. apply NoDup_ListNoDup, List.NoDup_filter. by apply NoDup_ListNoDup. }
  destruct (pop_fusable_boxes_spec objs deps grp live acc bn1 Hndlive)
    as (p & bn' & Hp & Hperm & Hlen & Hn & Hd & Hb & Hg).
  { intros b Hbl'. apply Hlive_in in Hbl' as [_ Hbl']. unfold box_live in Hbl'.
    simpl. destruct (boxes bn !! b) as [[i|]|]; [by exists i | done | done]. }
  { simpl. intros b i Hbi. destruct (Hfresh _ _ Hbi) as (n & -> & _). by eexists. }
  exists p, bn'. split; [done|]. split; [|done].
  apply (blocked_inv_shrink objs avail bn bn' p Hblk); [done | done | done |].
  intros d l'. rewrite Hd, Hlen. simpl.
  destruct (decide (dep = d)) as [<-|Hne].
  - rewrite lookup_insert_eq. intros [= <-]. split; [done|].
    apply Forall_forall. intros b Hbin. apply Hlive_in in Hbin as [Hbin _].
    rewrite Forall_forall in Hbl. by apply Hbl.
  - rewrite lookup_insert_ne by done. apply Hlists.
Qed.

Lemma pop_fusable_deps_spec objs avail deps grp dl acc bn :
  blocked_inv objs avail bn ->
  exists p bn',
    for_each (pop_fusable_dep objs deps grp) dl (acc, bn) = Some (acc ++ p, bn')
    /\ blocked_inv objs avail bn'
    /\ live_ids bn ≡ₚ p ++ live_ids bn'
    /\ (forall i, i ∈ p -> exists n, objs !! i = Some n /\ group n = grp).
Proof.
  revert acc bn. induction dl as [|dep dl IH]; intros acc bn Hblk; simpl.
  - exists [], bn. rewrite app_nil_r. split_and!; [done..|].
    intros i Hi. by apply elem_of_nil in Hi.
  - destruct (pop_fusable_dep_spec objs avail deps grp dep acc bn Hblk)
      as (p1 & bn1 & -> & Hblk1 & Hperm1 & Hg1). simpl.
    destruct (IH (acc ++ p1) bn1 Hblk1) as (p2 & bn2 & Hp2 & Hblk2 & Hperm2 & Hg2).
    exists (p1 ++ p2), bn2. split_and!.
    + by rewrite Hp2, <- app_assoc.
    + done.
    + by rewrite Hperm1, Hperm2, <- app_assoc.
    + intros i Hi. apply elem_of_app in Hi as [Hi|Hi]; [by apply Hg1 | by apply Hg2].
Qed.

Lemma pop_fusable_spec objs avail deps grp bn :
  blocked_inv objs avail bn ->
  exists popped bn',
    pop_fusable objs deps grp bn = Some (popped, bn')
    /\ blocked_inv objs avail bn'
    /\ live_ids bn ≡ₚ popped ++ live_ids bn'
    /\ (forall i, i ∈ popped -> exists n, objs !! i = Some n /\ group n = grp).
Proof.
  intros Hblk. unfold pop_fusable.
  destruct (pop_fusable_deps_spec objs avail deps grp (elements deps) [] bn Hblk)
    as (p & bn' & Hp & Hrest).
  exists p, bn'. by split.
Qed.

End PopFusable.

(** ** Reachable scheduler states *)

Section Reachable.
Import Sched.

Variable group_fn : list Expr -> list Expr.
Variable get_read_writes : ComputedBuffer -> ReadWrites.

Lemma pop_runable_inv grp s :
  runable_inv s -> runable_inv (pop_runable grp s).
Proof.
  intros [Hdom Hlists]. split; simpl.
  - intros g. rewrite !elem_of_counter_pop. destruct (decide (g = grp)) as [->|Hne].
    + rewrite lookup_delete_eq. split; [by intros [? ?] | naive_solver].
    + rewrite lookup_delete_ne by done. rewrite Hdom. naive_solver.
  - intros g l. destruct (decide (g = grp)) as [->|Hne].
    + by rewrite lookup_delete_eq.
    + rewrite lookup_delete_ne by done. apply Hlists.
Qed.

Lemma blocked_inv_empty objs avail :
  blocked_inv objs avail (mkBlockedNodes [] ∅ ∅).
Proof.
  split_and!; simpl.
  - intros box i H. by rewrite lookup_nil in H.
  - apply NoDup_nil_2.
  - intros d l H. by rewrite lookup_empty in H.
Qed.

Lemma new_SchedulerNode_pruned avail nd d :
  d ∈ unmet_dependencies (new_SchedulerNode group_fn get_read_writes avail nd) ->
  (dep_name d ∉ avail) /\ d ∈ reads (get_read_writes nd).
Proof.
  unfold new_SchedulerNode. simpl. intros Hd.
  apply elem_of_filter in Hd as [? ?]. done.
Qed.

(** The state in which [__init__] calls [compute_users]. *)
Definition init_state (g : GraphLowering) (nds : list ComputedBuffer) : Scheduler :=
  mkScheduler (new_SchedulerNode group_fn get_read_writes (dom (graph_inputs g)) <$> nds)
    (mkBlockedNodes [] ∅ ∅) [] [] ∅ 0%nat
    (seq 0 (length nds)) [] (dom (graph_inputs g)) ∅ ∅ g [].

Lemma new_Scheduler_eq g nds :
  new_Scheduler group_fn get_read_writes g nds
  = compute_users (init_state g nds) ≫= fun s1 => enqueue (nodes s1) s1.
Proof. done. Qed.

Lemma init_state_nodes g nds :
  nodes (init_state g nds) = seq 0 (length (objects (init_state g nds))).
Proof. simpl. by rewrite length_fmap. Qed.

(** After the consumers are computed every object is the object
    [__init__] built, with its users. *)
Lemma compute_users_objects s s' i n :
  nodes s = seq 0 (length (objects s)) ->
  compute_users s = Some s' ->
  objects s !! i = Some n ->
  exists u, objects s' !! i = Some (set_users u n).
Proof.
  intros Hnodes Hcu Hn.
  destruct (compute_users_spec _ _ Hnodes Hcu) as ([ntu (_ & Ha & _)] & _).
  destruct (Ha i n Hn) as (u & Hu & _). by exists u.
Qed.

Lemma compute_users_objects_r s s' i n' :
  nodes s = seq 0 (length (objects s)) ->
  compute_users s = Some s' ->
  objects s' !! i = Some n' ->
  exists n u, objects s !! i = Some n /\ n' = set_users u n.
Proof.
  intros Hnodes Hcu Hn'.
  destruct (compute_users_spec _ _ Hnodes Hcu) as ([ntu (Hlen & Ha & _)] & _).
  simpl in Hlen.
  assert (is_Some (objects s !! i)) as [n Hn].
  { apply lookup_lt_is_Some. rewrite <- Hlen. by eapply lookup_lt_Some. }
  destruct (Ha i n Hn) as (u & Hu & _). exists n, u. split; [done|].
  simpl in Hu. congruence.
Qed.

Lemma new_Scheduler_inv g nds s :
  new_Scheduler group_fn get_read_writes g nds = Some s ->
  blocked_inv (objects s) (available_buffer_names s) (blocked_nodes s)
  /\ runable_inv s.
Proof.
  rewrite new_Scheduler_eq.
  destruct (compute_users (init_state g nds)) as [s1|] eqn:Hcu; simpl; [|done].
  intros Henq.
  pose proof (init_state_nodes g nds) as Hnodes.
  destruct (compute_users_spec _ _ Hnodes Hcu) as (_ & _ & Hact & _ & Hfr).
  destruct Hfr as (Hbn & Hred & Hpw & Hrn & _ & _ & Hav & _).
  destruct (enqueue_inv (nodes s1) s1) as (s' & Hs' & _ & Hblk & Hrun & _).
  - rewrite Hbn. apply blocked_inv_empty.
  - split.
    + intros g0. rewrite Hrn, Hred, Hpw. simpl. rewrite lookup_empty.
      split; [by intros [? ?] | by intros [H|H]; apply elem_of_nil in H].
    + intros g0 l. rewrite Hrn. simpl. by rewrite lookup_empty.
  - rewrite Hact. apply NoDup_filter, NoDup_seq.
  - intros i Hi. split.
    + rewrite Hbn. simpl. apply not_elem_of_nil.
    + rewrite Hact in Hi. apply list_elem_of_filter in Hi as [_ Hi].
      apply elem_of_seq in Hi as [_ Hi]. simpl in Hi.
      apply lookup_lt_is_Some in Hi as [n Hn].
      destruct (compute_users_objects _ _ _ _ Hnodes Hcu Hn) as [u Hu].
      exists (set_users u n). split; [done|]. intros d Hd. simpl in Hd.
      simpl in Hn. rewrite list_lookup_fmap in Hn.
      destruct (nds !! i) as [nd|]; simpl in Hn; [|done]. injection Hn as <-.
      rewrite Hav. simpl. by apply new_SchedulerNode_pruned in Hd as [? _].
  - unfold enqueue in *. assert (s' = s) as -> by congruence. done.
Qed.

(** The states the scheduler can be in between two operations. *)
Inductive reachable : Scheduler -> Prop :=
  | reachable_init g nds s :
      new_Scheduler group_fn get_read_writes g nds = Some s -> reachable s
  | reachable_step op s s' :
      reachable s -> exec op s = Some s' -> reachable s'.

Lemma exec_inv op s s' :
  blocked_inv (objects s) (available_buffer_names s) (blocked_nodes s) ->
  runable_inv s ->
  exec op s = Some s' ->
  blocked_inv (objects s') (available_buffer_names s') (blocked_nodes s')
  /\ runable_inv s'.
Proof.
  intros Hblk Hrun Hex. destruct op; simpl in Hex.
  - unfold run in Hex. destruct (objects s !! i); simpl in Hex; [|done].
    destruct (emit _ _ _); simpl in Hex; [|done]. by injection Hex as <-.
  - unfold mark_fusable in Hex. destruct (objects s !! i); simpl in Hex; [|done].
    by injection Hex as <-.
  - unfold maybe_remove_buffer in Hex.
    destruct (objects s !! i) as [n|]; simpl in Hex; [|done].
    destruct (can_remove_buffer s n) as [[]|]; simpl in Hex; [| |done];
      by injection Hex as <-.
  - by injection Hex as <-.
  - destruct (runable_nodes s !! grp); injection Hex as <-; [|done].
    split; [done|]. by apply pop_runable_inv.
  - unfold pop_fusable_now in Hex.
    destruct (pop_fusable_spec _ _ (fusable_deps s) grp _ Hblk)
      as (popped & bn' & Hpop & Hblk' & _).
    rewrite Hpop in Hex. simpl in Hex. by injection Hex as <-.
  - destruct (barrier_spec s Hblk Hrun) as (s2 & Hs2 & Hblk2 & Hrun2 & _).
    assert (s2 = s') as -> by congruence. done.
Qed.

Lemma reachable_inv s :
  reachable s ->
  blocked_inv (objects s) (available_buffer_names s) (blocked_nodes s)
  /\ runable_inv s.
Proof.
  induction 1 as [g nds s Hinit | op s s' _ [Hblk Hrun] Hex].
  - by eapply new_Scheduler_inv.
  - by eapply exec_inv.
Qed.

(** C10.  In every state the scheduler reaches from its construction by
    its operations, a node in a box of the blocked-node index that is not
    popped is a node object with at least one unmet dependency, none of its
    unmet dependencies names an available buffer, and its box is filed
    under the name of each of them. *)
Theorem blocked_nodes_fresh (s : Scheduler) :
  reachable s ->
  forall box i, boxes (blocked_nodes s) !! box = Some (Some i) ->
    exists n, objects s !! i = Some n
      /\ unmet_dependencies n <> ∅
      /\ forall d, d ∈ unmet_dependencies n ->
           (dep_name d ∉ available_buffer_names s)
           /\ box ∈ default [] (name_to_nodes (blocked_nodes s) !! dep_name d).
Proof.
  intros Hreach box i Hbox.
  destruct (reachable_inv s Hreach) as [(Hfresh & _) _].
  apply (Hfresh box i Hbox).
Qed.

End Reachable.

(** ** The driving loop *)

Section DrivingLoop.
Import Sched.

Variable drv : Driver.

(** ** The whole scheduler between two steps of the driving loop *)

(** The name of the object [i]. *)
Definition name_at (objs : list SchedulerNode) (i : nat) : string :=
  default ""%string (get_name <$> objs !! i).

(** Every active node is in exactly one place: in a runnable list, in a
    live box, among the nodes [F] the loop holds (popped and not yet run),
    or among the nodes [D] that have run; the stores emitted are those of
    [D] in order, and the counter has counted them. *)
Definition acct (s : Scheduler) (F : list nat) : Prop :=
  exists D,
    flat (runable_nodes s) ++ live_ids (blocked_nodes s) ++ F ++ D ≡ₚ nodes s
    /\ name_at (objects s) <$> D = op_name <$> emitted s
    /\ run_count s = length D.

(** What never changes after construction but the available names, which
    grow: the active nodes are objects; unmet dependencies are reads; a
    read names an available buffer or an earlier active node; a node emits
    its store on the variables of its group. *)
Definition static_inv (s : Scheduler) : Prop :=
  Forall (fun i => (i < length (objects s))%nat) (nodes s)
  /\ (forall i n, objects s !! i = Some n ->
        unmet_dependencies n ⊆ reads (read_writes n))
  /\ (forall i n d, objects s !! i = Some n -> d ∈ reads (read_writes n) ->
        dep_name d ∈ available_buffer_names s
        \/ exists j, (j < i)%nat /\ j ∈ nodes s
             /\ name_at (objects s) j = dep_name d)
  /\ (forall i n, objects s !! i = Some n ->
        is_Some (emit n (vars_of drv (group n)).1 (vars_of drv (group n)).2)).

(** The buffer of a store that was emitted is pending or available. *)
Definition avail_inv (s : Scheduler) : Prop :=
  forall c, c ∈ emitted s ->
    op_name c ∈ available_buffer_names s ∪ pending_buffer_names s.

Definition sched_inv (s : Scheduler) (F : list nat) : Prop :=
  blocked_inv (objects s) (available_buffer_names s) (blocked_nodes s)
  /\ runable_inv s
  /\ acct s F
  /\ static_inv s
  /\ avail_inv s.

(** What running nodes leaves alone. *)
Definition run_frame (s s' : Scheduler) : Prop :=
  objects s' = objects s
  /\ blocked_nodes s' = blocked_nodes s
  /\ runable_reduction_groups s' = runable_reduction_groups s
  /\ runable_pointwise_groups s' = runable_pointwise_groups s
  /\ runable_nodes s' = runable_nodes s
  /\ nodes s' = nodes s
  /\ available_buffer_names s' = available_buffer_names s
  /\ graph s' = graph s.

Lemma run_frame_refl s : run_frame s s.
Proof. by repeat split. Qed.

Lemma run_frame_trans s1 s2 s3 :
  run_frame s1 s2 -> run_frame s2 s3 -> run_frame s1 s3.
Proof.
  unfold run_frame. intros (?&?&?&?&?&?&?&?) (?&?&?&?&?&?&?&?).
  split_and!; congruence.
Qed.

Lemma emit_name n vars rvars c : emit n vars rvars = Some c -> op_name c = get_name n.
Proof.
  unfold emit. destruct (is_reduction n).
  - destruct (_reindex n vars); simpl; [|done].
    destruct (_reduction_reindex n rvars); simpl; [|done].
    unfold store_reduction. destruct (data (node n)); [done|].
    destruct (make_indexer _ _); simpl; [|done].
    destruct inner_fn; [done|]. by intros [= <-].
  - destruct (_reindex n (vars ++ rvars)); simpl; [|done].
    unfold store_output. destruct (data (node n)); [|done].
    destruct (make_indexer _ _); simpl; [|done].
    destruct inner_fn; [|done]. by intros [= <-].
Qed.

Lemma name_at_lookup objs i n : objs !! i = Some n -> name_at objs i = get_name n.
Proof. unfold name_at. by intros ->. Qed.

Lemma sched_inv_frame s s' F :
  sched_inv s F ->
  objects s' = objects s ->
  blocked_nodes s' = blocked_nodes s ->
  runable_reduction_groups s' = runable_reduction_groups s ->
  runable_pointwise_groups s' = runable_pointwise_groups s ->
  runable_nodes s' = runable_nodes s ->
  nodes s' = nodes s ->
  available_buffer_names s' = available_buffer_names s ->
  pending_buffer_names s' = pending_buffer_names s ->
  emitted s' = emitted s ->
  run_count s' = run_count s ->
  sched_inv s' F.
Proof.
  intros (Hblk & [Hdom Hlists] & (D & Hperm & Hnames & Hcount) & Hst & Hav)
    Ho Hb Hred Hpw Hrn Hno Ha Hp He Hc.
  destruct Hst as (Hvalid & Hunmet & Hclosed & Hemit).
  unfold sched_inv, runable_inv, acct, static_inv, avail_inv.
  rewrite Ho, Hb, Hred, Hpw, Hrn, Hno, Ha, Hp, He, Hc.
  split_and!; try done. by exists D.
Qed.

Lemma run_node_spec grp i n s F :
  sched_inv s (i :: F) ->
  objects s !! i = Some n -> group n = grp ->
  exists s',
    run_node drv grp i s = Some s'
    /\ sched_inv s' F
    /\ run_count s' = S (run_count s)
    /\ pending_buffer_names s ⊆ pending_buffer_names s'
    /\ run_frame s s'.
Proof.
  intros (Hblk & Hrun & (D & Hperm & Hnames & Hcount) & Hst & Hav) Hn Hg.
  pose proof Hst as (Hvalid & Hunmet & Hclosed & Hemit).
  destruct (Hemit i n Hn) as [c Hc]. rewrite Hg in Hc.
  unfold run_node, run. rewrite Hn. simpl. rewrite Hc. simpl.
  set (s1 := set_pending_buffer_names _ _).
  assert (Hinv1 : sched_inv s1 F
                  /\ run_count s1 = S (run_count s)
                  /\ pending_buffer_names s ⊆ pending_buffer_names s1
                  /\ run_frame s s1).
  { subst s1. split; [|split; [done|split; [simpl; set_solver|by repeat split]]].
    split; [done|]. split; [done|]. split; [|split; [done|]].
    - exists (D ++ [i]). simpl. split_and!.
      + rewrite <- Hperm. solve_Permutation.
      + rewrite !fmap_app, Hnames. simpl.
        by rewrite (name_at_lookup _ _ _ Hn), (emit_name _ _ _ _ Hc).
      + rewrite length_app, Hcount. simpl. lia.
    - intros c' Hc'. simpl in *. apply elem_of_app in Hc' as [Hc'|Hc'].
      + specialize (Hav c' Hc'). set_solver.
      + apply list_elem_of_singleton in Hc' as ->.
        rewrite (emit_name _ _ _ _ Hc). set_solver. }
  destruct (publishes drv n).
  - unfold mark_fusable. assert (objects s1 !! i = Some n) as -> by done. simpl.
    eexists. split; [done|]. destruct Hinv1 as (H1 & H2 & H3 & H4).
    split; [|split; [done|split; [done|done]]].
    eapply sched_inv_frame; [exact H1|done..].
  - exists s1. by split.
Qed.

Lemma acct_perm s F F' : F ≡ₚ F' -> acct s F -> acct s F'.
Proof. intros HF (D & Hperm & Hrest). exists D. by rewrite <- HF. Qed.

Lemma run_loop_spec grp l s F :
  sched_inv s (l ++ F) ->
  (forall i, i ∈ l -> exists n, objects s !! i = Some n /\ group n = grp) ->
  exists s',
    for_each (run_node drv grp) l s = Some s'
    /\ sched_inv s' F
    /\ run_count s' = (run_count s + length l)%nat
    /\ pending_buffer_names s ⊆ pending_buffer_names s'
    /\ run_frame s s'.
Proof.
  revert s. induction l as [|i l IH]; intros s Hinv Hg; simpl.
  - exists s. split_and!; [done | done | lia | done | apply run_frame_refl].
  - destruct (Hg i) as (n & Hn & Hgn); [by left|].
    destruct (run_node_spec grp i n s (l ++ F) Hinv Hn Hgn)
      as (s1 & -> & Hinv1 & Hc1 & Hp1 & Hf1). simpl.
    destruct (IH s1 Hinv1) as (s' & Hs' & Hinv' & Hc' & Hp' & Hf').
    { intros j Hj. destruct Hf1 as (-> & _). apply Hg. by right. }
    exists s'. split_and!; [done | done | lia | set_solver |].
    by eapply run_frame_trans.
Qed.

(** *** Draining a group *)

Lemma pop_runable_acct grp l s :
  runable_nodes s !! grp = Some l ->
  sched_inv s [] ->
  sched_inv (pop_runable grp s) (l ++ [])
  /\ forall i, i ∈ l -> exists n, objects s !! i = Some n /\ group n = grp.
Proof.
  intros Hl (Hblk & Hrun & (D & Hperm & Hnames & Hcount) & Hst & Hav).
  split.
  - split; [done|]. split; [by apply pop_runable_inv|].
    split; [|split; [done|done]].
    exists D. simpl. split_and!; [|done|done].
    rewrite <- Hperm. rewrite (flat_delete _ _ _ Hl). solve_Permutation.
  - destruct Hrun as [_ Hlists]. by apply (Hlists grp l Hl).
Qed.

Lemma pop_group_runable_spec fuel grp s :
  (2 <= fuel)%nat ->
  sched_inv s [] ->
  exists s',
    pop_group_runable fuel (run_node drv grp) grp s = Some s'
    /\ sched_inv s' []
    /\ run_count s'
       = (run_count s + length (default [] (runable_nodes s !! grp)))%nat
    /\ nodes s' = nodes s
    /\ blocked_nodes s' = blocked_nodes s.
Proof.
  intros Hfuel Hinv. destruct fuel as [|[|fuel]]; [lia | lia |]. simpl.
  destruct (runable_nodes s !! grp) as [l|] eqn:Hl; simpl.
  - destruct (pop_runable_acct grp l s Hl Hinv) as [Hinv1 Hg].
    destruct (run_loop_spec grp l (pop_runable grp s) [] Hinv1 Hg)
      as (s1 & -> & Hinv2 & Hc & _ & Hf). simpl.
    destruct Hf as (_ & Hbn & _ & _ & Hrn & Hno & _).
    assert (runable_nodes s1 !! grp = None) as Hnone.
    { rewrite Hrn. simpl. apply lookup_delete_eq. }
    rewrite Hnone. exists s1. split_and!; done.
  - exists s. split_and!; [done | done | lia | done | done].
Qed.

Lemma pop_fusable_now_spec grp s :
  sched_inv s [] ->
  exists popped s1,
    pop_fusable_now grp s = Some (popped, s1)
    /\ sched_inv s1 (popped ++ [])
    /\ (forall i, i ∈ popped -> exists n, objects s1 !! i = Some n /\ group n = grp)
    /\ length (live_ids (blocked_nodes s))
       = (length popped + length (live_ids (blocked_nodes s1)))%nat
    /\ run_count s1 = run_count s
    /\ nodes s1 = nodes s.
Proof.
  intros (Hblk & Hrun & (D & Hperm & Hnames & Hcount) & Hst & Hav).
  destruct (pop_fusable_spec _ _ (fusable_deps s) grp _ Hblk)
    as (popped & bn' & Hpop & Hblk' & Hlive & Hg).
  unfold pop_fusable_now. rewrite Hpop. simpl.
  eexists _, _. split; [done|]. simpl. split_and!; [|done| |done|done].
  - split; [done|]. split; [done|]. split; [|split; [done|done]].
    exists D. simpl. split_and!; [|done|done].
    rewrite <- Hperm, Hlive. solve_Permutation.
  - by rewrite Hlive, length_app.
Qed.

Lemma pop_group_fusable_spec fuel grp s :
  (length (live_ids (blocked_nodes s)) < fuel)%nat ->
  sched_inv s [] ->
  exists s',
    pop_group_fusable fuel (run_node drv grp) grp s = Some s'
    /\ sched_inv s' []
    /\ (run_count s <= run_count s')%nat
    /\ nodes s' = nodes s.
Proof.
  revert s. induction fuel as [|fuel IH]; intros s Hfuel Hinv; [lia|]. simpl.
  destruct (pop_fusable_now_spec grp s Hinv)
    as (popped & s1 & -> & Hinv1 & Hg & Hlen & Hc1 & Hn1). simpl.
  destruct (run_loop_spec grp popped s1 [] Hinv1 Hg)
    as (s2 & -> & Hinv2 & Hc2 & _ & Hf). simpl.
  destruct Hf as (_ & Hbn & _ & _ & _ & Hno & _).
  destruct popped as [|i popped].
  - exists s2. split_and!; [done | done | lia | congruence].
  - destruct (IH s2) as (s' & Hs' & Hinv' & Hc' & Hn'); [|done|].
    + rewrite Hbn. simpl in Hlen. lia.
    + exists s'. split_and!; [done | done | lia | congruence].
Qed.

Lemma pop_group_spec fuel grp s :
  (2 <= fuel)%nat ->
  (length (live_ids (blocked_nodes s)) < fuel)%nat ->
  sched_inv s [] ->
  exists s',
    pop_group fuel (run_node drv grp) grp s = Some s'
    /\ sched_inv s' []
    /\ (run_count s + length (default [] (runable_nodes s !! grp))
        <= run_count s')%nat
    /\ nodes s' = nodes s.
Proof.
  intros Hfuel Hlive Hinv. unfold pop_group.
  destruct (pop_group_runable_spec fuel grp s Hfuel Hinv)
    as (s1 & Hs1 & Hinv1 & Hc1 & Hn1 & Hb1).
  rewrite Hs1. simpl. case_bool_decide.
  - destruct (pop_group_fusable_spec fuel grp s1) as (s' & Hs' & Hinv' & Hc' & Hn');
      [by rewrite Hb1 | done |].
    exists s'. split_and!; [done | done | lia | congruence].
  - exists s1. split_and!; [done | done | lia | done].
Qed.

(** *** The barrier *)

Lemma name_at_refine objs objs' i :
  Forall2 refines objs objs' -> name_at objs' i = name_at objs i.
Proof.
  intros Href. unfold name_at. destruct (objs !! i) as [n|] eqn:Hn.
  - destruct (refines_lookup _ _ _ _ Href Hn) as (n' & -> & Hr). simpl.
    by rewrite (refines_name _ _ Hr).
  - apply lookup_ge_None in Hn. rewrite (Forall2_length _ _ _ Href) in Hn.
    apply lookup_ge_None in Hn. by rewrite Hn.
Qed.

Lemma refines_emit n n' vars rvars :
  refines n n' -> emit n' vars rvars = emit n vars rvars.
Proof. by intros (u & -> & _). Qed.

Lemma static_inv_refine s s' :
  static_inv s ->
  Forall2 refines (objects s) (objects s') ->
  nodes s' = nodes s ->
  available_buffer_names s ⊆ available_buffer_names s' ->
  static_inv s'.
Proof.
  intros (Hvalid & Hunmet & Hclosed & Hemit) Href Hno Hav.
  split_and!.
  - rewrite Hno, <- (Forall2_length _ _ _ Href). done.
  - intros i n' Hn'. destruct (refines_lookup_r _ _ _ _ Href Hn') as (n & Hn & Hr).
    specialize (Hunmet i n Hn). destruct Hr as (u & -> & Hu). simpl. set_solver.
  - intros i n' d Hn' Hd.
    destruct (refines_lookup_r _ _ _ _ Href Hn') as (n & Hn & Hr).
    assert (d ∈ reads (read_writes n)) as Hd' by (by destruct Hr as (u & -> & _)).
    destruct (Hclosed i n d Hn Hd') as [Ha|(j & Hj & Hjn & Hnm)].
    + left. set_solver.
    + right. exists j. rewrite Hno, (name_at_refine _ _ _ Href). done.
  - intros i n' Hn'. destruct (refines_lookup_r _ _ _ _ Href Hn') as (n & Hn & Hr).
    rewrite (refines_group _ _ Hr), (refines_emit _ _ _ _ Hr). by apply (Hemit i).
Qed.

Lemma barrier_sched_inv s :
  sched_inv s [] ->
  exists s',
    barrier s = Some s'
    /\ sched_inv s' []
    /\ pending_buffer_names s' = ∅
    /\ run_count s' = run_count s
    /\ nodes s' = nodes s.
Proof.
  intros (Hblk & Hrun & (D & Hperm & Hnames & Hcount) & Hst & Hav).
  destruct (barrier_spec s Hblk Hrun)
    as (s' & Hs' & Hblk' & Hrun' & Href & Ha & Hp & Hfl & Hc & Hno & _ & _ & _ & Hem).
  exists s'. split; [done|]. split; [|done].
  split; [done|]. split; [done|]. split_and!.
  - exists D. split_and!.
    + rewrite Hno, <- Hperm. rewrite !app_assoc. rewrite Hfl. done.
    + rewrite Hem, <- Hnames. apply list_fmap_ext. intros _ j _.
      by apply name_at_refine.
    + congruence.
  - apply (static_inv_refine s); [done | done | done |]. rewrite Ha. set_solver.
  - intros c Hc'. rewrite Hem in Hc'. specialize (Hav c Hc'). rewrite Ha, Hp.
    set_solver.
Qed.

(** *** One round, and the rounds *)

Lemma sched_inv_kernel k s F : sched_inv s F -> sched_inv (kernel k s) F.
Proof. intros H. by eapply sched_inv_frame. Qed.

Lemma live_ids_bound s F :
  sched_inv s F -> (length (live_ids (blocked_nodes s)) <= length (nodes s))%nat.
Proof.
  intros (_ & _ & (D & Hperm & _) & _). rewrite <- Hperm, !length_app. lia.
Qed.

Lemma run_count_bound s F :
  sched_inv s F -> (run_count s <= length (nodes s))%nat.
Proof.
  intros (_ & _ & (D & Hperm & _ & ->) & _). rewrite <- Hperm, !length_app. lia.
Qed.

Lemma codegen_group_spec fuel grp s :
  (length (nodes s) + 2 <= fuel)%nat ->
  sched_inv s [] ->
  is_Some (runable_nodes s !! grp) ->
  exists s',
    codegen_group drv fuel grp s = Some s'
    /\ sched_inv s' []
    /\ pending_buffer_names s' = ∅
    /\ (run_count s < run_count s')%nat
    /\ nodes s' = nodes s.
Proof.
  intros Hfuel Hinv [l Hl]. unfold codegen_group.
  set (s1 := match opens_kernel drv grp with Some k => kernel k s | None => s end).
  assert (Hinv1 : sched_inv s1 []).
  { subst s1. destruct (opens_kernel drv grp); [by apply sched_inv_kernel | done]. }
  assert (Hs1 : nodes s1 = nodes s /\ run_count s1 = run_count s
                /\ runable_nodes s1 = runable_nodes s).
  { subst s1. by destruct (opens_kernel drv grp). }
  destruct Hs1 as (Hn1 & Hc1 & Hr1).
  pose proof (live_ids_bound _ _ Hinv1) as Hlive. rewrite Hn1 in Hlive.
  destruct (pop_group_spec fuel grp s1) as (s2 & -> & Hinv2 & Hc2 & Hn2);
    [lia | lia | done |]. simpl.
  destruct (barrier_sched_inv s2 Hinv2) as (s' & Hs' & Hinv' & Hp' & Hc' & Hn').
  exists s'. split_and!; [done | done | done | | congruence].
  rewrite Hr1, Hl in Hc2. simpl in Hc2.
  destruct Hinv as (_ & [_ Hlists] & _). destruct (Hlists _ _ Hl) as [Hne _].
  destruct l; [done|]. simpl in Hc2. lia.
Qed.

(** When nothing is runnable and nothing is pending, nothing is blocked. *)
Lemma exhausted_no_blocked s :
  sched_inv s [] ->
  pending_buffer_names s = ∅ ->
  runable_nodes s = ∅ ->
  live_ids (blocked_nodes s) = [].
Proof.
  intros (Hblk & Hrun & (D & Hperm & Hnames & Hcount) & Hst & Hav) Hpend Hempty.
  destruct Hblk as (Hfresh & _). destruct Hst as (_ & Hunmet & Hclosed & _).
  rewrite Hempty, flat_empty in Hperm. simpl in Hperm.
  assert (Hnone : forall i, i ∉ live_ids (blocked_nodes s)).
  { intros i. induction (lt_wf i) as [i _ IH]. intros Hi.
    apply elem_of_live_ids in Hi as [box Hbox].
    destruct (Hfresh _ _ Hbox) as (n & Hn & Hne & Hdeps).
    apply set_choose_L in Hne as [d Hd].
    destruct (Hdeps d Hd) as [Hnav _].
    destruct (Hclosed i n d Hn (Hunmet i n Hn d Hd)) as [?|(j & Hj & Hjn & Hnm)];
      [done|].
    rewrite <- Hperm in Hjn. apply elem_of_app in Hjn as [Hjl|HjD].
    - by apply (IH j Hj).
    - apply Hnav. rewrite <- Hnm.
      assert (name_at (objects s) j ∈ op_name <$> emitted s) as Hin.
      { rewrite <- Hnames. apply list_elem_of_fmap. by exists j. }
      apply list_elem_of_fmap in Hin as (c & -> & Hc).
      specialize (Hav c Hc). rewrite Hpend in Hav. set_solver. }
  destruct (live_ids (blocked_nodes s)) as [|i l]; [done|].
  destruct (Hnone i). by left.
Qed.

Lemma runable_empty s :
  runable_inv s ->
  runable_reduction_groups s = [] -> runable_pointwise_groups s = [] ->
  runable_nodes s = ∅.
Proof.
  intros [Hdom _] Hred Hpw. apply map_empty. intros g.
  apply eq_None_not_Some. rewrite Hdom, Hred, Hpw. simpl.
  intros [H|H]; by apply elem_of_nil in H.
Qed.

Lemma iter_runable_groups_spec fuel k s :
  (length (nodes s) + 2 <= fuel)%nat ->
  (length (nodes s) - run_count s < k)%nat ->
  sched_inv s [] ->
  pending_buffer_names s = ∅ ->
  exists s',
    iter_runable_groups k (codegen_group drv fuel) s = Some s'
    /\ sched_inv s' []
    /\ pending_buffer_names s' = ∅
    /\ runable_reduction_groups s' = []
    /\ runable_pointwise_groups s' = []
    /\ runable_nodes s' = ∅
    /\ live_ids (blocked_nodes s') = []
    /\ run_count s' = length (nodes s')
    /\ nodes s' = nodes s.
Proof.
  revert s. induction k as [|k IH]; intros s Hfuel Hk Hinv Hpend; [lia|]. simpl.
  assert (Hround : forall grp,
    grp ∈ (runable_reduction_groups s).*1 \/ grp ∈ (runable_pointwise_groups s).*1 ->
    exists s',
      codegen_group drv fuel grp s ≫= iter_runable_groups k (codegen_group drv fuel)
      = Some s'
      /\ sched_inv s' []
      /\ pending_buffer_names s' = ∅
      /\ runable_reduction_groups s' = []
      /\ runable_pointwise_groups s' = []
      /\ runable_nodes s' = ∅
      /\ live_ids (blocked_nodes s') = []
      /\ run_count s' = length (nodes s')
      /\ nodes s' = nodes s).
  { intros grp Hgrp.
    assert (is_Some (runable_nodes s !! grp)) as Hsome.
    { destruct Hinv as (_ & [Hdom _] & _). by apply Hdom. }
    destruct (codegen_group_spec fuel grp s Hfuel Hinv Hsome)
      as (s1 & -> & Hinv1 & Hp1 & Hc1 & Hn1). simpl.
    pose proof (run_count_bound _ _ Hinv1) as Hb.
    destruct (IH s1) as (s' & Hs' & Hrest);
      [rewrite Hn1; lia | rewrite Hn1 in Hb |- *; lia | done | done |].
    exists s'. split; [done|].
    destruct Hrest as (?&?&?&?&?&?&?&?). split_and!; try done. congruence. }
  destruct (runable_reduction_groups s) as [|[grp c] red] eqn:Hred.
  - destruct (runable_pointwise_groups s) as [|[grp c] pw] eqn:Hpw.
    + pose proof Hinv as (_ & Hrun & (D & Hperm & _ & Hcount) & _).
      pose proof (runable_empty s Hrun Hred Hpw) as Hempty.
      pose proof (exhausted_no_blocked s Hinv Hpend Hempty) as Hlive.
      assert (run_count s = length (nodes s)) as Hdone.
      { rewrite <- Hperm, Hempty, flat_empty, Hlive, Hcount. done. }
      rewrite bool_decide_eq_true_2 by done.
      rewrite bool_decide_eq_true_2 by done. simpl.
      exists s. split_and!; done.
    + apply Hround. right. simpl. by left.
  - apply Hround. left. simpl. by left.
Qed.

End DrivingLoop.

(** ** Scheduling completeness *)

Section SchedulingCompleteness.
Import Sched.

Variable group_fn : list Expr -> list Expr.
Variable get_read_writes : ComputedBuffer -> ReadWrites.
Variable drv : Driver.

(** ** Scheduling completeness (C4) *)

(** The buffers are listed in dependency order: a read names a graph input
    or the buffer of an earlier node, and never the buffer of the reading
    node or of a later one. *)
Definition dependency_ordered (g : GraphLowering) (nds : list ComputedBuffer) : Prop :=
  forall i nd d, nds !! i = Some nd -> d ∈ reads (get_read_writes nd) ->
    (dep_name d ∈ dom (graph_inputs g)
     \/ exists j nd', (j < i)%nat /\ nds !! j = Some nd' /\ name nd' = dep_name d)
    /\ forall i' nd', (i <= i')%nat -> nds !! i' = Some nd' ->
         name nd' <> dep_name d.

(** Every node emits its store on the index variables the loop gives to
    its group: the assertions of [reindex] and of the indexer hold and the
    body is called as its kind is. *)
Definition emits_on_group_vars (g : GraphLowering) (nds : list ComputedBuffer) : Prop :=
  forall nd, nd ∈ nds ->
    let n := new_SchedulerNode group_fn get_read_writes (dom (graph_inputs g)) nd in
    is_Some (emit n (vars_of drv (group n)).1 (vars_of drv (group n)).2).

(** No node is dead: its buffer is a graph output or another node reads
    it. *)
Definition no_dead_nodes (g : GraphLowering) (nds : list ComputedBuffer) : Prop :=
  forall i nd, nds !! i = Some nd ->
    name nd ∈ graph_outputs g
    \/ exists j nd' d, nds !! j = Some nd' /\ d ∈ reads (get_read_writes nd')
         /\ dep_name d = name nd.

(** The dependency graph is acyclic: the buffers can be ranked so that a
    node ranks above every node whose buffer it reads.  Nothing is said
    of the order in which the list gives the nodes. *)
Definition acyclic (nds : list ComputedBuffer) : Prop :=
  exists rank : string -> nat,
    forall nd nd' d, nd ∈ nds -> nd' ∈ nds ->
      d ∈ reads (get_read_writes nd) -> dep_name d = name nd' ->
      (rank (name nd') < rank (name nd))%nat.

Lemma filter_all {A} (P : A -> Prop) `{!forall x, Decision (P x)} (l : list A) :
  Forall P l -> filter P l = l.
Proof.
  induction 1 as [|x l Hx _ IH]; [done|].
  by rewrite filter_cons_True, IH.
Qed.

Lemma new_SchedulerNode_fields avail nd :
  let n := new_SchedulerNode group_fn get_read_writes avail nd in
  node n = nd /\ read_writes n = get_read_writes nd /\ users n = None.
Proof. done. Qed.

Lemma init_objects_lookup g nds i n :
  objects (init_state group_fn get_read_writes g nds) !! i = Some n ->
  exists nd, nds !! i = Some nd
    /\ n = new_SchedulerNode group_fn get_read_writes (dom (graph_inputs g)) nd.
Proof.
  simpl. rewrite list_lookup_fmap. destruct (nds !! i) as [nd|]; simpl; [|done].
  intros [= <-]. by exists nd.
Qed.

Lemma init_objects_lookup_2 g nds i nd :
  nds !! i = Some nd ->
  objects (init_state group_fn get_read_writes g nds) !! i
  = Some (new_SchedulerNode group_fn get_read_writes (dom (graph_inputs g)) nd).
Proof. intros H. simpl. by rewrite list_lookup_fmap, H. Qed.

Lemma init_names g nds :
  get_name <$> objects (init_state group_fn get_read_writes g nds) = name <$> nds.
Proof. simpl. rewrite <- list_fmap_compose. by apply list_fmap_ext. Qed.

Lemma emit_set_users u n vars rvars : emit (set_users u n) vars rvars = emit n vars rvars.
Proof. done. Qed.

Lemma new_Scheduler_sched_inv g nds :
  NoDup (name <$> nds) ->
  dependency_ordered g nds ->
  emits_on_group_vars g nds ->
  exists s0,
    new_Scheduler group_fn get_read_writes g nds = Some s0
    /\ sched_inv drv s0 []
    /\ pending_buffer_names s0 = ∅
    /\ run_count s0 = 0%nat
    /\ emitted s0 = []
    /\ (length (nodes s0) <= length nds)%nat
    /\ (no_dead_nodes g nds -> nodes s0 = seq 0 (length nds)).
Proof.
  intros Hnd Hord Hemit. rewrite new_Scheduler_eq.
  set (si := init_state group_fn get_read_writes g nds).
  pose proof (init_state_nodes group_fn get_read_writes g nds) as Hnodes.
  fold si in Hnodes.
  assert (Hearlier : reads_earlier (objects si)).
  { intros i n d Hn Hd i' n' Hle Hn'.
    apply init_objects_lookup in Hn as (nd & Hi & ->).
    apply init_objects_lookup in Hn' as (nd' & Hi' & ->).
    by apply (proj2 (Hord i nd d Hi Hd) i' nd'). }
  destruct (compute_users_total si Hnodes Hearlier) as [s1 Hcu].
  rewrite Hcu. simpl.
  destruct (compute_users_spec _ _ Hnodes Hcu)
    as ([ntu (Hlen & Ha & _ & _)] & _ & Hact & _ & Hfr). simpl in Hlen, Ha.
  destruct Hfr as (Hbn & Hred & Hpw & Hrn & Hrc & _ & Hav & Hpend & _ & Hem & Hgi & _).
  assert (Hobj1 : forall i n', objects s1 !! i = Some n' ->
            exists nd u, nds !! i = Some nd
              /\ n' = set_users u
                        (new_SchedulerNode group_fn get_read_writes
                           (dom (graph_inputs g)) nd)).
  { intros i n' Hn'.
    destruct (compute_users_objects_r _ _ _ _ Hnodes Hcu Hn') as (n & u & Hn & ->).
    apply init_objects_lookup in Hn as (nd & Hi & ->). by exists nd, u. }
  (* a node that is an output or is read has users *)
  assert (Hused : forall j ndj,
            nds !! j = Some ndj ->
            (name ndj ∈ graph_outputs g
             \/ exists i nd d, nds !! i = Some nd /\ d ∈ reads (get_read_writes nd)
                  /\ dep_name d = name ndj) ->
            has_users_at (objects s1) j = true).
  { intros j ndj Hj Huse.
    destruct (Ha j _ (init_objects_lookup_2 g nds j ndj Hj)) as (u & Hu & _ & Hspec).
    destruct (Hspec (Nat.le_0_l j)) as [Hnone Hsome].
    unfold has_users_at. rewrite Hu. simpl. destruct u as [l|].
    2:{ destruct (proj1 Hnone eq_refl) as (i' & n' & Hlt & Hi' & Heq).
        apply init_objects_lookup in Hi' as (nd' & Hi' & ->).
        assert (i' = j); [|lia].
        apply (NoDup_lookup _ i' j (name ndj) Hnd); rewrite list_lookup_fmap.
        - rewrite Hi'. simpl. f_equal. exact Heq.
        - by rewrite Hj. }
    destruct (Hsome l eq_refl) as (_ & H2 & H3).
    destruct Huse as [Hout|(i & nd & d & Hi & Hd & Hdn)].
    - specialize (H2 Hout). destruct l; [by apply elem_of_nil in H2 | done].
    - assert (UNode i ∈ l) as Hin.
      { apply H3.
        assert (reads_name (objects si) i (name ndj)) as Hr.
        { exists (new_SchedulerNode group_fn get_read_writes (dom (graph_inputs g)) nd), d.
          split_and!; [by apply init_objects_lookup_2 | done | done]. }
        split; [|exact Hr].
        destruct (decide (S j <= i)%nat) as [|Hgt]; [done|].
        destruct (proj2 (Hord i nd d Hi Hd) j ndj); [lia | done | done]. }
      destruct l; [by apply elem_of_nil in Hin | done]. }
  destruct (enqueue_inv (nodes s1) s1) as (s0 & Hs0 & Hcore & Hblk & Hrun & Hperm).
  - rewrite Hbn. apply blocked_inv_empty.
  - split.
    + intros g0. rewrite Hrn, Hred, Hpw. simpl. rewrite lookup_empty.
      split; [by intros [? ?] | by intros [H|H]; apply elem_of_nil in H].
    + intros g0 l. rewrite Hrn. simpl. by rewrite lookup_empty.
  - rewrite Hact. apply NoDup_filter, NoDup_seq.
  - intros i Hi. split.
    + rewrite Hbn. simpl. apply not_elem_of_nil.
    + rewrite Hact in Hi. apply list_elem_of_filter in Hi as [_ Hi].
      apply elem_of_seq in Hi as [_ Hi]. simpl in Hi. rewrite <- Hlen in Hi.
      apply lookup_lt_is_Some in Hi as [n' Hn'].
      destruct (Hobj1 i n' Hn') as (nd & u & Hi & ->).
      eexists. split; [done|]. intros d Hd. simpl in Hd.
      rewrite Hav. simpl. by apply new_SchedulerNode_pruned in Hd as [? _].
  - unfold enqueue in Hs0. exists s0. split; [done|].
    destruct Hcore as (Ho&Hrc0&Hno0&Hk0&Hav0&Hpe0&Hfu0&Hg0&Hem0).
    assert (Hlen_nodes : (length (nodes s1) <= length nds)%nat).
    { rewrite Hact. etrans; [apply length_filter|]. rewrite length_seq. simpl.
      by rewrite length_fmap. }
    split_and!.
    + split; [done|]. split; [done|]. split_and!.
      * exists []. split_and!.
        -- simpl. rewrite !app_nil_r, Hperm, Hno0, Hrn, Hbn. simpl.
           by rewrite flat_empty, !app_nil_r.
        -- by rewrite Hem0, Hem.
        -- by rewrite Hrc0, Hrc.
      * split_and!.
        -- rewrite Hno0, Ho, Hact. apply Forall_forall. intros i Hi.
           apply list_elem_of_filter in Hi as [_ Hi]. apply elem_of_seq in Hi.
           simpl in *. lia.
        -- rewrite Ho. intros i n' Hn'. destruct (Hobj1 i n' Hn') as (nd & u & Hi & ->).
           simpl. intros d Hd. by apply elem_of_filter in Hd as [_ ?].
        -- rewrite Ho, Hno0, Hav0, Hav. intros i n' d Hn' Hd.
           destruct (Hobj1 i n' Hn') as (nd & u & Hi & ->). simpl in Hd.
           destruct (proj1 (Hord i nd d Hi Hd)) as [Hin|(j & ndj & Hj & Hjn & Hnm)].
           ++ by left.
           ++ right. exists j. split; [done|]. split.
              ** rewrite Hact. apply list_elem_of_filter. split.
                 --- apply (Hused j ndj Hjn). right. by exists i, nd, d.
                 --- apply elem_of_seq. simpl. rewrite length_fmap.
                     apply lookup_lt_Some in Hjn. lia.
              ** destruct (Ha j _ (init_objects_lookup_2 g nds j ndj Hjn))
                   as (uj & Huj & _).
                 unfold name_at. rewrite Huj. simpl. done.
        -- rewrite Ho. intros i n' Hn'. destruct (Hobj1 i n' Hn') as (nd & u & Hi & ->).
           rewrite emit_set_users. apply Hemit. by eapply list_elem_of_lookup_2.
      * intros c. rewrite Hem0, Hem. simpl. intros Hc. by apply elem_of_nil in Hc.
    + by rewrite Hpe0, Hpend.
    + by rewrite Hrc0, Hrc.
    + by rewrite Hem0, Hem.
    + by rewrite Hno0.
    + intros Hnodead. rewrite Hno0, Hact. simpl. rewrite length_fmap.
      apply filter_all. apply Forall_forall. intros j Hj.
      apply elem_of_seq in Hj as [_ Hj]. simpl in Hj.
      apply lookup_lt_is_Some in Hj as [ndj Hjn].
      apply (Hused j ndj Hjn). destruct (Hnodead j ndj Hjn) as [?|(i & nd & d & ?)].
      * by left.
      * right. by exists i, nd, d.
Qed.

(** Buffers with distinct names listed in dependency order form an acyclic
    graph: the position in the list is a rank. *)
Lemma dependency_ordered_acyclic (g : GraphLowering) (nds : list ComputedBuffer) :
  NoDup (name <$> nds) -> dependency_ordered g nds -> acyclic nds.
Proof.
  intros Hnd Hord.
  exists (fun nm =>
            match list_find (fun nd => name nd = nm) nds with
            | Some (i, _) => i
            | None => 0%nat
            end).
  assert (Hrank : forall i nd, nds !! i = Some nd ->
            exists x, list_find (fun nd0 => name nd0 = name nd) nds = Some (i, x)).
  { intros i nd Hi.
    destruct (list_find (fun nd0 => name nd0 = name nd) nds) as [[i0 x]|] eqn:Hf.
    - apply list_find_Some in Hf as (Hi0 & Hx & _).
      assert (i0 = i) as ->; [|by exists x].
      apply (NoDup_lookup _ i0 i (name nd) Hnd); rewrite list_lookup_fmap.
      + rewrite Hi0. simpl. by f_equal.
      + by rewrite Hi.
    - apply list_find_None in Hf.
      by destruct (proj1 (Forall_forall _ _) Hf nd (list_elem_of_lookup_2 _ _ _ Hi)). }
  intros nd nd' d Hin Hin' Hd Hnm.
  apply list_elem_of_lookup in Hin as [i Hi].
  apply list_elem_of_lookup in Hin' as [i' Hi'].
  destruct (Hrank i nd Hi) as [x ->]. destruct (Hrank i' nd' Hi') as [x' ->].
  destruct (decide (i' < i)%nat) as [|Hge]; [done|].
  destruct (proj2 (Hord i nd d Hi Hd) i' nd'); [lia | done | done].
Qed.

(** C4, as amended.  Buffers with distinct names, listed in dependency
    order, each emitting its store on the variables of its group: the
    scheduler is constructed, and the driving loop, with fuel enough for
    the nodes, runs group iteration to its end, where the generator's two
    assertions hold.  At the end both runnable-group pools and the
    runnable-node pool are empty, no box of the blocked index holds a
    node, the run counter is the number of retained nodes, and the stores
    emitted are those of the retained nodes, each once.  With no dead node
    the retained nodes are all the nodes, and the run counter is their
    number.  The order is needed: [compute_users] fails on an acyclic
    graph whose list gives a reader before the node it reads. *)
Theorem scheduling_completeness (g : GraphLowering) (nds : list ComputedBuffer)
  (fuel : nat) :
  NoDup (name <$> nds) ->
  dependency_ordered g nds ->
  emits_on_group_vars g nds ->
  (length nds + 2 <= fuel)%nat ->
  exists s0 s',
    new_Scheduler group_fn get_read_writes g nds = Some s0
    /\ schedule drv fuel s0 = Some s'
    /\ runable_reduction_groups s' = []
    /\ runable_pointwise_groups s' = []
    /\ runable_nodes s' = ∅
    /\ (forall box, boxes (blocked_nodes s') !! box = Some None
                    \/ boxes (blocked_nodes s') !! box = None)
    /\ run_count s' = length (nodes s')
    /\ nodes s' = nodes s0
    /\ op_name <$> emitted s' ≡ₚ name_at (objects s') <$> nodes s'
    /\ (no_dead_nodes g nds ->
        nodes s' = seq 0 (length nds) /\ run_count s' = length nds).
Proof.
  intros Hnd Hord Hemit Hfuel.
  destruct (new_Scheduler_sched_inv g nds Hnd Hord Hemit)
    as (s0 & Hs0 & Hinv & Hpend & Hrc & Hem & Hlen & Hnodead).
  unfold schedule.
  destruct (iter_runable_groups_spec drv fuel fuel s0)
    as (s' & Hs' & Hinv' & Hp' & Hred & Hpw & Hrn & Hlive & Hcount & Hnodes);
    [lia | lia | done | done |].
  exists s0, s'. split_and!; try done.
  - intros box. destruct (boxes (blocked_nodes s') !! box) as [[i|]|] eqn:Hbox;
      [|by left|by right].
    assert (i ∈ live_ids (blocked_nodes s')) as Hin
      by (apply elem_of_live_ids; by exists box).
    rewrite Hlive in Hin. by apply elem_of_nil in Hin.
  - destruct Hinv' as (_ & _ & (D & Hperm & Hnames & _) & _).
    rewrite Hrn, flat_empty, Hlive in Hperm. simpl in Hperm.
    by rewrite <- Hnames, Hperm.
  - intros Hno. specialize (Hnodead Hno).
    assert (nodes s' = seq 0 (length nds)) as Heq by congruence.
    split; [done|]. by rewrite Hcount, Heq, length_seq.
Qed.

End SchedulingCompleteness.

(** ** A worked example *)

Section ScheduleExample.
Import Sched.

(** ** A graph of four buffers *)

(** [buf0] is a pointwise loop over the input [x]; [buf1] reduces [buf0];
    [buf2], the graph output, reads [buf1] and [x]; nothing reads [buf3]. *)
Definition ex_layout (size : list Expr) : Layout := new_FlexibleLayout "cpu" "f32" size.

Definition ex_pointwise (nm : string) (size : list Expr) : ComputedBuffer :=
  mkComputedBuffer nm (ex_layout size)
    (UnrealizedBuffer size (Fn1 (fun _ => 0%Z)) "cpu" "f32").

Definition ex_reduction (nm : string) (size rsize : list Expr) : ComputedBuffer :=
  mkComputedBuffer nm (ex_layout size)
    (Reduction size (Fn2 (fun _ _ => 0%Z)) "cpu" "f32" rsize "sum").

Definition ex_nodes : list ComputedBuffer :=
  [ ex_pointwise "buf0" [4; 3]%Z; ex_reduction "buf1" [4]%Z [3]%Z;
    ex_pointwise "buf2" [4]%Z; ex_pointwise "buf3" [4]%Z ].

Definition ex_graph : GraphLowering :=
  mkGraph [] {[ "x" := ex_layout [4; 3]%Z ]} ["buf2"] ∅.

Definition ex_read_writes (b : ComputedBuffer) : ReadWrites :=
  mkReadWrites
    (if String.eqb (name b) "buf0" then {[ MemoryDep "x" 0%Z ]}
     else if String.eqb (name b) "buf1" then {[ MemoryDep "buf0" 0%Z ]}
     else if String.eqb (name b) "buf2" then {[ MemoryDep "buf1" 0%Z; MemoryDep "x" 0%Z ]}
     else {[ MemoryDep "x" 1%Z ]})
    {[ MemoryDep (name b) 0%Z ]}.

Definition ex_group_fn (size : list Expr) : list Expr := size.

(** A driver that gives every group zero index variables of its ranks,
    publishes every node's writes and opens kernel 0 for every group. *)
Definition ex_driver : Driver :=
  mkDriver
    (fun grp => (replicate (length grp.1) 0%Z, replicate (length grp.2) 0%Z))
    (fun _ => true) (fun _ => Some 0%nat).

Definition ex_init : Scheduler := init_state ex_group_fn ex_read_writes ex_graph ex_nodes.

Lemma ex_lookup (i : nat) (nd : ComputedBuffer) :
  ex_nodes !! i = Some nd ->
  (i = 0%nat /\ nd = ex_pointwise "buf0" [4; 3]%Z)
  \/ (i = 1%nat /\ nd = ex_reduction "buf1" [4]%Z [3]%Z)
  \/ (i = 2%nat /\ nd = ex_pointwise "buf2" [4]%Z)
  \/ (i = 3%nat /\ nd = ex_pointwise "buf3" [4]%Z).
Proof.
  destruct i as [|[|[|[|i]]]]; simpl; intros [= <-]; eauto 6.
Qed.

Lemma ex_NoDup : NoDup (name <$> ex_nodes).
Proof. by apply (bool_decide_unpack _). Qed.

Lemma ex_reads (i : nat) (nd : ComputedBuffer) (d : Dep) :
  ex_nodes !! i = Some nd -> d ∈ reads (ex_read_writes nd) ->
  (i = 0%nat /\ d = MemoryDep "x" 0%Z)
  \/ (i = 1%nat /\ d = MemoryDep "buf0" 0%Z)
  \/ (i = 2%nat /\ d = MemoryDep "buf1" 0%Z)
  \/ (i = 2%nat /\ d = MemoryDep "x" 0%Z)
  \/ (i = 3%nat /\ d = MemoryDep "x" 1%Z).
Proof.
  intros Hi Hd.
  apply ex_lookup in Hi as [[-> ->]|[[-> ->]|[[-> ->]|[-> ->]]]]; simpl in Hd.
  - apply elem_of_singleton in Hd as ->. eauto.
  - apply elem_of_singleton in Hd as ->. eauto.
  - apply elem_of_union in Hd as [Hd|Hd]; apply elem_of_singleton in Hd as ->; eauto 6.
  - apply elem_of_singleton in Hd as ->. eauto 6.
Qed.

Lemma ex_dependency_ordered : dependency_ordered ex_read_writes ex_graph ex_nodes.
Proof.
  assert (Hx : "x" ∈ dom (graph_inputs ex_graph)).
  { simpl. rewrite dom_singleton_L. by apply elem_of_singleton. }
  intros i nd d Hi Hd.
  destruct (ex_reads i nd d Hi Hd)
    as [[-> ->]|[[-> ->]|[[-> ->]|[[-> ->]|[-> ->]]]]]; (split;
    [| intros i' nd' Hle Hi';
       apply ex_lookup in Hi' as [[-> ->]|[[-> ->]|[[-> ->]|[-> ->]]]];
       first [lia | discriminate]]).
  - by left.
  - right. exists 0%nat, (ex_pointwise "buf0" [4; 3]%Z). split_and!; [lia|done|done].
  - right. exists 1%nat, (ex_reduction "buf1" [4]%Z [3]%Z). split_and!; [lia|done|done].
  - by left.
  - by left.
Qed.

Lemma ex_emits : emits_on_group_vars ex_group_fn ex_read_writes ex_driver ex_graph ex_nodes.
Proof.
  intros nd Hnd n. subst n.
  apply list_elem_of_lookup in Hnd as [i Hi].
  apply ex_lookup in Hi as [[-> ->]|[[-> ->]|[[-> ->]|[-> ->]]]]; by eexists.
Qed.

Lemma ex_NoDup_objects : NoDup (get_name <$> objects ex_init).
Proof. unfold ex_init. rewrite init_names. apply ex_NoDup. Qed.

Lemma ex_reads_earlier : reads_earlier (objects ex_init).
Proof.
  intros i n d Hn Hd i' n' Hle Hn'.
  apply init_objects_lookup in Hn as (nd & Hi & ->).
  apply init_objects_lookup in Hn' as (nd' & Hi' & ->).
  by apply (proj2 (ex_dependency_ordered i nd d Hi Hd) i' nd').
Qed.

(** ** The example without its dead buffer *)

(** [buf0], [buf1] and [buf2] of the example: every buffer is read by a
    node or is the graph output. *)
Definition ex_live_nodes : list ComputedBuffer :=
  [ ex_pointwise "buf0" [4; 3]%Z; ex_reduction "buf1" [4]%Z [3]%Z;
    ex_pointwise "buf2" [4]%Z ].

Lemma ex_live_lookup (i : nat) (nd : ComputedBuffer) :
  ex_live_nodes !! i = Some nd ->
  (i = 0%nat /\ nd = ex_pointwise "buf0" [4; 3]%Z)
  \/ (i = 1%nat /\ nd = ex_reduction "buf1" [4]%Z [3]%Z)
  \/ (i = 2%nat /\ nd = ex_pointwise "buf2" [4]%Z).
Proof.
  destruct i as [|[|[|i]]]; simpl; intros [= <-]; eauto 6.
Qed.

Lemma ex_live_NoDup : NoDup (name <$> ex_live_nodes).
Proof. by apply (bool_decide_unpack _). Qed.

Lemma ex_live_dependency_ordered :
  dependency_ordered ex_read_writes ex_graph ex_live_nodes.
Proof.
  intros i nd d Hi Hd.
  assert (Hi4 : ex_nodes !! i = Some nd).
  { apply ex_live_lookup in Hi as [[-> ->]|[[-> ->]|[-> ->]]]; reflexivity. }
  destruct (ex_dependency_ordered i nd d Hi4 Hd) as [Hfrom Hlater]. split.
  - destruct Hfrom as [Hin|(j & nd' & Hlt & Hj & Hnm)]; [by left|].
    right. exists j, nd'. split; [done|]. split; [|done].
    apply lookup_lt_Some in Hi. simpl in Hi.
    destruct j as [|[|[|j]]]; [exact Hj | exact Hj | exact Hj | lia].
  - intros i' nd' Hle Hi'. apply (Hlater i' nd' Hle).
    apply ex_live_lookup in Hi' as [[-> ->]|[[-> ->]|[-> ->]]]; reflexivity.
Qed.

Lemma ex_live_emits :
  emits_on_group_vars ex_group_fn ex_read_writes ex_driver ex_graph ex_live_nodes.
Proof.
  intros nd Hnd. apply ex_emits.
  apply list_elem_of_lookup in Hnd as [i Hi].
  apply ex_live_lookup in Hi as [[-> ->]|[[-> ->]|[-> ->]]].
  - apply (list_elem_of_lookup_2 _ 0%nat). reflexivity.
  - apply (list_elem_of_lookup_2 _ 1%nat). reflexivity.
  - apply (list_elem_of_lookup_2 _ 2%nat). reflexivity.
Qed.

(** [buf0] is read by [buf1], [buf1] by [buf2], and [buf2] is the
    output. *)
Lemma ex_live_no_dead : no_dead_nodes ex_read_writes ex_graph ex_live_nodes.
Proof.
  intros i nd Hi.
  apply ex_live_lookup in Hi as [[-> ->]|[[-> ->]|[-> ->]]].
  - right. exists 1%nat, (ex_reduction "buf1" [4]%Z [3]%Z), (MemoryDep "buf0" 0%Z).
    split; [reflexivity|]. split; [|reflexivity].
    simpl. by apply elem_of_singleton.
  - right. exists 2%nat, (ex_pointwise "buf2" [4]%Z), (MemoryDep "buf1" 0%Z).
    split; [reflexivity|]. split; [|reflexivity].
    simpl. apply elem_of_union_l. by apply elem_of_singleton.
  - left. simpl. apply list_elem_of_here.
Qed.

(** ** An acyclic graph listed out of dependency order *)

(** [b], the graph output, reads [a]; [a] reads the input [x]; the list
    gives [b] before [a]. *)
Definition ex_unordered_nodes : list ComputedBuffer :=
  [ ex_pointwise "b" [4]%Z; ex_pointwise "a" [4]%Z ].

Definition ex_unordered_graph : GraphLowering :=
  mkGraph [] {[ "x" := ex_layout [4]%Z ]} ["b"] ∅.

Definition ex_unordered_read_writes (b : ComputedBuffer) : ReadWrites :=
  mkReadWrites
    (if String.eqb (name b) "b" then {[ MemoryDep "a" 0%Z ]}
     else {[ MemoryDep "x" 0%Z ]})
    {[ MemoryDep (name b) 0%Z ]}.

Lemma ex_unordered_lookup (i : nat) (nd : ComputedBuffer) :
  ex_unordered_nodes !! i = Some nd ->
  (i = 0%nat /\ nd = ex_pointwise "b" [4]%Z)
  \/ (i = 1%nat /\ nd = ex_pointwise "a" [4]%Z).
Proof.
  destruct i as [|[|i]]; simpl; intros [= <-]; eauto.
Qed.

Lemma ex_unordered_NoDup : NoDup (name <$> ex_unordered_nodes).
Proof. by apply (bool_decide_unpack _). Qed.

Lemma ex_unordered_reads (nd : ComputedBuffer) (d : Dep) :
  nd ∈ ex_unordered_nodes -> d ∈ reads (ex_unordered_read_writes nd) ->
  (name nd = "b" /\ d = MemoryDep "a" 0%Z)
  \/ (name nd = "a" /\ d = MemoryDep "x" 0%Z).
Proof.
  intros Hin Hd. apply list_elem_of_lookup in Hin as [i Hi].
  apply ex_unordered_lookup in Hi as [[-> ->]|[-> ->]]; simpl in Hd;
    apply elem_of_singleton in Hd as ->; eauto.
Qed.

(** The graph is acyclic: [a] ranks below [b]. *)
Lemma ex_unordered_acyclic : acyclic ex_unordered_read_writes ex_unordered_nodes.
Proof.
  exists (fun nm => if String.eqb nm "b" then 1%nat else 0%nat).
  intros nd nd' d Hin Hin' Hd Hnm.
  destruct (ex_unordered_reads nd d Hin Hd) as [[Hn ->]|[Hn ->]]; simpl in Hnm.
  - rewrite Hn, <- Hnm. simpl. lia.
  - apply list_elem_of_lookup in Hin' as [i Hi].
    apply ex_unordered_lookup in Hi as [[-> ->]|[-> ->]]; discriminate Hnm.
Qed.

(** No node is dead: [b] is the output and reads [a]. *)
Lemma ex_unordered_no_dead :
  no_dead_nodes ex_unordered_read_writes ex_unordered_graph ex_unordered_nodes.
Proof.
  intros i nd Hi.
  apply ex_unordered_lookup in Hi as [[-> ->]|[-> ->]].
  - left. simpl. apply list_elem_of_here.
  - right. exists 0%nat, (ex_pointwise "b" [4]%Z), (MemoryDep "a" 0%Z).
    split; [reflexivity|]. split; [|reflexivity].
    simpl. by apply elem_of_singleton.
Qed.

Lemma ex_unordered_emits :
  emits_on_group_vars ex_group_fn ex_unordered_read_writes ex_driver
    ex_unordered_graph ex_unordered_nodes.
Proof.
  intros nd Hnd n. subst n.
  apply list_elem_of_lookup in Hnd as [i Hi].
  apply ex_unordered_lookup in Hi as [[-> ->]|[-> ->]]; by eexists.
Qed.

(** The same two nodes with [a] first are in dependency order. *)
Lemma ex_reordered_dependency_ordered :
  dependency_ordered ex_unordered_read_writes ex_unordered_graph
    (reverse ex_unordered_nodes).
Proof.
  assert (Hx : "x" ∈ dom (graph_inputs ex_unordered_graph)).
  { simpl. rewrite dom_singleton_L. by apply elem_of_singleton. }
  intros i nd d Hi Hd.
  change (reverse ex_unordered_nodes)
    with [ex_pointwise "a" [4]%Z; ex_pointwise "b" [4]%Z] in *.
  destruct i as [|[|i]]; simpl in Hi; [| |discriminate Hi];
    injection Hi as <-; simpl in Hd; apply elem_of_singleton in Hd as ->.
  - split; [by left|].
    intros [|[|i']] nd' Hle Hi'; simpl in Hi'; [| |discriminate Hi'];
      injection Hi' as <-; discriminate.
  - split.
    + right. exists 0%nat, (ex_pointwise "a" [4]%Z). split_and!; [lia|done|done].
    + intros [|[|i']] nd' Hle Hi'; simpl in Hi'; [lia| |discriminate Hi'].
      injection Hi' as <-. discriminate.
Qed.

End ScheduleExample.

(** ** The example's schedule *)

Section ScheduleWitnesses.
Import Sched.

(** The scheduler constructed for the example. *)
Definition ex_scheduler : option Scheduler :=
  new_Scheduler ex_group_fn ex_read_writes ex_graph ex_nodes.

(** What the example looks like: after construction [buf0] is runnable,
    [buf1] and [buf2] wait in boxes 0 and 1, and [buf3] is removed; the
    loop runs the three retained nodes in dependency order. *)
Example ex_schedule_runs :
  (nodes <$> ex_scheduler) = Some [0; 1; 2]%nat
  /\ (boxes ∘ blocked_nodes <$> ex_scheduler) = Some [Some 1; Some 2]%nat
  /\ (elements ∘ removed_buffers ∘ graph <$> ex_scheduler) = Some ["buf3"]
  /\ (run_count <$> (ex_scheduler ≫= schedule ex_driver 6)) = Some 3%nat
  /\ (fmap op_name ∘ emitted <$> (ex_scheduler ≫= schedule ex_driver 6))
     = Some ["buf0"; "buf1"; "buf2"].
Proof. vm_compute. done. Qed.

Lemma ex_scheduler_Some : is_Some ex_scheduler.
Proof. apply (bool_decide_unpack _). vm_compute. exact I. Qed.

#[local] Instance User_eq_dec : EqDecision User.
Proof. solve_decision. Defined.

(** The reduction [buf1] of the example has the one consumer [buf2], whose
    one unmet dependency is the write of [buf1]. *)
Lemma can_remove_buffer_iff_witness :
  exists s n,
    ex_scheduler = Some s /\ objects s !! 1%nat = Some n
    /\ can_remove_buffer s n = Some true.
Proof.
  destruct ex_scheduler_Some as [s Hs].
  assert (H : (s' ← ex_scheduler; n ← objects s' !! 1%nat;
               Some (bool_decide (users n = Some [UNode 2])
                     && is_reduction n
                     && bool_decide (MemoryDep "buf1" 0%Z ∈ writes (read_writes n))
                     && bool_decide (user_unmet_dependencies s' (UNode 2)
                                     = Some {[ MemoryDep "buf1" 0%Z ]})
                     && bool_decide (user_is_reduction s' (UNode 2) = Some false)))
              = Some true)
    by (vm_compute; reflexivity).
  rewrite Hs in H. cbn [mbind option_bind] in H.
  destruct (objects s !! 1%nat) as [n|] eqn:Hn; [|discriminate H].
  cbn [mbind option_bind] in H. injection H as H.
  apply andb_prop in H as [H Hr]. apply andb_prop in H as [H Hc].
  apply andb_prop in H as [H Hw]. apply andb_prop in H as [Hus Hred].
  apply bool_decide_eq_true_1 in Hus, Hw, Hc, Hr.
  exists s, n. split; [exact Hs|]. split; [exact Hn|].
  apply (can_remove_buffer_iff s n [UNode 2] Hus).
  - apply Forall_cons_2; [|constructor]. exact (mk_is_Some _ _ Hc).
  - split; [exact Hred|]. exists (UNode 2), (MemoryDep "buf1" 0%Z).
    split; [reflexivity|]. split; [exact Hc|]. split; [exact Hw | exact Hr].
Defined.

Lemma ex_buf3_unread (j : nat) :
  j <> 3%nat -> ~ reads_name (objects ex_init) j "buf3".
Proof.
  intros Hj (nj & d & Hnj & Hd & Hnm).
  apply init_objects_lookup in Hnj as (nd & Hi & ->).
  change (d ∈ reads (ex_read_writes nd)) in Hd.
  destruct (ex_reads j nd d Hi Hd)
    as [[-> ->]|[[-> ->]|[[-> ->]|[[-> ->]|[-> ->]]]]]; discriminate Hnm.
Qed.

Lemma ex_buf3_not_output : "buf3" ∉ graph_outputs (graph ex_init).
Proof.
  change ("buf3" ∉ ["buf2"]). apply not_elem_of_cons.
  split; [discriminate | apply not_elem_of_nil].
Qed.

Lemma ex_buf2_output : "buf2" ∈ graph_outputs (graph ex_init).
Proof. change ("buf2" ∈ ["buf2"]). apply list_elem_of_here. Qed.

(** In the example, [buf3] is read by no node and is not an output: it is
    dropped; [buf2] is the output: it is kept. *)
Lemma dead_buffer_elimination_witness :
  exists s',
    compute_users ex_init = Some s'
    /\ (3%nat ∉ nodes s') /\ ("buf3" ∈ removed_buffers (graph s'))
    /\ (2%nat ∈ nodes s').
Proof.
  destruct (dead_buffer_elimination ex_init
              (init_state_nodes ex_group_fn ex_read_writes ex_graph ex_nodes))
    as [Htotal Hspec].
  destruct (Htotal ex_reads_earlier) as [s' Hs'].
  exists s'. split; [exact Hs'|].
  destruct (proj1 (Hspec s' Hs' 3%nat _ eq_refl) ex_buf3_unread ex_buf3_not_output)
    as [H3 Hrm].
  destruct (proj2 (Hspec s' Hs' 2%nat _ eq_refl) ex_NoDup_objects ex_buf2_output)
    as [H2 _].
  split; [exact H3|]. split; [exact Hrm | exact H2].
Defined.

(** In the constructed example box 0 holds [buf1], which waits for
    [buf0]. *)
Lemma blocked_nodes_fresh_witness :
  exists s n,
    ex_scheduler = Some s
    /\ objects s !! 1%nat = Some n
    /\ unmet_dependencies n <> ∅
    /\ forall d, d ∈ unmet_dependencies n ->
         (dep_name d ∉ available_buffer_names s)
         /\ (0%nat ∈ default [] (name_to_nodes (blocked_nodes s) !! dep_name d)).
Proof.
  destruct ex_scheduler_Some as [s Hs].
  assert (Hbox : (s' ← ex_scheduler; boxes (blocked_nodes s') !! 0%nat)
                 = Some (Some 1%nat))
    by (vm_compute; reflexivity).
  rewrite Hs in Hbox. cbn [mbind option_bind] in Hbox.
  destruct (blocked_nodes_fresh ex_group_fn ex_read_writes s
              (reachable_init _ _ ex_graph ex_nodes s Hs) 0%nat 1%nat Hbox)
    as (n & Hn & Hne & Hall).
  exists s, n. split; [exact Hs|]. split; [exact Hn|]. split; [exact Hne | exact Hall].
Defined.

(** Barrier staging on the example: once [buf0] has run, its name is
    pending and not available and [buf1] still waits for it; after the
    barrier the name is available and [buf1] waits for nothing. *)
Example ex_barrier_staging :
  (s ← ex_scheduler;
   s1 ← run 0 [0; 0]%Z [] s;
   n1 ← objects s1 !! 1;
   s2 ← barrier s1;
   n2 ← objects s2 !! 1;
   Some (bool_decide ("buf0" ∈ available_buffer_names s1),
         bool_decide ("buf0" ∈ pending_buffer_names s1),
         size (unmet_dependencies n1),
         bool_decide ("buf0" ∈ available_buffer_names s2),
         size (pending_buffer_names s2),
         size (unmet_dependencies n2)))
  = Some (false, true, 1, true, 0, 0).
Proof. vm_compute. reflexivity. Qed.

(** The example without its dead buffer has distinct names, is listed in
    dependency order and has no dead node, so its schedule completes
    having run all three nodes. *)
Lemma scheduling_completeness_witness :
  NoDup (name <$> ex_live_nodes)
  /\ dependency_ordered ex_read_writes ex_graph ex_live_nodes
  /\ no_dead_nodes ex_read_writes ex_graph ex_live_nodes
  /\ exists s0 s',
       new_Scheduler ex_group_fn ex_read_writes ex_graph ex_live_nodes = Some s0
       /\ schedule ex_driver 5 s0 = Some s'
       /\ runable_reduction_groups s' = []
       /\ runable_pointwise_groups s' = []
       /\ runable_nodes s' = ∅
       /\ (forall box, boxes (blocked_nodes s') !! box = Some None
                       \/ boxes (blocked_nodes s') !! box = None)
       /\ run_count s' = length (nodes s')
       /\ op_name <$> emitted s' ≡ₚ name_at (objects s') <$> nodes s'
       /\ nodes s' = [0; 1; 2]%nat
       /\ run_count s' = 3%nat.
Proof.
  split; [exact ex_live_NoDup|].
  split; [exact ex_live_dependency_ordered|].
  split; [exact ex_live_no_dead|].
  destruct (scheduling_completeness ex_group_fn ex_read_writes ex_driver
              ex_graph ex_live_nodes 5
              ex_live_NoDup ex_live_dependency_ordered ex_live_emits)
    as (s0 & s' & H0 & H1 & H2 & H3 & H4 & H5 & H6 & _ & H7 & H8).
  - simpl. lia.
  - destruct (H8 ex_live_no_dead) as [H9 H10].
    exists s0, s'. do 8 (split; [assumption|]).
    split; [exact H9 | exact H10].
Defined.

(** C4, as the claim states it, fails.  The graph of [b] and [a] is
    acyclic, has distinct names and no dead node, and each node emits its
    store; listed with [a] first it is in dependency order.  Listed with
    the reader [b] first, [compute_users] marks the name [a] with [None]
    when it visits [a] and then appends the reader [b] to that entry: the
    constructor fails, and there is no scheduler to drive. *)
Lemma scheduling_unordered_fails :
  NoDup (name <$> ex_unordered_nodes)
  /\ acyclic ex_unordered_read_writes ex_unordered_nodes
  /\ no_dead_nodes ex_unordered_read_writes ex_unordered_graph ex_unordered_nodes
  /\ emits_on_group_vars ex_group_fn ex_unordered_read_writes ex_driver
       ex_unordered_graph ex_unordered_nodes
  /\ dependency_ordered ex_unordered_read_writes ex_unordered_graph
       (reverse ex_unordered_nodes)
  /\ new_Scheduler ex_group_fn ex_unordered_read_writes ex_unordered_graph
       ex_unordered_nodes = None
  /\ is_Some (new_Scheduler ex_group_fn ex_unordered_read_writes ex_unordered_graph
                (reverse ex_unordered_nodes) ≫= schedule ex_driver 4).
Proof.
  split; [exact ex_unordered_NoDup|].
  split; [exact ex_unordered_acyclic|].
  split; [exact ex_unordered_no_dead|].
  split; [exact ex_unordered_emits|].
  split; [exact ex_reordered_dependency_ordered|].
  split; [vm_compute; reflexivity|].
  apply (bool_decide_unpack _). vm_compute. exact I.
Qed.

End ScheduleWitnesses.

Section LayoutFacts.
Import IR.
#[local] Open Scope Z_scope.

(** ** Row-major strides and the indexer *)












End LayoutFacts.

Section SqueezerFacts.
Import IR.
#[local] Open Scope Z_scope.

(** ** [SqueezeView.squeezer] *)


















End SqueezerFacts.

(** * Sizes and loaders of the IR nodes *)

Module Views.
Import IR.
#[local] Open Scope Z_scope.

(** [node.get_size()] on any node.  A box has no method of its own and
    [MutableBox.__getattr__] hands out the method of its [data]; a layout
    and a [View] have no such attribute, which raises.  A [SqueezeView]
    holds the size its constructor computed from [data.get_size()]. *)
Fixpoint get_size (n : IRNode) : option (list Expr) :=
  match n with
  | NLayout _ => None
  | NLoops ranges _ => Some ranges
  | NTypedLoops ranges _ _ _ => Some ranges
  | NLoop l => Some (IR.get_size l)
  | NExpandView _ size => Some size
  | NSqueezeView data => size ← get_size data; Some (squeezer size).1
  | NConstant _ _ _ => Some []
  | NInputBuffer _ l => Some (layout_size l)
  | NComputedBuffer b => Some (layout_size (layout b))
  | NTensorBox data => get_size data
  | NStorageBox data => get_size data
  | NView _ => None
  end.

(** [index[skip:]] of Python: a negative [skip] counts from the end. *)
Definition slice_from (skip : Z) (index : list Expr) : list Expr :=
  if 0 <=? skip then drop (Z.to_nat skip) index
  else drop (length index - Z.to_nat (- skip)) index.

(** The loop of [ExpandView.make_loader.load] that writes 0 at the axes
    where the data has size 1. *)
Definition zero_broadcast (actual index : list Expr) : list Expr :=
  zip_with (fun a x => if decide (a = 1) then 0 else x) actual index.

(** Calling the body of a loop with one argument. *)
Definition call_inner_fn (inner_fn : Callable) (index : list Expr) : option Expr :=
  match inner_fn with
  | Fn1 f => Some (f index)
  | Fn2 _ => None
  end.

Section Loaders.

(** The handler [ops] of [torchinductor.virtualized], which the sources do
    not contain: what [ops.load(name, index)] and
    [ops.constant(value, dtype)] return. *)
Variable ops_load : string -> Expr -> Expr.
Variable ops_constant : Expr -> string -> Expr.

(** [node.make_loader()]: [None] where the node has no such method or
    building the closure raises; the closure returns [None] where its
    assertion fails or the call it makes raises. *)
Fixpoint make_loader (n : IRNode) : option (list Expr -> option Expr) :=
  match n with
  | NLoop (UnrealizedBuffer _ inner_fn _ _) => Some (call_inner_fn inner_fn)
  | NExpandView data target =>
      actual ← get_size data;
      let skip := Z.of_nat (length target) - Z.of_nat (length actual) in
      inner ← make_loader data;
      Some (fun index =>
              let index := slice_from skip index in
              if decide (length index = length actual) then
                inner (zero_broadcast actual index)
              else None)
  | NSqueezeView data =>
      size ← get_size data;
      inner ← make_loader data;
      Some (fun index => index' ← (squeezer size).2 index; inner index')
  | NConstant value dtype _ => Some (fun _ => Some (ops_constant value dtype))
  | NInputBuffer name l =>
      Some (fun index => i ← make_indexer l index; Some (ops_load name i))
  | NComputedBuffer b =>
      Some (fun index =>
              i ← make_indexer (layout b) index; Some (ops_load (name b) i))
  | NTensorBox data => make_loader data
  | NStorageBox data => make_loader data
  | _ => None
  end.


End Loaders.

End Views.

Section ViewFacts.
Import IR Views.
#[local] Open Scope Z_scope.

Variable ops_load : string -> Expr -> Expr.
Variable ops_constant : Expr -> string -> Expr.

Lemma slice_from_length skip index :
  0 <= skip -> length (slice_from skip index) = (length index - Z.to_nat skip)%nat.
Proof.
  intros H. unfold slice_from. rewrite (proj2 (Z.leb_le 0 skip) H).
  apply length_drop.
Qed.








End ViewFacts.

Section ViewExamples.
Import IR Views.
#[local] Open Scope Z_scope.

(** ** Views of an input buffer of shape (1, 3) *)

(** A handler that returns the offset it is asked to load. *)
Definition ex_ops_load (name : string) (index : Expr) : Expr := index.
Definition ex_ops_constant (value : Expr) (dtype : string) : Expr := value.

Definition ex_input : IRNode :=
  NInputBuffer "x" (new_FlexibleLayout "cpu" "f32" [1; 3]).






(** The loads of the example, computed. *)
Example ex_view_loads :
  (make_loader ex_ops_load ex_ops_constant (NExpandView ex_input [4; 2; 3])
     ≫= fun load => load [3; 1; 2]) = Some 2
  /\ (make_loader ex_ops_load ex_ops_constant (NSqueezeView ex_input)
        ≫= fun load => load [2]) = Some 2
  /\ (make_loader ex_ops_load ex_ops_constant (NExpandView (NConstant 7 "f32" "cpu") [2; 2])
        ≫= fun load => load [1; 1]) = Some 7
  /\ default_strides [2; 3; 4] = [12; 4; 1].
Proof. vm_compute. done. Qed.

End ViewExamples.

Section SchedulerMonotone.
Import Sched.

(** ** What no operation of the scheduler undoes *)










(** ** The barrier twice *)




End SchedulerMonotone.

Section ProducedNames.
Import Sched.

Variable group_fn : list Expr -> list Expr.
Variable get_read_writes : ComputedBuffer -> ReadWrites.

(** ** Where the available and pending names come from *)






(** ** The group that group iteration yields *)




End ProducedNames.

Section ConsumerLists.
Import Sched.

(** ** [compute_users]: the consumer lists and the reads it refuses *)



End ConsumerLists.

Section BoxFacts.
Import Sched.

(** ** Boxes: a blocked node is handed out once *)




End BoxFacts.

Section NodeFacts.
Import Sched.

(** ** Pruning *)

Lemma prune_deps_unmet avail n :
  unmet_dependencies (prune_deps avail n)
  = filter (fun dep => dep_name dep ∉ avail) (unmet_dependencies n).
Proof. done. Qed.

(** Pruning against one set of available names and then against another
    is pruning against their union, so pruning twice against one set is
    pruning once; pruning only removes dependencies, and it leaves none on
    an available name. *)
Lemma prune_deps_compose (avail1 avail2 : gset string) (n : SchedulerNode) :
  prune_deps avail2 (prune_deps avail1 n) = prune_deps (avail1 ∪ avail2) n
  /\ prune_deps avail1 (prune_deps avail1 n) = prune_deps avail1 n
  /\ unmet_dependencies (prune_deps avail1 n) ⊆ unmet_dependencies n
  /\ forall d, d ∈ unmet_dependencies (prune_deps avail1 n) -> dep_name d ∉ avail1.
Proof.
  assert (Hc : forall a1 a2,
            prune_deps a2 (prune_deps a1 n) = prune_deps (a1 ∪ a2) n).
  { intros a1 a2. unfold prune_deps, set_unmet_dependencies. simpl. f_equal.
    apply set_eq. intros d. rewrite !elem_of_filter. set_solver. }
  split_and!.
  - apply Hc.
  - by rewrite Hc, (idemp_L (∪)).
  - rewrite prune_deps_unmet. intros d Hd. by apply elem_of_filter in Hd as [_ ?].
  - intros d. rewrite prune_deps_unmet. intros Hd. by apply elem_of_filter in Hd as [? _].
Qed.

(** ** Filing a blocked node and taking it out *)


(** ** Running a node on the ranks of its ranges *)


Variable group_fn : list Expr -> list Expr.
Variable get_read_writes : ComputedBuffer -> ReadWrites.



End NodeFacts.

(** * [Scheduler.iter_fixed_point] *)

Module FixedPoint.
Import Sched.

(** [iter_fixed_point], driven by a
    [for _ in scheduler.iter_fixed_point()] loop whose body is [body]:
    the state when the generator stops.  [prior_run_count] starts at -1;
    the [while] loop takes fuel. *)
Fixpoint iter_fixed_point_from (fuel : nat) (body : Scheduler -> option Scheduler)
  (prior_run_count : Z) (s : Scheduler) : option Scheduler :=
  match fuel with
  | O => None
  | S fuel' =>
      if bool_decide (prior_run_count ≠ Z.of_nat (run_count s)) then
        let prior_run_count := Z.of_nat (run_count s) in
        s' ← body s;
        iter_fixed_point_from fuel' body prior_run_count s'
      else Some s
  end.

Definition iter_fixed_point (fuel : nat) (body : Scheduler -> option Scheduler)
  (s : Scheduler) : option Scheduler :=
  iter_fixed_point_from fuel body (-1) s.

End FixedPoint.

Section FixedPointFacts.
Import Sched FixedPoint.




(** A body that fails makes the loop fail, and the loop never returns
    without running its body: with fuel, [iter_fixed_point] on a failing
    body is a failure. *)
Lemma iter_fixed_point_runs_body (body : Scheduler -> option Scheduler)
  (fuel : nat) (s : Scheduler) :
  iter_fixed_point (S fuel) body s
  = body s ≫= iter_fixed_point_from fuel body (Z.of_nat (run_count s)).
Proof.
  unfold iter_fixed_point. simpl. by rewrite bool_decide_eq_true_2 by lia.
Qed.

End FixedPointFacts.

Section PopFusableExact.
Import Sched.

(** ** What [pop_fusable] hands out *)









End PopFusableExact.

Section SchedulerExamples.
Import Sched FixedPoint.

(** ** The scheduler facts on the graph of four buffers *)

(** The group of [buf0] of the example and the first operations of its
    schedule: take the runnable nodes of the group, run [buf0], barrier. *)
Definition ex_group0 : Group := ([4; 3]%Z, []).

Definition ex_ops : list Op :=
  [OpPopRunable ex_group0; OpRun 0 [0; 0]%Z []; OpBarrier].








(** The first two buffers of the example in the wrong order: [buf1],
    which reads [buf0], comes first. *)
Definition ex_misordered : Scheduler :=
  init_state ex_group_fn ex_read_writes ex_graph
    [ex_reduction "buf1" [4]%Z [3]%Z; ex_pointwise "buf0" [4; 3]%Z].













(** What the example computes: the fusable pop under [buf0]'s write hands
    out [buf1] (node 1), the pop by name under [buf0] hands out [buf1]
    too, and the misordered list is refused. *)
Example ex_scheduler_pops :
  (ex_scheduler ≫= fun s =>
     fst <$> pop_fusable (objects s) {[ MemoryDep "buf0" 0%Z ]} ([4]%Z, [3]%Z)
               (blocked_nodes s)) = Some [1%nat]
  /\ ((fun s => (pop_name "buf0" (blocked_nodes s)).1) <$> ex_scheduler) = Some [1%nat]
  /\ (run_count <$> (ex_scheduler ≫= exec_all ex_ops)) = Some 1%nat
  /\ (nodes <$> compute_users ex_misordered) = None.
Proof. vm_compute. done. Qed.

End SchedulerExamples.

Section TableFacts.
Import Codegen.
#[local] Open Scope Z_scope.

(** ** The name tables *)











(** ** Dotted names *)







End TableFacts.

Section EmitterFacts.
Import Codegen.
#[local] Open Scope Z_scope.

Variable is_safe_constant : PyVal -> bool.
Variable new_var : PyCodegen -> string * PyCodegen.
Variable source_reconstruct :
  Source -> PyCodegen -> option (list Instruction * PyCodegen).
Variable value_reconstruct :
  VariableTracker -> PyCodegen -> option (list Instruction * PyCodegen).

(** ** The slots of the graph outputs *)








(** ** Temporaries *)


(** ** Dotted attribute loads *)




End EmitterFacts.

(** * More of the emitter: cached globals, closures, the generated call *)

Module Globals.
Import Codegen.
#[local] Open Scope Z_scope.

(** A character of the class [[a-zA-Z0-9_]]. *)
Definition is_word_char (c : ascii) : bool :=
  let n := nat_of_ascii c in
  ((48 <=? n)%nat && (n <=? 57)%nat)
  || ((65 <=? n)%nat && (n <=? 90)%nat)
  || ((97 <=? n)%nat && (n <=? 122)%nat)
  || (n =? 95)%nat.

(** [re.sub(r"[^a-zA-Z0-9_]+", "_", name)]: every maximal run of other
    characters becomes one underscore.  [in_run] tells that the character
    before was replaced.  A character outside ASCII is a run of bytes
    that are all replaced, so reading the string by bytes gives the same
    result. *)
Fixpoint sub_non_word (in_run : bool) (name : string) : string :=
  match name with
  | EmptyString => EmptyString
  | String c rest =>
      if is_word_char c then String c (sub_non_word false rest)
      else if in_run then sub_non_word true rest
      else String "_"%char (sub_non_word true rest)
  end.


Section Closures.

Variable is_safe_constant : PyVal -> bool.
Variable rot_n_helper : Z -> PyVal.
Variable version_info : Z * Z.



(** What [arg.load(self)] returns for a graph argument, known by its
    position; the sources do not contain the class of [tx.graphargs]. *)
Variable arg_load : nat -> PyCodegen -> option (list Instruction * PyCodegen).



End Closures.

End Globals.

Section GlobalsFacts.
Import Codegen Globals.
#[local] Open Scope Z_scope.

Fixpoint all_word (s : string) : bool :=
  match s with
  | EmptyString => true
  | String c rest => is_word_char c && all_word rest
  end.

Lemma is_word_char_underscore : is_word_char "_" = true.
Proof. done. Qed.

Lemma sub_non_word_all_word b s : all_word (sub_non_word b s) = true.
Proof.
  revert b. induction s as [|c s IH]; intros b; simpl; [done|].
  destruct (is_word_char c) eqn:E; simpl.
  - by rewrite E, IH.
  - destruct b; [apply IH|]. simpl. by rewrite IH.
Qed.

Lemma sub_non_word_id b s : all_word s = true -> sub_non_word b s = s.
Proof.
  revert b. induction s as [|c s IH]; intros b; simpl; [done|].
  intros [Hc Hs]%andb_true_iff. rewrite Hc. by rewrite IH.
Qed.

Lemma sub_non_word_length b s :
  (String.length (sub_non_word b s) <= String.length s)%nat.
Proof.
  revert b. induction s as [|c s IH]; intros b; simpl; [done|].
  destruct (is_word_char c); simpl.
  - specialize (IH false). lia.
  - destruct b; simpl; specialize (IH true); lia.
Qed.

(** The name under which a global is cached is made of letters, digits
    and underscores only; a name that already is comes out unchanged, so
    cleaning twice is cleaning once; and the result is never longer than
    the name. *)
Lemma sub_non_word_clean (name : string) :
  all_word (sub_non_word false name) = true
  /\ (all_word name = true -> sub_non_word false name = name)
  /\ sub_non_word false (sub_non_word false name) = sub_non_word false name
  /\ (String.length (sub_non_word false name) <= String.length name)%nat.
Proof.
  split_and!.
  - apply sub_non_word_all_word.
  - apply sub_non_word_id.
  - apply sub_non_word_id, sub_non_word_all_word.
  - apply sub_non_word_length.
Qed.



Section ClosureFacts.

Variable is_safe_constant : PyVal -> bool.
Variable rot_n_helper : Z -> PyVal.
Variable version_info : Z * Z.





Variable arg_load : nat -> PyCodegen -> option (list Instruction * PyCodegen).



End ClosureFacts.

End GlobalsFacts.

Section EmitterExamples.
Import Codegen Globals.
#[local] Open Scope Z_scope.

(** ** The emitter facts on a small frame *)












End EmitterExamples.
